(** * Connect-4 engine: the rule engine, the search and the privileged mutator

    A shallow embedding of [backend/game_engine.py] (classes [Connect4Logic]
    and [GodModeEngine]) and the properties its specification states.

    - Python integers are [Z]; a grid cell is a [Z] (the array is created
      with [dtype=int], a signed 64-bit cell, and stores of integers that do
      not fit raise instead of wrapping).
    - The grid is a 6 x 7 [ndarray]: a list of rows.  Row 0 is the top row.
    - [self.board] is a reference to an array object.  The search copies the
      array, mutates the live object and rebinds [self.board] to the copy,
      so the engine state is a store of array objects plus the address held
      by [self.board].
    - [random.choice] reads a tape of pending random draws kept in the
      engine state.
    - A raised exception is [None] in the engine monad.
    - The recursion of [minimax] is bounded by a fuel argument; every move
      fills an empty cell, so a fuel above the number of empty cells is
      enough for every depth, negative ones included. *)

From Stdlib Require Import Sorted.
From stdpp Require Import base numbers option list strings gmap.

Local Open Scope Z_scope.

(** ** Constants *)

Definition ROW_COUNT : nat := 6.
Definition COLUMN_COUNT : nat := 7.

Definition EMPTY : Z := 0.
Definition PLAYER_PIECE : Z := 1.
Definition AI_PIECE : Z := 2.

Definition WINDOW_LENGTH : nat := 4.

(** ** Scores: Python integers together with [-np.inf] and [np.inf] *)

Inductive ext : Type :=
  | NInf : ext
  | Fin : Z -> ext
  | PInf : ext.

(** [ext_ltb x y] is Python's [x < y] (equivalently [y > x]). *)
Definition ext_ltb (x y : ext) : bool :=
  match x, y with
  | NInf, NInf => false
  | NInf, _ => true
  | Fin _, NInf => false
  | Fin a, Fin b => a <? b
  | Fin _, PInf => true
  | PInf, _ => false
  end.

(** [ext_leb x y] is Python's [x <= y] (equivalently [y >= x]). *)
Definition ext_leb (x y : ext) : bool :=
  match x, y with
  | NInf, _ => true
  | Fin _, NInf => false
  | Fin a, Fin b => a <=? b
  | Fin _, PInf => true
  | PInf, PInf => true
  | PInf, _ => false
  end.

(** Python's [max(a, b)]: the first argument unless the second is greater. *)
Definition ext_max (a b : ext) : ext := if ext_ltb a b then b else a.

(** Python's [min(a, b)]: the first argument unless the second is smaller. *)
Definition ext_min (a b : ext) : ext := if ext_ltb b a then b else a.

(** ** The grid *)

Abbreviation board := (list (list Z)).

(** [np.zeros((ROW_COUNT, COLUMN_COUNT), dtype=int)] *)
Definition zeros_board : board := replicate ROW_COUNT (replicate COLUMN_COUNT 0).

(** The array keeps the shape it was created with. *)
Definition shape_ok (b : board) : Prop :=
  length b = ROW_COUNT /\ Forall (fun row => length row = COLUMN_COUNT) b.

Definition shape_okb (b : board) : bool :=
  (length b =? ROW_COUNT)%nat && forallb (fun row => (length row =? COLUMN_COUNT)%nat) b.

(** [board[r][c]] for indices that lie inside the shape (loop variables). *)
Definition cell (b : board) (r c : nat) : Z :=
  match b !! r with
  | Some row => match row !! c with Some v => v | None => 0 end
  | None => 0
  end.

(** The in-place store [board[r][c] = v] for indices inside the shape. *)
Definition set_cell (b : board) (r c : nat) (v : Z) : board :=
  match b !! r with
  | Some row => <[r := <[c := v]> row]> b
  | None => b
  end.

(** numpy's treatment of an integer index on an axis of length [n]:
    [0 <= i < n] is used as is, [-n <= i < 0] counts from the end, anything
    else raises [IndexError]. *)
Definition np_index (n : nat) (i : Z) : option nat :=
  if (0 <=? i) && (i <? Z.of_nat n) then Some (Z.to_nat i)
  else if (- Z.of_nat n <=? i) && (i <? 0) then Some (Z.to_nat (i + Z.of_nat n))
  else None.

(** A value that a signed 64-bit cell can hold. *)
Definition fits_cell (v : Z) : bool := (- 2 ^ 63 <=? v) && (v <? 2 ^ 63).

(** [board[row][col] = v] with caller-supplied indices: [IndexError] outside
    the shape, [OverflowError] for a value the cell cannot hold. *)
Definition setitem (b : board) (row col : Z) (v : Z) : option board :=
  r ← np_index ROW_COUNT row;
  c ← np_index COLUMN_COUNT col;
  if fits_cell v then Some (set_cell b r c v) else None.

(** Python's [list.count]. *)
Fixpoint count (l : list Z) (x : Z) : Z :=
  match l with
  | [] => 0
  | y :: l' => (if y =? x then 1 else 0) + count l' x
  end.

(** [range(n)] and [range(lo, hi)] as lists of naturals. *)
Definition range (n : nat) : list nat := seq 0 n.
Definition range_from (lo hi : nat) : list nat := seq lo (hi - lo).

(** ** Connect4Logic: the reads *)

(** [is_valid_location]: is the top cell of the column empty? *)
Definition is_valid_location (b : board) (col : Z) : option bool :=
  c ← np_index COLUMN_COUNT col;
  Some (cell b 0 c =? 0).

(** [get_next_open_row]: the lowest empty row of the column.  The outer
    option is the [IndexError] of a bad column, the inner one is the [None]
    Python returns when the loop ends without finding an empty cell. *)
Definition get_next_open_row (b : board) (col : Z) : option (option Z) :=
  c ← np_index COLUMN_COUNT col;
  Some (Z.of_nat <$> List.find (fun r => cell b r c =? 0) (rev (range ROW_COUNT))).

(** [winning_move]: four scans, each returning [True] at the first hit. *)
Definition winning_move (b : board) (piece : Z) : bool :=
  (* Check Horizontal *)
  existsb (fun c => existsb (fun r =>
      (cell b r c =? piece) && (cell b r (c+1) =? piece) &&
      (cell b r (c+2) =? piece) && (cell b r (c+3) =? piece))
    (range ROW_COUNT)) (range (COLUMN_COUNT - 3))
  (* Check Vertical *)
  || existsb (fun c => existsb (fun r =>
      (cell b r c =? piece) && (cell b (r+1) c =? piece) &&
      (cell b (r+2) c =? piece) && (cell b (r+3) c =? piece))
    (range (ROW_COUNT - 3))) (range COLUMN_COUNT)
  (* Check Positively Sloped Diagonals *)
  || existsb (fun c => existsb (fun r =>
      (cell b r c =? piece) && (cell b (r+1) (c+1) =? piece) &&
      (cell b (r+2) (c+2) =? piece) && (cell b (r+3) (c+3) =? piece))
    (range (ROW_COUNT - 3))) (range (COLUMN_COUNT - 3))
  (* Check Negatively Sloped Diagonals *)
  || existsb (fun c => existsb (fun r =>
      (cell b r c =? piece) && (cell b (r-1) (c+1) =? piece) &&
      (cell b (r-2) (c+2) =? piece) && (cell b (r-3) (c+3) =? piece))
    (range_from 3 ROW_COUNT)) (range (COLUMN_COUNT - 3)).

(** The opponent as [evaluate_window] computes it. *)
Definition opp_piece (piece : Z) : Z :=
  if piece =? PLAYER_PIECE then AI_PIECE else PLAYER_PIECE.

(** [evaluate_window] *)
Definition evaluate_window (window : list Z) (piece : Z) : Z :=
  let score := 0 in
  let score :=
    if count window piece =? 4 then score + 100
    else if (count window piece =? 3) && (count window EMPTY =? 1) then score + 5
    else if (count window piece =? 2) && (count window EMPTY =? 2) then score + 2
    else score in
  let score :=
    if (count window (opp_piece piece) =? 3) && (count window EMPTY =? 1)
    then score - 4 else score in
  score.

(** [board[r, :]] and [board[:, c]] as Python lists. *)
Definition row_array (b : board) (r : nat) : list Z := default [] (b !! r).
Definition col_array (b : board) (c : nat) : list Z :=
  (fun row => default 0 (row !! c)) <$> b.

(** The slice [l[i:j]]. *)
Definition slice (l : list Z) (i j : nat) : list Z := take (j - i) (drop i l).

(** [score_position] *)
Definition score_position (b : board) (piece : Z) : Z :=
  let score := 0 in
  (* Score Center Column *)
  let center_array := col_array b (COLUMN_COUNT / 2) in
  let center_count := count center_array piece in
  let score := score + center_count * 3 in
  (* Score Horizontal *)
  let score :=
    foldl (fun score r =>
      let row_array := row_array b r in
      foldl (fun score c =>
        let window := slice row_array c (c + WINDOW_LENGTH) in
        score + evaluate_window window piece) score (range (COLUMN_COUNT - 3)))
      score (range ROW_COUNT) in
  (* Score Vertical *)
  let score :=
    foldl (fun score c =>
      let col_array := col_array b c in
      foldl (fun score r =>
        let window := slice col_array r (r + WINDOW_LENGTH) in
        score + evaluate_window window piece) score (range (ROW_COUNT - 3)))
      score (range COLUMN_COUNT) in
  score.

(** [get_valid_locations].  The column is a loop variable below
    [COLUMN_COUNT], so [is_valid_location] cannot raise here. *)
Definition get_valid_locations (b : board) : list Z :=
  foldl (fun valid_locations col =>
    match is_valid_location b (Z.of_nat col) with
    | Some true => valid_locations ++ [Z.of_nat col]
    | Some false | None => valid_locations
    end) [] (range COLUMN_COUNT).

(** [is_terminal_node] *)
Definition is_terminal_node (b : board) : bool :=
  winning_move b PLAYER_PIECE || winning_move b AI_PIECE
  || (length (get_valid_locations b) =? 0)%nat.

(** ** The engine state *)

(** Array objects live in a store, addressed by their position; an
    allocation appends.  [self_board] is the address bound to [self.board].
    [rng] is the tape of random draws still to come. *)
Record engine : Type := Engine {
  heap : list board;
  self_board : nat;
  rng : nat -> nat
}.

(** [Connect4Logic.__init__] *)
Definition new_engine (g : nat -> nat) : engine :=
  {| heap := [zeros_board]; self_board := 0; rng := g |}.

(** The contents of the array [self.board] refers to. *)
Definition board_of (st : engine) : option board := heap st !! self_board st.

(** Engine actions: a state and error monad; [None] is a raised exception. *)
Definition M (A : Type) : Type := engine -> option (A * engine).

#[global] Instance M_ret : MRet M := fun A a st => Some (a, st).
#[global] Instance M_bind : MBind M := fun A B k m st =>
  match m st with
  | Some (a, st') => k a st'
  | None => None
  end.

Definition raise {A : Type} : M A := fun _ => None.

(** Read the array behind [self.board]. *)
Definition the_board : M board := fun st =>
  match board_of st with
  | Some b => Some (b, st)
  | None => None
  end.

(** The object [self.board] refers to, overwritten in place. *)
Definition put_board (st : engine) (b' : board) : engine :=
  {| heap := <[self_board st := b']> (heap st);
     self_board := self_board st; rng := rng st |}.

(** [self.board[row][col] = v]: an in-place store into the live object. *)
Definition board_setitem (row col v : Z) : M unit := fun st =>
  match board_of st with
  | Some b =>
      match setitem b row col v with
      | Some b' => Some (tt, put_board st b')
      | None => None
      end
  | None => None
  end.

(** [self.board.copy()]: a fresh object with the same contents. *)
Definition board_copy : M nat := fun st =>
  match board_of st with
  | Some b => Some (length (heap st),
                    {| heap := heap st ++ [b];
                       self_board := self_board st; rng := rng st |})
  | None => None
  end.

(** [self.board = a]: rebind the attribute to the object at address [a]. *)
Definition rebind (a : nat) : M unit := fun st =>
  Some (tt, {| heap := heap st; self_board := a; rng := rng st |}).

(** [random.choice(l)]: the next draw selects the element; an empty
    sequence raises [IndexError]. *)
Definition random_choice (l : list Z) : M Z := fun st =>
  match l !! (rng st 0%nat mod length l)%nat with
  | Some x => Some (x, {| heap := heap st; self_board := self_board st;
                          rng := fun k => rng st (S k) |})
  | None => None
  end.

(** A row obtained from [get_next_open_row]: an [IndexError] propagates;
    Python's [None] used as a row index is outside this model (no caller
    reaches it: the column is checked first) and is treated as an error. *)
Definition next_open_row (col : Z) : M Z :=
  b ← the_board;
  match get_next_open_row b col with
  | Some (Some row) => mret row
  | _ => raise
  end.

(** ** Connect4Logic: the writes *)

(** [create_board] *)
Definition create_board : M unit := fun st =>
  Some (tt, {| heap := heap st ++ [zeros_board];
               self_board := length (heap st); rng := rng st |}).

(** [drop_piece] *)
Definition drop_piece (row col piece : Z) : M unit :=
  board_setitem row col piece.

(** The rule-driven drop of [main.make_move]: the column is checked with
    [is_valid_location], the row is [get_next_open_row], then [drop_piece]. *)
Definition rule_drop (col piece : Z) : M unit :=
  b ← the_board;
  match is_valid_location b col with
  | Some true => row ← next_open_row col; drop_piece row col piece
  | _ => raise
  end.

(** ** The search *)

Section Search.

(** The evaluation applied to a non-terminal position at depth 0.  The
    engine's own search passes [score_position] for [AI_PIECE] (see
    [minimax] below). *)
Variable leaf_score : board -> Z.

(** The body of [for col in valid_locations] on the maximizing side; [rec]
    is the recursive call [self.minimax(self.board, depth-1, _, _, False)]. *)
Fixpoint max_loop (rec : ext -> ext -> M (option Z * ext)) (cols : list Z)
    (value : ext) (column : Z) (alpha beta : ext) : M (Z * ext) :=
  match cols with
  | [] => mret (column, value)
  | col :: rest =>
      row ← next_open_row col;
      b_copy ← board_copy;
      (* Simulate move *)
      _ ← board_setitem row col AI_PIECE;
      r ← rec alpha beta;
      let new_score := r.2 in
      (* Undo move *)
      _ ← rebind b_copy;
      let '(value, column) :=
        if ext_ltb value new_score then (new_score, col) else (value, column) in
      let alpha := ext_max alpha value in
      if ext_leb beta alpha then mret (column, value)
      else max_loop rec rest value column alpha beta
  end.

(** The same on the minimizing side. *)
Fixpoint min_loop (rec : ext -> ext -> M (option Z * ext)) (cols : list Z)
    (value : ext) (column : Z) (alpha beta : ext) : M (Z * ext) :=
  match cols with
  | [] => mret (column, value)
  | col :: rest =>
      row ← next_open_row col;
      b_copy ← board_copy;
      _ ← board_setitem row col PLAYER_PIECE;
      r ← rec alpha beta;
      let new_score := r.2 in
      _ ← rebind b_copy;
      let '(value, column) :=
        if ext_ltb new_score value then (new_score, col) else (value, column) in
      let beta := ext_min beta value in
      if ext_leb beta alpha then mret (column, value)
      else min_loop rec rest value column alpha beta
  end.

(** [minimax].  The parameter [board] of the Python method is never read
    (the body works on [self.board]) and is left out.  [fuel] bounds the
    recursion depth of the model; [depth] is the Python argument. *)
Fixpoint minimax_with (fuel : nat) (depth : Z) (alpha beta : ext)
    (maximizingPlayer : bool) : M (option Z * ext) :=
  match fuel with
  | O => raise
  | S fuel' =>
      b ← the_board;
      let valid_locations := get_valid_locations b in
      let is_terminal := is_terminal_node b in
      if (depth =? 0) || is_terminal then
        if is_terminal then
          if winning_move b AI_PIECE then mret (None, Fin 100000000000000)
          else if winning_move b PLAYER_PIECE then mret (None, Fin (-10000000000000))
          else (* Game is over, no more valid moves *) mret (None, Fin 0)
        else (* Depth is zero *) mret (None, Fin (leaf_score b))
      else if maximizingPlayer then
        let value := NInf in
        column ← random_choice valid_locations;
        r ← max_loop (fun alpha beta => minimax_with fuel' (depth - 1) alpha beta false)
              valid_locations value column alpha beta;
        mret (Some r.1, r.2)
      else (* Minimizing player *)
        let value := PInf in
        column ← random_choice valid_locations;
        r ← min_loop (fun alpha beta => minimax_with fuel' (depth - 1) alpha beta true)
              valid_locations value column alpha beta;
        mret (Some r.1, r.2)
  end.

(** *** The unpruned reference search

    The full minimax the specification compares the pruning search with:
    the same recursion, the same order of columns, the same seed and the
    same strict comparison, and no alpha, no beta and no cutoff. *)
Fixpoint full_max_loop (rec : M (option Z * ext)) (cols : list Z)
    (value : ext) (column : Z) : M (Z * ext) :=
  match cols with
  | [] => mret (column, value)
  | col :: rest =>
      row ← next_open_row col;
      b_copy ← board_copy;
      _ ← board_setitem row col AI_PIECE;
      r ← rec;
      let new_score := r.2 in
      _ ← rebind b_copy;
      let '(value, column) :=
        if ext_ltb value new_score then (new_score, col) else (value, column) in
      full_max_loop rec rest value column
  end.

Fixpoint full_min_loop (rec : M (option Z * ext)) (cols : list Z)
    (value : ext) (column : Z) : M (Z * ext) :=
  match cols with
  | [] => mret (column, value)
  | col :: rest =>
      row ← next_open_row col;
      b_copy ← board_copy;
      _ ← board_setitem row col PLAYER_PIECE;
      r ← rec;
      let new_score := r.2 in
      _ ← rebind b_copy;
      let '(value, column) :=
        if ext_ltb new_score value then (new_score, col) else (value, column) in
      full_min_loop rec rest value column
  end.

Fixpoint full_minimax_with (fuel : nat) (depth : Z) (maximizingPlayer : bool)
    : M (option Z * ext) :=
  match fuel with
  | O => raise
  | S fuel' =>
      b ← the_board;
      let valid_locations := get_valid_locations b in
      let is_terminal := is_terminal_node b in
      if (depth =? 0) || is_terminal then
        if is_terminal then
          if winning_move b AI_PIECE then mret (None, Fin 100000000000000)
          else if winning_move b PLAYER_PIECE then mret (None, Fin (-10000000000000))
          else mret (None, Fin 0)
        else mret (None, Fin (leaf_score b))
      else if maximizingPlayer then
        column ← random_choice valid_locations;
        r ← full_max_loop (full_minimax_with fuel' (depth - 1) false)
              valid_locations NInf column;
        mret (Some r.1, r.2)
      else
        column ← random_choice valid_locations;
        r ← full_min_loop (full_minimax_with fuel' (depth - 1) true)
              valid_locations PInf column;
        mret (Some r.1, r.2)
  end.

End Search.

(** [Connect4Logic.minimax]: the depth-0 evaluation is
    [self.score_position(AI_PIECE)]. *)
Definition minimax : nat -> Z -> ext -> ext -> bool -> M (option Z * ext) :=
  minimax_with (fun b => score_position b AI_PIECE).

Definition full_minimax : nat -> Z -> bool -> M (option Z * ext) :=
  full_minimax_with (fun b => score_position b AI_PIECE).

(** [get_best_move] *)
Definition get_best_move (fuel : nat) (depth : Z) : M (option Z) :=
  r ← minimax fuel depth NInf PInf true;
  mret r.1.

(** ** GodModeEngine *)

(** [force_place_token] *)
Definition force_place_token (row col piece : Z) : M bool :=
  if (0 <=? row) && (row <? Z.of_nat ROW_COUNT) &&
     ((0 <=? col) && (col <? Z.of_nat COLUMN_COUNT)) then
    _ ← board_setitem row col piece;
    mret true
  else mret false.

(** [remove_token] *)
Definition remove_token (row col : Z) : M bool :=
  if (0 <=? row) && (row <? Z.of_nat ROW_COUNT) &&
     ((0 <=? col) && (col <? Z.of_nat COLUMN_COUNT)) then
    _ ← board_setitem row col EMPTY;
    mret true
  else mret false.

(** [wipe_board] *)
Definition wipe_board : M unit := create_board.

(** * Properties *)

(** ** Windows *)

Lemma count_nonneg l x : 0 <= count l x.
Proof. induction l as [|y l IH]; simpl; [lia|]. destruct (y =? x); lia. Qed.

Lemma count_two_le l x y :
  x <> y -> count l x + count l y <= Z.of_nat (length l).
Proof.
  intros Hxy. induction l as [|z l IH]; simpl; [lia|].
  destruct (Z.eqb_spec z x), (Z.eqb_spec z y); subst; try congruence; lia.
Qed.

Lemma opp_piece_neq piece : opp_piece piece <> piece.
Proof.
  unfold opp_piece, PLAYER_PIECE, AI_PIECE.
  destruct (Z.eqb_spec piece 1); lia.
Qed.

(** C6.  On a window of four cells [evaluate_window] is: 100 for four of the
    token; 5 for three of the token and one empty cell; 2 for two of the
    token and two empty cells; -4 for three of the opponent's token and one
    empty cell; 0 in every other case.  The opponent of the player's token is
    the AI's token and conversely. *)
Theorem evaluate_window_cases (window : list Z) (piece : Z) :
  length window = WINDOW_LENGTH ->
  (opp_piece PLAYER_PIECE = AI_PIECE /\ opp_piece AI_PIECE = PLAYER_PIECE) /\
  (count window piece = 4 -> evaluate_window window piece = 100) /\
  (count window piece = 3 /\ count window EMPTY = 1 ->
     evaluate_window window piece = 5) /\
  (count window piece = 2 /\ count window EMPTY = 2 ->
     evaluate_window window piece = 2) /\
  (count window (opp_piece piece) = 3 /\ count window EMPTY = 1 ->
     evaluate_window window piece = -4) /\
  (count window piece <> 4 ->
   ~ (count window piece = 3 /\ count window EMPTY = 1) ->
   ~ (count window piece = 2 /\ count window EMPTY = 2) ->
   ~ (count window (opp_piece piece) = 3 /\ count window EMPTY = 1) ->
     evaluate_window window piece = 0).
Proof.
  intros Hlen.
  pose proof (count_two_le window _ _ (opp_piece_neq piece)) as Hsum.
  pose proof (count_nonneg window piece) as Hp.
  pose proof (count_nonneg window (opp_piece piece)) as Ho.
  rewrite Hlen in Hsum. unfold WINDOW_LENGTH in Hsum.
  split; [split; reflexivity|].
  unfold evaluate_window.
  generalize dependent (count window (opp_piece piece)). intros O HO1 HO2.
  generalize dependent (count window piece). intros P HP1 HP2.
  generalize (count window EMPTY). intros E.
  repeat split; intros;
    repeat match goal with
    | |- context [?a =? ?b] => destruct (Z.eqb_spec a b)
    end; simpl; lia.
Qed.

Lemma evaluate_window_cases_witness :
  evaluate_window [2; 2; 0; 2] AI_PIECE = 5.
Proof.
  apply (evaluate_window_cases [2; 2; 0; 2] AI_PIECE); [reflexivity|].
  split; reflexivity.
Defined.

(** ** Win detection *)

(** A cell of the 6 x 7 grid, by integer coordinates. *)
Definition in_grid (r c : Z) : Prop :=
  0 <= r < Z.of_nat ROW_COUNT /\ 0 <= c < Z.of_nat COLUMN_COUNT.

(** The eight ways to walk along a horizontal line, a vertical line or one
    of the two diagonals. *)
Definition line_step (dr dc : Z) : Prop :=
  -1 <= dr <= 1 /\ -1 <= dc <= 1 /\ (dr <> 0 \/ dc <> 0).

(** Four consecutive cells of the grid, starting at [(r, c)] and walking by
    [(dr, dc)], all hold [piece]. *)
Definition four_from (b : board) (piece r c dr dc : Z) : Prop :=
  forall i, 0 <= i < 4 ->
    in_grid (r + i * dr) (c + i * dc) /\
    cell b (Z.to_nat (r + i * dr)) (Z.to_nat (c + i * dc)) = piece.

Definition four_in_line (b : board) (piece : Z) : Prop :=
  exists r c dr dc, line_step dr dc /\ four_from b piece r c dr dc.

Lemma in_range n x : In x (range n) <-> (x < n)%nat.
Proof. unfold range. rewrite in_seq. lia. Qed.

Lemma in_range_from lo hi x : In x (range_from lo hi) <-> (lo <= x < hi)%nat.
Proof. unfold range_from. rewrite in_seq. lia. Qed.

Lemma scan_true (p : nat -> nat -> bool) (cs rs : list nat) :
  existsb (fun c => existsb (fun r => p r c) rs) cs = true <->
  exists r c, In r rs /\ In c cs /\ p r c = true.
Proof.
  rewrite existsb_exists. split.
  - intros (c & Hc & H). apply existsb_exists in H as (r & Hr & H). eauto.
  - intros (r & c & Hr & Hc & H). exists c. split; [done|].
    apply existsb_exists. eauto.
Qed.

Lemma four_eqb (a b c d piece : Z) :
  (a =? piece) && (b =? piece) && (c =? piece) && (d =? piece) = true <->
  a = piece /\ b = piece /\ c = piece /\ d = piece.
Proof. rewrite !andb_true_iff, !Z.eqb_eq. tauto. Qed.

(** What each of the four scans of [winning_move] finds. *)
Lemma winning_move_scans (b : board) (piece : Z) :
  winning_move b piece = true <->
  (exists r c, (r < 6 /\ c < 4)%nat /\
     cell b r c = piece /\ cell b r (c+1) = piece /\
     cell b r (c+2) = piece /\ cell b r (c+3) = piece) \/
  (exists r c, (r < 3 /\ c < 7)%nat /\
     cell b r c = piece /\ cell b (r+1) c = piece /\
     cell b (r+2) c = piece /\ cell b (r+3) c = piece) \/
  (exists r c, (r < 3 /\ c < 4)%nat /\
     cell b r c = piece /\ cell b (r+1) (c+1) = piece /\
     cell b (r+2) (c+2) = piece /\ cell b (r+3) (c+3) = piece) \/
  (exists r c, (3 <= r < 6 /\ c < 4)%nat /\
     cell b r c = piece /\ cell b (r-1) (c+1) = piece /\
     cell b (r-2) (c+2) = piece /\ cell b (r-3) (c+3) = piece).
Proof.
  unfold winning_move. rewrite !orb_true_iff, !scan_true.
  unfold ROW_COUNT, COLUMN_COUNT.
  setoid_rewrite four_eqb. setoid_rewrite in_range. setoid_rewrite in_range_from.
  simpl Nat.sub.
  split.
  - intros [[[H|H]|H]|H]; destruct H as (r & c & Hr & Hc & H);
      [left|right;left|right;right;left|right;right;right];
      exists r, c; (split; [lia|exact H]).
  - intros [H|[H|[H|H]]]; destruct H as (r & c & Hrc & H);
      [left;left;left|left;left;right|left;right|right];
      exists r, c; (split; [lia|split; [lia|exact H]]).
Qed.

Lemma four_from_cells (b : board) (piece r c dr dc : Z) :
  four_from b piece r c dr dc <->
  (in_grid r c /\ in_grid (r + dr) (c + dc) /\
   in_grid (r + 2 * dr) (c + 2 * dc) /\ in_grid (r + 3 * dr) (c + 3 * dc)) /\
  cell b (Z.to_nat r) (Z.to_nat c) = piece /\
  cell b (Z.to_nat (r + dr)) (Z.to_nat (c + dc)) = piece /\
  cell b (Z.to_nat (r + 2 * dr)) (Z.to_nat (c + 2 * dc)) = piece /\
  cell b (Z.to_nat (r + 3 * dr)) (Z.to_nat (c + 3 * dc)) = piece.
Proof.
  unfold four_from. split.
  - intros H.
    pose proof (H 0 ltac:(lia)) as H0. pose proof (H 1 ltac:(lia)) as H1.
    pose proof (H 2 ltac:(lia)) as H2. pose proof (H 3 ltac:(lia)) as H3.
    rewrite !Z.mul_0_l, !Z.add_0_r in H0. rewrite !Z.mul_1_l in H1. tauto.
  - intros ((G0 & G1 & G2 & G3) & C0 & C1 & C2 & C3) i Hi.
    assert (i = 0 \/ i = 1 \/ i = 2 \/ i = 3) as [->|[->|[->| ->]]] by lia.
    + rewrite !Z.mul_0_l, !Z.add_0_r. tauto.
    + rewrite !Z.mul_1_l. tauto.
    + tauto.
    + tauto.
Qed.

(** Close a goal [cell b n m = piece] with a hypothesis about the same cell
    written with other arithmetic. *)
Ltac same_cell :=
  match goal with
  | H : cell ?b ?n' ?m' = ?p |- cell ?b ?n ?m = ?p =>
      replace n with n' by lia; replace m with m' by lia; exact H
  end.

Ltac found_at r0 c0 :=
  exists r0, c0; split; [lia | repeat split; same_cell].

(** C4.  [winning_move] answers true exactly when some four consecutive
    cells of the 6 x 7 grid, along a row, a column or either diagonal, all
    hold the token.  Nothing is assumed about the grid: floating tokens and
    full columns are covered. *)
Theorem winning_move_iff_four_in_line (b : board) (piece : Z) :
  winning_move b piece = true <-> four_in_line b piece.
Proof.
  rewrite winning_move_scans. unfold four_in_line. split.
  - intros [H|[H|[H|H]]]; destruct H as (r & c & Hrc & H0 & H1 & H2 & H3).
    + exists (Z.of_nat r), (Z.of_nat c), 0, 1.
      split; [unfold line_step; lia|]. apply four_from_cells.
      unfold in_grid, ROW_COUNT, COLUMN_COUNT.
      split; [lia|]. repeat split; same_cell.
    + exists (Z.of_nat r), (Z.of_nat c), 1, 0.
      split; [unfold line_step; lia|]. apply four_from_cells.
      unfold in_grid, ROW_COUNT, COLUMN_COUNT.
      split; [lia|]. repeat split; same_cell.
    + exists (Z.of_nat r), (Z.of_nat c), 1, 1.
      split; [unfold line_step; lia|]. apply four_from_cells.
      unfold in_grid, ROW_COUNT, COLUMN_COUNT.
      split; [lia|]. repeat split; same_cell.
    + exists (Z.of_nat r), (Z.of_nat c), (-1), 1.
      split; [unfold line_step; lia|]. apply four_from_cells.
      unfold in_grid, ROW_COUNT, COLUMN_COUNT.
      split; [lia|]. repeat split; same_cell.
  - intros (r & c & dr & dc & (Hdr & Hdc & Hnz) & H).
    apply four_from_cells in H as (G & H0 & H1 & H2 & H3).
    unfold in_grid, ROW_COUNT, COLUMN_COUNT in G.
    assert (dr = -1 \/ dr = 0 \/ dr = 1) as Hr by lia.
    assert (dc = -1 \/ dc = 0 \/ dc = 1) as Hc by lia.
    destruct Hr as [->|[->| ->]], Hc as [->|[->| ->]]; try lia.
    + (* up and to the left: a positively sloped diagonal read backwards *)
      right; right; left. found_at (Z.to_nat (r - 3)) (Z.to_nat (c - 3)).
    + (* up: a column read backwards *)
      right; left. found_at (Z.to_nat (r - 3)) (Z.to_nat c).
    + (* up and to the right: a negatively sloped diagonal *)
      right; right; right. found_at (Z.to_nat r) (Z.to_nat c).
    + (* to the left: a row read backwards *)
      left. found_at (Z.to_nat r) (Z.to_nat (c - 3)).
    + (* to the right *)
      left. found_at (Z.to_nat r) (Z.to_nat c).
    + (* down and to the left: a negatively sloped diagonal read backwards *)
      right; right; right. found_at (Z.to_nat (r + 3)) (Z.to_nat (c - 3)).
    + (* down *)
      right; left. found_at (Z.to_nat r) (Z.to_nat c).
    + (* down and to the right *)
      right; right; left. found_at (Z.to_nat r) (Z.to_nat c).
Qed.

(** ** Shape *)

Lemma shape_okb_spec (b : board) : shape_okb b = true <-> shape_ok b.
Proof.
  unfold shape_okb, shape_ok.
  rewrite andb_true_iff, Nat.eqb_eq, forallb_forall, Forall_forall.
  setoid_rewrite Nat.eqb_eq. setoid_rewrite list_elem_of_In. tauto.
Qed.

Lemma shape_ok_zeros : shape_ok zeros_board.
Proof. apply shape_okb_spec. reflexivity. Qed.

Lemma shape_ok_rows (b : board) :
  shape_ok b ->
  exists r0 r1 r2 r3 r4 r5 : list Z,
    b = [r0; r1; r2; r3; r4; r5] /\
    length r0 = 7%nat /\ length r1 = 7%nat /\ length r2 = 7%nat /\
    length r3 = 7%nat /\ length r4 = 7%nat /\ length r5 = 7%nat.
Proof.
  intros [Hlen Hrows]. unfold ROW_COUNT, COLUMN_COUNT in *.
  do 6 (destruct b as [|? b]; [discriminate Hlen|]).
  destruct b; [|discriminate Hlen].
  do 6 (apply Forall_cons in Hrows as [? Hrows]).
  eauto 20.
Qed.

Lemma length7 (l : list Z) :
  length l = 7%nat -> exists a0 a1 a2 a3 a4 a5 a6, l = [a0; a1; a2; a3; a4; a5; a6].
Proof.
  intros H. do 7 (destruct l as [|? l]; [discriminate H|]).
  destruct l; [|discriminate H]. eauto 10.
Qed.

(** Name the forty-two cells of a well-shaped grid. *)
Ltac explode_board H :=
  apply shape_ok_rows in H as (?r & ?r & ?r & ?r & ?r & ?r & -> & H);
  repeat match type of H with
  | _ /\ _ => let Hl := fresh in destruct H as [Hl H]; apply length7 in Hl;
      destruct Hl as (? & ? & ? & ? & ? & ? & ? & ->)
  | length _ = _ => apply length7 in H;
      destruct H as (? & ? & ? & ? & ? & ? & ? & ->)
  end.

(** ** The heuristic *)

Definition sum_list (l : list Z) : Z := foldr Z.add 0 l.

(** The horizontal and the vertical windows of four cells, by coordinates. *)
Definition horizontal_windows (b : board) : list (list Z) :=
  r ← range ROW_COUNT; c ← range (COLUMN_COUNT - 3);
  [[cell b r c; cell b r (c+1); cell b r (c+2); cell b r (c+3)]].

Definition vertical_windows (b : board) : list (list Z) :=
  c ← range COLUMN_COUNT; r ← range (ROW_COUNT - 3);
  [[cell b r c; cell b (r+1) c; cell b (r+2) c; cell b (r+3) c]].

(** The cells of the middle column, top to bottom. *)
Definition middle_column (b : board) : list Z :=
  (fun r => cell b r (COLUMN_COUNT / 2)) <$> range ROW_COUNT.

(** C7.  [score_position] is three times the number of the token's cells in
    the middle column, plus [evaluate_window] summed over the horizontal
    windows and over the vertical windows; there is no term for a diagonal
    window. *)
Theorem score_position_formula (b : board) (piece : Z) :
  shape_ok b ->
  score_position b piece =
    count (middle_column b) piece * 3
    + sum_list ((fun w => evaluate_window w piece) <$> horizontal_windows b)
    + sum_list ((fun w => evaluate_window w piece) <$> vertical_windows b).
Proof.
  intros H. explode_board H.
  cbv -[evaluate_window count Z.add Z.mul].
  lia.
Qed.

Lemma score_position_formula_witness :
  score_position zeros_board AI_PIECE =
    count (middle_column zeros_board) AI_PIECE * 3
    + sum_list ((fun w => evaluate_window w AI_PIECE) <$> horizontal_windows zeros_board)
    + sum_list ((fun w => evaluate_window w AI_PIECE) <$> vertical_windows zeros_board).
Proof.
  apply (score_position_formula zeros_board AI_PIECE).
  split; [reflexivity|repeat constructor].
Defined.

(** ** Cells and stores *)

Lemma shape_ok_lookup (b : board) (r c : nat) :
  shape_ok b -> (r < ROW_COUNT)%nat -> (c < COLUMN_COUNT)%nat ->
  exists row, b !! r = Some row /\ row !! c = Some (cell b r c).
Proof.
  intros [Hlen Hrows] Hr Hc.
  destruct (lookup_lt_is_Some_2 b r) as [row Hrow]; [lia|].
  assert (length row = COLUMN_COUNT) as Hrl.
  { eapply (proj1 (Forall_lookup _ _) Hrows); eauto. }
  destruct (lookup_lt_is_Some_2 row c) as [v Hv]; [lia|].
  exists row. unfold cell. rewrite Hrow, Hv. done.
Qed.

Lemma cell_set_cell_eq (b : board) (r c : nat) (v : Z) :
  shape_ok b -> (r < ROW_COUNT)%nat -> (c < COLUMN_COUNT)%nat ->
  cell (set_cell b r c v) r c = v.
Proof.
  intros Hb Hr Hc.
  destruct (shape_ok_lookup b r c Hb Hr Hc) as (row & Hrow & Hv).
  unfold set_cell, cell. rewrite Hrow.
  rewrite list_lookup_insert_eq by (eapply lookup_lt_Some; eauto).
  rewrite list_lookup_insert_eq by (eapply lookup_lt_Some; eauto). done.
Qed.

Lemma cell_set_cell_ne (b : board) (r c r' c' : nat) (v : Z) :
  r <> r' \/ c <> c' ->
  cell (set_cell b r c v) r' c' = cell b r' c'.
Proof.
  intros Hne. unfold set_cell. destruct (b !! r) as [row|] eqn:Hrow; [|done].
  unfold cell. destruct (decide (r = r')) as [<-|Hr].
  - rewrite list_lookup_insert_eq by (eapply lookup_lt_Some; eauto).
    rewrite Hrow. rewrite list_lookup_insert_ne by tauto. done.
  - rewrite list_lookup_insert_ne by done. done.
Qed.

Lemma shape_ok_set_cell (b : board) (r c : nat) (v : Z) :
  shape_ok b -> shape_ok (set_cell b r c v).
Proof.
  intros [Hlen Hrows]. unfold set_cell.
  destruct (b !! r) as [row|] eqn:Hrow; [|done].
  split; [by rewrite length_insert|].
  apply Forall_insert; [done|]. rewrite length_insert.
  eapply (proj1 (Forall_lookup _ _) Hrows); eauto.
Qed.

Lemma np_index_lt (n : nat) (i : Z) (k : nat) :
  np_index n i = Some k -> (k < n)%nat.
Proof.
  unfold np_index.
  destruct ((0 <=? i) && (i <? Z.of_nat n)) eqn:E1.
  - intros [= <-]. lia.
  - destruct ((- Z.of_nat n <=? i) && (i <? 0)) eqn:E2; [|done].
    intros [= <-]. lia.
Qed.

Lemma np_index_of_nat (n k : nat) :
  (k < n)%nat -> np_index n (Z.of_nat k) = Some k.
Proof.
  intros Hk. unfold np_index.
  replace ((0 <=? Z.of_nat k) && (Z.of_nat k <? Z.of_nat n)) with true
    by (symmetry; apply andb_true_iff; lia).
  by rewrite Nat2Z.id.
Qed.

Lemma np_index_range (n : nat) (i : Z) :
  0 <= i < Z.of_nat n -> np_index n i = Some (Z.to_nat i).
Proof.
  intros Hi. unfold np_index.
  replace ((0 <=? i) && (i <? Z.of_nat n)) with true
    by (symmetry; apply andb_true_iff; lia).
  done.
Qed.

(** ** The lowest empty row *)

Lemma rev_range_S (n : nat) : rev (range (S n)) = n :: rev (range n).
Proof. unfold range. rewrite seq_S, rev_app_distr. done. Qed.

Lemma find_last_Some (p : nat -> bool) (n r : nat) :
  List.find p (rev (range n)) = Some r ->
  (r < n)%nat /\ p r = true /\ forall r', (r < r' < n)%nat -> p r' = false.
Proof.
  induction n as [|n IH]; [done|].
  rewrite rev_range_S. simpl. destruct (p n) eqn:Hp.
  - intros [= <-]. repeat split; [lia|done|]. intros; lia.
  - intros H. destruct (IH H) as (Hr & Hpr & Hab).
    repeat split; [lia|done|]. intros r' Hr'.
    destruct (decide (r' = n)) as [->|]; [done|]. apply Hab. lia.
Qed.

Lemma find_last_is_Some (p : nat -> bool) (n r : nat) :
  (r < n)%nat -> p r = true -> is_Some (List.find p (rev (range n))).
Proof.
  induction n as [|n IH]; [lia|]. intros Hr Hp.
  rewrite rev_range_S. simpl. destruct (p n) eqn:Hpn; [eauto|].
  apply IH; [|done]. destruct (decide (r = n)) as [->|]; [congruence|lia].
Qed.

(** On a column whose top cell is empty [get_next_open_row] finds a row:
    an empty cell with no empty cell below it. *)
Lemma get_next_open_row_valid (b : board) (col : Z) :
  is_valid_location b col = Some true ->
  exists c r, np_index COLUMN_COUNT col = Some c /\
    get_next_open_row b col = Some (Some (Z.of_nat r)) /\
    (r < ROW_COUNT)%nat /\ cell b r c = 0 /\
    forall r', (r < r' < ROW_COUNT)%nat -> cell b r' c <> 0.
Proof.
  unfold is_valid_location, get_next_open_row.
  destruct (np_index COLUMN_COUNT col) as [c|] eqn:Hc; [|done].
  cbn -[range rev List.find]. intros [= Htop]. exists c.
  destruct (find_last_is_Some (fun r => cell b r c =? 0) ROW_COUNT 0)
    as [r Hr]; [unfold ROW_COUNT; lia|done|].
  exists r. rewrite Hr. cbn -[range rev List.find].
  apply find_last_Some in Hr as (Hlt & Hz & Hbelow).
  repeat split; [done|lia|].
  intros r' Hr'. apply Hbelow in Hr'. lia.
Qed.

(** ** Engine actions *)

Lemma bind_eq {A B : Type} (m : M A) (k : A -> M B) (st : engine) :
  (m ≫= k) st = match m st with Some (a, st') => k a st' | None => None end.
Proof. reflexivity. Qed.

Lemma ret_eq {A : Type} (a : A) (st : engine) : mret (M := M) a st = Some (a, st).
Proof. reflexivity. Qed.

Lemma the_board_eq (st : engine) (b : board) :
  board_of st = Some b -> the_board st = Some (b, st).
Proof. unfold the_board. by intros ->. Qed.

Lemma next_open_row_eq (st : engine) (b : board) (col row : Z) :
  board_of st = Some b -> get_next_open_row b col = Some (Some row) ->
  next_open_row col st = Some (row, st).
Proof.
  intros Hb Hrow. unfold next_open_row.
  rewrite bind_eq, (the_board_eq _ _ Hb), Hrow. reflexivity.
Qed.

Lemma board_of_put_board (st : engine) (b b' : board) :
  board_of st = Some b -> board_of (put_board st b') = Some b'.
Proof.
  unfold board_of, put_board. simpl. intros H.
  apply list_lookup_insert_eq. eapply lookup_lt_Some; eauto.
Qed.

Lemma setitem_ok (b : board) (row col v : Z) (r c : nat) :
  np_index ROW_COUNT row = Some r -> np_index COLUMN_COUNT col = Some c ->
  fits_cell v = true -> setitem b row col v = Some (set_cell b r c v).
Proof. unfold setitem. intros -> -> Hv. simpl. by rewrite Hv. Qed.

Lemma board_setitem_ok (st : engine) (b : board) (row col v : Z) (r c : nat) :
  board_of st = Some b ->
  np_index ROW_COUNT row = Some r -> np_index COLUMN_COUNT col = Some c ->
  fits_cell v = true ->
  board_setitem row col v st = Some (tt, put_board st (set_cell b r c v)).
Proof.
  intros Hb Hr Hc Hv. unfold board_setitem.
  by rewrite Hb, (setitem_ok b row col v r c).
Qed.

(** ** The privileged mutator *)

Lemma in_grid_test (row col : Z) :
  (0 <=? row) && (row <? Z.of_nat ROW_COUNT) &&
  ((0 <=? col) && (col <? Z.of_nat COLUMN_COUNT)) = true <-> in_grid row col.
Proof. unfold in_grid. rewrite !andb_true_iff. lia. Qed.

(** The grid [b'] is the grid [b] with the cell [(row, col)] holding [v]. *)
Definition written (b b' : board) (row col v : Z) : Prop :=
  cell b' (Z.to_nat row) (Z.to_nat col) = v /\
  forall r c, r <> Z.to_nat row \/ c <> Z.to_nat col -> cell b' r c = cell b r c.

Lemma written_set_cell (b : board) (row col v : Z) :
  shape_ok b -> in_grid row col ->
  written b (set_cell b (Z.to_nat row) (Z.to_nat col) v) row col v.
Proof.
  intros Hb [Hr Hc]. split.
  - apply cell_set_cell_eq; [done|lia|lia].
  - intros r c Hne. apply cell_set_cell_ne. destruct Hne; [left|right]; congruence.
Qed.

(** C8.  Outside the grid [force_place_token] and [remove_token] answer
    false and leave the engine, hence every cell, as it was.  Inside the
    grid [force_place_token] answers true and stores the token in the cell,
    whatever the column holds, and [remove_token] answers true and stores
    [EMPTY]; no other cell changes. *)
Theorem god_mode_bounds (st : engine) (b : board) (row col piece : Z) :
  board_of st = Some b -> shape_ok b ->
  (~ in_grid row col ->
     force_place_token row col piece st = Some (false, st) /\
     remove_token row col st = Some (false, st)) /\
  (in_grid row col -> fits_cell piece = true ->
     exists st' b', force_place_token row col piece st = Some (true, st') /\
       board_of st' = Some b' /\ written b b' row col piece) /\
  (in_grid row col ->
     exists st' b', remove_token row col st = Some (true, st') /\
       board_of st' = Some b' /\ written b b' row col EMPTY).
Proof.
  intros Hst Hb. unfold force_place_token, remove_token.
  pose proof (in_grid_test row col) as Htest.
  destruct ((0 <=? row) && (row <? Z.of_nat ROW_COUNT) &&
            ((0 <=? col) && (col <? Z.of_nat COLUMN_COUNT))).
  - assert (in_grid row col) as Hin by tauto. clear Htest.
    split; [tauto|].
    assert (forall v, fits_cell v = true ->
      exists st' b', (_ ← board_setitem row col v; mret true) st = Some (true, st') /\
        board_of st' = Some b' /\ written b b' row col v) as Hstore.
    { intros v Hv. destruct Hin as [Hr Hc].
      eexists _, _. rewrite bind_eq.
      erewrite board_setitem_ok;
        [|done|by apply np_index_range|by apply np_index_range|done].
      split; [reflexivity|]. split; [by eapply board_of_put_board|].
      by apply written_set_cell. }
    split; [intros _; apply Hstore|intros _; by apply Hstore].
  - split; [done|]. split; intros Hin; apply Htest in Hin; done.
Qed.

Lemma god_mode_bounds_witness :
  (force_place_token 6 (-1) AI_PIECE (new_engine (fun _ => 0%nat))
     = Some (false, new_engine (fun _ => 0%nat)) /\
   remove_token 6 (-1) (new_engine (fun _ => 0%nat))
     = Some (false, new_engine (fun _ => 0%nat))) /\
  (exists st' b',
     force_place_token 0 6 AI_PIECE (new_engine (fun _ => 0%nat)) = Some (true, st') /\
     board_of st' = Some b' /\ written zeros_board b' 0 6 AI_PIECE).
Proof.
  split.
  - apply (god_mode_bounds (new_engine (fun _ => 0%nat)) zeros_board 6 (-1) AI_PIECE);
      [reflexivity|split; [reflexivity|repeat constructor]|].
    unfold in_grid, ROW_COUNT, COLUMN_COUNT; lia.
  - apply (god_mode_bounds (new_engine (fun _ => 0%nat)) zeros_board 0 6 AI_PIECE);
      [reflexivity|split; [reflexivity|repeat constructor]| |reflexivity].
    unfold in_grid, ROW_COUNT, COLUMN_COUNT; lia.
Defined.

(** ** Gravity *)

(** No floating token: a non-empty cell above the bottom row rests on a
    non-empty cell. *)
Definition gravity (b : board) : Prop :=
  forall r c, (r < ROW_COUNT - 1)%nat -> (c < COLUMN_COUNT)%nat ->
    cell b r c <> EMPTY -> cell b (r + 1) c <> EMPTY.

(** A sequence of rule-driven drops, each a column and a token. *)
Fixpoint play (drops : list (Z * Z)) : M unit :=
  match drops with
  | [] => mret tt
  | (col, piece) :: rest => _ ← rule_drop col piece; play rest
  end.

Lemma gravity_zeros : gravity zeros_board.
Proof.
  intros r c Hr Hc H. exfalso. apply H. unfold ROW_COUNT, COLUMN_COUNT in *.
  do 5 (destruct r as [|r]; [do 7 (destruct c as [|c]; [reflexivity|]); lia|]).
  lia.
Qed.

(** Storing at the lowest empty cell of a column keeps gravity. *)
Lemma gravity_set_cell (b : board) (r c : nat) (v : Z) :
  gravity b ->
  cell b r c = 0 ->
  (forall r', (r < r' < ROW_COUNT)%nat -> cell b r' c <> 0) ->
  gravity (set_cell b r c v).
Proof.
  intros Hg Hz Hbelow r1 c1 Hr1 Hc1 Hne. unfold EMPTY in *.
  destruct (decide (r1 + 1 = r /\ c1 = c)%nat) as [[<- <-]|Hup].
  - (* the cell above the stored one was empty: it cannot be non-empty now *)
    rewrite cell_set_cell_ne in Hne by lia.
    specialize (Hg r1 c1 Hr1 Hc1 Hne). unfold EMPTY in Hg. congruence.
  - rewrite cell_set_cell_ne by lia.
    destruct (decide (r1 = r /\ c1 = c)) as [[-> ->]|Hat].
    + apply Hbelow. unfold ROW_COUNT in *. lia.
    + rewrite cell_set_cell_ne in Hne by lia. by apply Hg.
Qed.

(** What a rule-driven drop does to the grid. *)
Lemma rule_drop_inv (col piece : Z) (st st' : engine) (b : board) :
  board_of st = Some b ->
  rule_drop col piece st = Some (tt, st') ->
  exists c r, np_index COLUMN_COUNT col = Some c /\ (r < ROW_COUNT)%nat /\
    cell b r c = 0 /\
    (forall r', (r < r' < ROW_COUNT)%nat -> cell b r' c <> 0) /\
    st' = put_board st (set_cell b r c piece).
Proof.
  intros Hb. unfold rule_drop. rewrite bind_eq, (the_board_eq _ _ Hb).
  destruct (is_valid_location b col) as [[|]|] eqn:Hvalid; try done.
  apply get_next_open_row_valid in Hvalid as (c & r & Hc & Hrow & Hr & Hz & Hbelow).
  rewrite bind_eq, (next_open_row_eq _ _ _ _ Hb Hrow).
  unfold drop_piece, board_setitem. rewrite Hb.
  unfold setitem. rewrite (np_index_of_nat _ _ Hr), Hc. simpl.
  destruct (fits_cell piece); [|done]. intros [= <-]. eauto 10.
Qed.

(** A rule-driven drop into a valid column returns. *)
Lemma rule_drop_returns (col piece : Z) (st : engine) (b : board) :
  board_of st = Some b -> is_valid_location b col = Some true ->
  fits_cell piece = true ->
  exists st', rule_drop col piece st = Some (tt, st').
Proof.
  intros Hb Hvalid Hfit. unfold rule_drop.
  rewrite bind_eq, (the_board_eq _ _ Hb), Hvalid.
  apply get_next_open_row_valid in Hvalid as (c & r & Hc & Hrow & Hr & _).
  rewrite bind_eq, (next_open_row_eq _ _ _ _ Hb Hrow). unfold drop_piece.
  erewrite board_setitem_ok; [eauto|done|by apply np_index_of_nat|done|done].
Qed.

Lemma play_gravity (drops : list (Z * Z)) (st st' : engine) (b : board) :
  board_of st = Some b -> shape_ok b -> gravity b ->
  play drops st = Some (tt, st') ->
  exists b', board_of st' = Some b' /\ shape_ok b' /\ gravity b'.
Proof.
  revert st b. induction drops as [|[col piece] drops IH]; intros st b Hb Hs Hg.
  - intros [= <-]. eauto.
  - simpl. rewrite bind_eq.
    destruct (rule_drop col piece st) as [[[] st1]|] eqn:Hdrop; [|done].
    destruct (rule_drop_inv _ _ _ _ _ Hb Hdrop) as (c & r & Hc & Hr & Hz & Hbelow & ->).
    apply IH with (b := set_cell b r c piece).
    + by eapply board_of_put_board.
    + by apply shape_ok_set_cell.
    + by apply gravity_set_cell.
Qed.

(** C5.  After any sequence of rule-driven drops into the grid of a new
    engine, every non-empty cell above the bottom row has a non-empty cell
    right below it. *)
Theorem gravity_invariant (g : nat -> nat) (drops : list (Z * Z)) (st : engine) :
  play drops (new_engine g) = Some (tt, st) ->
  exists b, board_of st = Some b /\ gravity b.
Proof.
  intros Hplay.
  destruct (play_gravity drops (new_engine g) st zeros_board) as (b & Hb & _ & Hg);
    [reflexivity|apply shape_ok_zeros|apply gravity_zeros|done|eauto].
Qed.

Lemma gravity_invariant_witness :
  exists st b,
    play [(3, PLAYER_PIECE); (3, AI_PIECE); (-1, PLAYER_PIECE); (0, AI_PIECE)]
      (new_engine (fun _ => 0%nat)) = Some (tt, st) /\
    board_of st = Some b /\ gravity b.
Proof.
  eexists.
  destruct (gravity_invariant (fun _ => 0%nat)
    [(3, PLAYER_PIECE); (3, AI_PIECE); (-1, PLAYER_PIECE); (0, AI_PIECE)] _ eq_refl)
    as (b & Hb & Hg).
  exists b. split; [reflexivity|]. split; [exact Hb|exact Hg].
Defined.

(** ** Valid columns *)

Lemma is_valid_location_of_nat (b : board) (c : nat) :
  (c < COLUMN_COUNT)%nat ->
  is_valid_location b (Z.of_nat c) = Some (cell b 0 c =? 0).
Proof. intros Hc. unfold is_valid_location. by rewrite np_index_of_nat. Qed.

Lemma get_valid_locations_filter (b : board) :
  get_valid_locations b =
    map Z.of_nat (List.filter (fun c => cell b 0 c =? 0) (range COLUMN_COUNT)).
Proof.
  unfold get_valid_locations.
  assert (forall l acc, Forall (fun c => c < COLUMN_COUNT)%nat l ->
    foldl (fun valid_locations col =>
      match is_valid_location b (Z.of_nat col) with
      | Some true => valid_locations ++ [Z.of_nat col]
      | Some false | None => valid_locations
      end) acc l
    = acc ++ map Z.of_nat (List.filter (fun c => cell b 0 c =? 0) l)) as Hgen.
  { induction l as [|c l IH]; intros acc Hl; simpl.
    - by rewrite app_nil_r.
    - apply Forall_cons in Hl as [Hc Hl].
      rewrite is_valid_location_of_nat by done.
      destruct (cell b 0 c =? 0); rewrite IH by done; [|done].
      by rewrite <- app_assoc. }
  rewrite Hgen; [done|]. apply Forall_forall. intros c Hc.
  apply list_elem_of_In, in_range in Hc. done.
Qed.

Lemma in_get_valid_locations (b : board) (col : Z) :
  In col (get_valid_locations b) <->
  exists c, (c < COLUMN_COUNT)%nat /\ col = Z.of_nat c /\ cell b 0 c = 0.
Proof.
  rewrite get_valid_locations_filter, in_map_iff. split.
  - intros (c & <- & Hc). apply filter_In in Hc as [Hc Hz].
    apply in_range in Hc. exists c. repeat split; [done|lia].
  - intros (c & Hc & -> & Hz). exists c. split; [done|].
    apply filter_In. split; [by apply in_range|lia].
Qed.

Lemma valid_location_valid (b : board) (col : Z) :
  In col (get_valid_locations b) ->
  is_valid_location b col = Some true /\ 0 <= col < Z.of_nat COLUMN_COUNT.
Proof.
  intros (c & Hc & -> & Hz)%in_get_valid_locations.
  rewrite is_valid_location_of_nat by done. split; [|lia].
  f_equal. lia.
Qed.

(** ** Empty cells: the measure of the search *)

Fixpoint row_empties (l : list Z) : nat :=
  match l with
  | [] => 0
  | v :: l' => (if v =? 0 then 1 else 0) + row_empties l'
  end.

Fixpoint empties (b : board) : nat :=
  match b with
  | [] => 0
  | row :: b' => row_empties row + empties b'
  end.

Lemma row_empties_insert (l : list Z) (c : nat) (v : Z) :
  l !! c = Some 0 -> v <> 0 -> S (row_empties (<[c := v]> l)) = row_empties l.
Proof.
  revert c. induction l as [|x l IH]; intros [|c] Hc Hv; simpl in *; try done.
  - injection Hc as ->. destruct (Z.eqb_spec v 0); [done|]. simpl. lia.
  - rewrite <- (IH c) by done. lia.
Qed.

Lemma empties_insert (b : board) (r : nat) (row row' : list Z) :
  b !! r = Some row -> S (row_empties row') = row_empties row ->
  S (empties (<[r := row']> b)) = empties b.
Proof.
  revert r. induction b as [|x b IH]; intros [|r] Hr Hrow; simpl in *; try done.
  - injection Hr as ->. lia.
  - rewrite <- (IH r) by done. lia.
Qed.

Lemma empties_set_cell (b : board) (r c : nat) (v : Z) :
  shape_ok b -> (r < ROW_COUNT)%nat -> (c < COLUMN_COUNT)%nat ->
  cell b r c = 0 -> v <> 0 ->
  S (empties (set_cell b r c v)) = empties b.
Proof.
  intros Hb Hr Hc Hz Hv.
  destruct (shape_ok_lookup b r c Hb Hr Hc) as (row & Hrow & Hcell).
  unfold set_cell. rewrite Hrow. eapply empties_insert; [done|].
  apply row_empties_insert; [|done]. by rewrite Hcell, Hz.
Qed.

(** ** The position after a speculative move *)

Definition child (b : board) (col piece : Z) : board :=
  match get_next_open_row b col with
  | Some (Some row) => default b (setitem b row col piece)
  | _ => b
  end.

Lemma child_valid (b : board) (col piece : Z) :
  shape_ok b -> In col (get_valid_locations b) ->
  fits_cell piece = true -> piece <> 0 ->
  exists row, get_next_open_row b col = Some (Some row) /\
    setitem b row col piece = Some (child b col piece) /\
    shape_ok (child b col piece) /\
    S (empties (child b col piece)) = empties b.
Proof.
  intros Hb Hcol Hfit Hpiece.
  destruct (valid_location_valid b col Hcol) as [Hvalid _].
  apply get_next_open_row_valid in Hvalid as (c & r & Hc & Hrow & Hr & Hz & _).
  exists (Z.of_nat r). unfold child. rewrite Hrow.
  rewrite (setitem_ok b _ col piece r c); [|by apply np_index_of_nat|done|done].
  simpl. split; [done|]. split; [done|]. split; [by apply shape_ok_set_cell|].
  apply empties_set_cell; [done|done|by eapply np_index_lt|done|done].
Qed.

(** ** The mutate and undo discipline *)

(** What an action may do to the store: allocate, and write to the object
    [self.board] referred to when it started.  Every other object that
    existed keeps its contents. *)
Definition frame (st st' : engine) : Prop :=
  (length (heap st) <= length (heap st'))%nat /\
  forall a, (a < length (heap st))%nat -> a <> self_board st ->
    heap st' !! a = heap st !! a.

Lemma frame_refl (st : engine) : frame st st.
Proof. split; [lia|done]. Qed.

(** A step that rebinds [self.board] to a fresh object, followed by more
    work on that object. *)
Lemma frame_fresh (st st1 st2 : engine) :
  frame st st1 -> (length (heap st) <= self_board st1)%nat -> frame st1 st2 ->
  frame st st2.
Proof.
  intros [Hlen1 Hsame1] Hfresh [Hlen2 Hsame2]. split; [lia|].
  intros a Ha Hne. rewrite Hsame2 by lia. by apply Hsame1.
Qed.

(** One speculative move: find the row, copy the grid, drop the token, run
    the search [rec] on the mutated grid, rebind [self.board] to the copy.
    Whatever [rec] allocates or rebinds, the grid is afterwards the one from
    before the move, in a fresh object. *)
Lemma speculate {T : Type} (piece : Z) (rec : M (option Z * ext)) (col : Z)
    (K : option Z * ext -> M T) (st : engine) (b : board) (v : ext) :
  board_of st = Some b -> shape_ok b -> In col (get_valid_locations b) ->
  fits_cell piece = true -> piece <> 0 ->
  (forall st2, board_of st2 = Some (child b col piece) ->
     exists r st3, rec st2 = Some (r, st3) /\ r.2 = v /\
       board_of st3 = Some (child b col piece) /\ frame st2 st3) ->
  exists r st4,
    (row ← next_open_row col; b_copy ← board_copy;
     _ ← board_setitem row col piece; r ← rec; _ ← rebind b_copy; K r) st
      = K r st4 /\
    r.2 = v /\ board_of st4 = Some b /\ frame st st4 /\
    (length (heap st) <= self_board st4)%nat.
Proof.
  intros Hb Hshape Hcol Hfit Hpiece Hrec.
  destruct (child_valid b col piece Hshape Hcol Hfit Hpiece)
    as (row & Hrow & Hset & _ & _).
  assert (self_board st < length (heap st))%nat as Hp
    by (eapply lookup_lt_Some; exact Hb).
  set (st1 := {| heap := heap st ++ [b]; self_board := self_board st; rng := rng st |}).
  assert (board_of st1 = Some b) as Hb1.
  { unfold board_of, st1. simpl. rewrite lookup_app_l by done. exact Hb. }
  set (st2 := put_board st1 (child b col piece)).
  assert (board_of st2 = Some (child b col piece)) as Hb2
    by (by eapply board_of_put_board).
  destruct (Hrec st2 Hb2) as (r & st3 & Hr & Hv & Hb3 & Hlen3 & Hsame3).
  exists r, {| heap := heap st3; self_board := length (heap st); rng := rng st3 |}.
  assert (length (heap st2) = S (length (heap st))) as Hlen2.
  { unfold st2, put_board, st1. simpl. rewrite length_insert, length_app. simpl. lia. }
  assert (heap st3 !! length (heap st) = Some b) as Hcopy.
  { rewrite Hsame3; [|lia|unfold st2, put_board, st1; simpl; lia].
    unfold st2, put_board, st1. simpl.
    rewrite list_lookup_insert_ne by lia.
    rewrite lookup_app_r by lia. by rewrite Nat.sub_diag. }
  split.
  - rewrite bind_eq, (next_open_row_eq _ _ _ _ Hb Hrow).
    rewrite bind_eq. unfold board_copy at 1. rewrite Hb. fold st1.
    rewrite bind_eq. unfold board_setitem at 1. rewrite Hb1, Hset. fold st2.
    rewrite bind_eq, Hr. rewrite bind_eq. reflexivity.
  - split; [done|]. split; [exact Hcopy|]. split; [|simpl; lia].
    split; [simpl; lia|]. simpl. intros a Ha Hne.
    rewrite Hsame3; [|lia|unfold st2, put_board, st1; simpl; lia].
    unfold st2, put_board, st1. simpl.
    rewrite list_lookup_insert_ne by lia. by rewrite lookup_app_l.
Qed.

(** ** Positions that are not terminal *)

Lemma non_terminal_valid (b : board) :
  is_terminal_node b = false ->
  get_valid_locations b <> [] /\
  winning_move b PLAYER_PIECE = false /\ winning_move b AI_PIECE = false.
Proof.
  unfold is_terminal_node. rewrite !orb_false_iff, Nat.eqb_neq.
  intros [[? ?] Hlen]. split; [|done]. intros Heq. by rewrite Heq in Hlen.
Qed.

Lemma random_choice_ok (l : list Z) (st : engine) :
  l <> [] ->
  exists x st', random_choice l st = Some (x, st') /\
    heap st' = heap st /\ self_board st' = self_board st.
Proof.
  intros Hl. unfold random_choice.
  destruct (lookup_lt_is_Some_2 l (rng st 0%nat mod length l)%nat) as [x ->].
  { apply Nat.mod_upper_bound. by destruct l. }
  eauto.
Qed.

(** ** The search as a function of the position

    The value and the column the search computes, read off the grid alone:
    no store, no random draw (the seed of the best column is an argument).
    [n] counts the plies that can still be played; the search on a grid [b]
    is described by [ab (S (empties b))]. *)

Section Pure.

Variable leaf_score : board -> Z.

(** The score of a position where the search stops. *)
Definition stop_value (b : board) : ext :=
  if is_terminal_node b then
    if winning_move b AI_PIECE then Fin 100000000000000
    else if winning_move b PLAYER_PIECE then Fin (-10000000000000)
    else Fin 0
  else Fin (leaf_score b).

Fixpoint ab_max (f : board -> ext -> ext -> ext) (b : board) (cols : list Z)
    (value : ext) (column : Z) (alpha beta : ext) : Z * ext :=
  match cols with
  | [] => (column, value)
  | col :: rest =>
      let new_score := f (child b col AI_PIECE) alpha beta in
      let '(value, column) :=
        if ext_ltb value new_score then (new_score, col) else (value, column) in
      let alpha := ext_max alpha value in
      if ext_leb beta alpha then (column, value)
      else ab_max f b rest value column alpha beta
  end.

Fixpoint ab_min (f : board -> ext -> ext -> ext) (b : board) (cols : list Z)
    (value : ext) (column : Z) (alpha beta : ext) : Z * ext :=
  match cols with
  | [] => (column, value)
  | col :: rest =>
      let new_score := f (child b col PLAYER_PIECE) alpha beta in
      let '(value, column) :=
        if ext_ltb new_score value then (new_score, col) else (value, column) in
      let beta := ext_min beta value in
      if ext_leb beta alpha then (column, value)
      else ab_min f b rest value column alpha beta
  end.

Fixpoint ab (n : nat) (depth : Z) (alpha beta : ext) (maximizingPlayer : bool)
    (b : board) (seed : Z) : option Z * ext :=
  match n with
  | O => (None, stop_value b)
  | S n' =>
      if (depth =? 0) || is_terminal_node b then (None, stop_value b)
      else if maximizingPlayer then
        let r := ab_max (fun b' alpha beta => (ab n' (depth - 1) alpha beta false b' 0).2)
                   b (get_valid_locations b) NInf seed alpha beta in
        (Some r.1, r.2)
      else
        let r := ab_min (fun b' alpha beta => (ab n' (depth - 1) alpha beta true b' 0).2)
                   b (get_valid_locations b) PInf seed alpha beta in
        (Some r.1, r.2)
  end.

Fixpoint mm_max (f : board -> ext) (b : board) (cols : list Z)
    (value : ext) (column : Z) : Z * ext :=
  match cols with
  | [] => (column, value)
  | col :: rest =>
      let new_score := f (child b col AI_PIECE) in
      let '(value, column) :=
        if ext_ltb value new_score then (new_score, col) else (value, column) in
      mm_max f b rest value column
  end.

Fixpoint mm_min (f : board -> ext) (b : board) (cols : list Z)
    (value : ext) (column : Z) : Z * ext :=
  match cols with
  | [] => (column, value)
  | col :: rest =>
      let new_score := f (child b col PLAYER_PIECE) in
      let '(value, column) :=
        if ext_ltb new_score value then (new_score, col) else (value, column) in
      mm_min f b rest value column
  end.

Fixpoint mm (n : nat) (depth : Z) (maximizingPlayer : bool)
    (b : board) (seed : Z) : option Z * ext :=
  match n with
  | O => (None, stop_value b)
  | S n' =>
      if (depth =? 0) || is_terminal_node b then (None, stop_value b)
      else if maximizingPlayer then
        let r := mm_max (fun b' => (mm n' (depth - 1) false b' 0).2)
                   b (get_valid_locations b) NInf seed in
        (Some r.1, r.2)
      else
        let r := mm_min (fun b' => (mm n' (depth - 1) true b' 0).2)
                   b (get_valid_locations b) PInf seed in
        (Some r.1, r.2)
  end.

(** *** The store-passing loops compute the functions above *)

(** What the recursive call is known to do on the child positions. *)
Definition rec_computes (rec : M (option Z * ext)) (b' : board) (v : ext) : Prop :=
  forall st, board_of st = Some b' ->
    exists r st', rec st = Some (r, st') /\ r.2 = v /\
      board_of st' = Some b' /\ frame st st'.

(** One iteration of a loop: the speculative move is [speculate], then the
    comparison is decided and the rest of the loop is the induction
    hypothesis [IH]. *)
Ltac loop_step piece rec col IH Hb Hshape Hvalid Hrec :=
  let Heq := fresh "Heq" in
  edestruct (speculate (T := Z * ext) piece rec col)
    as (?r & ?st4 & Heq & ?Hr & ?Hb4 & ?Hfr & ?Hfresh);
    [exact Hb|exact Hshape|apply Hvalid; by left|reflexivity|done|
     apply Hrec; by left|];
  rewrite Heq; clear Heq;
  match goal with Hr : _.2 = _ |- _ => rewrite Hr end;
  repeat match goal with
  | |- context [if ?c then _ else _] => destruct c
  end;
  try (eexists; split; [reflexivity|]; split; done);
  (edestruct IH as (?st' & -> & ?Hb' & ?Hfr');
    [intros; apply Hvalid; by right|intros; apply Hrec; by right|eassumption|];
   eexists; split; [reflexivity|]; split; [done|by eapply frame_fresh]).

Lemma max_loop_pure (rec : ext -> ext -> M (option Z * ext))
    (f : board -> ext -> ext -> ext) (b : board) (cols : list Z) :
  shape_ok b ->
  (forall col, In col cols -> In col (get_valid_locations b)) ->
  (forall col alpha beta, In col cols ->
     rec_computes (rec alpha beta) (child b col AI_PIECE)
       (f (child b col AI_PIECE) alpha beta)) ->
  forall value column alpha beta st, board_of st = Some b ->
    exists st', max_loop rec cols value column alpha beta st
        = Some (ab_max f b cols value column alpha beta, st') /\
      board_of st' = Some b /\ frame st st'.
Proof.
  intros Hshape. induction cols as [|col rest IH];
    intros Hvalid Hrec value column alpha beta st Hb.
  - exists st. split; [reflexivity|]. split; [done|apply frame_refl].
  - cbn [max_loop ab_max].
    loop_step AI_PIECE (rec alpha beta) col IH Hb Hshape Hvalid Hrec.
Qed.

Lemma min_loop_pure (rec : ext -> ext -> M (option Z * ext))
    (f : board -> ext -> ext -> ext) (b : board) (cols : list Z) :
  shape_ok b ->
  (forall col, In col cols -> In col (get_valid_locations b)) ->
  (forall col alpha beta, In col cols ->
     rec_computes (rec alpha beta) (child b col PLAYER_PIECE)
       (f (child b col PLAYER_PIECE) alpha beta)) ->
  forall value column alpha beta st, board_of st = Some b ->
    exists st', min_loop rec cols value column alpha beta st
        = Some (ab_min f b cols value column alpha beta, st') /\
      board_of st' = Some b /\ frame st st'.
Proof.
  intros Hshape. induction cols as [|col rest IH];
    intros Hvalid Hrec value column alpha beta st Hb.
  - exists st. split; [reflexivity|]. split; [done|apply frame_refl].
  - cbn [min_loop ab_min].
    loop_step PLAYER_PIECE (rec alpha beta) col IH Hb Hshape Hvalid Hrec.
Qed.

Lemma full_max_loop_pure (rec : M (option Z * ext))
    (f : board -> ext) (b : board) (cols : list Z) :
  shape_ok b ->
  (forall col, In col cols -> In col (get_valid_locations b)) ->
  (forall col, In col cols ->
     rec_computes rec (child b col AI_PIECE) (f (child b col AI_PIECE))) ->
  forall value column st, board_of st = Some b ->
    exists st', full_max_loop rec cols value column st
        = Some (mm_max f b cols value column, st') /\
      board_of st' = Some b /\ frame st st'.
Proof.
  intros Hshape. induction cols as [|col rest IH];
    intros Hvalid Hrec value column st Hb.
  - exists st. split; [reflexivity|]. split; [done|apply frame_refl].
  - cbn [full_max_loop mm_max].
    loop_step AI_PIECE rec col IH Hb Hshape Hvalid Hrec.
Qed.

Lemma full_min_loop_pure (rec : M (option Z * ext))
    (f : board -> ext) (b : board) (cols : list Z) :
  shape_ok b ->
  (forall col, In col cols -> In col (get_valid_locations b)) ->
  (forall col, In col cols ->
     rec_computes rec (child b col PLAYER_PIECE) (f (child b col PLAYER_PIECE))) ->
  forall value column st, board_of st = Some b ->
    exists st', full_min_loop rec cols value column st
        = Some (mm_min f b cols value column, st') /\
      board_of st' = Some b /\ frame st st'.
Proof.
  intros Hshape. induction cols as [|col rest IH];
    intros Hvalid Hrec value column st Hb.
  - exists st. split; [reflexivity|]. split; [done|apply frame_refl].
  - cbn [full_min_loop mm_min].
    loop_step PLAYER_PIECE rec col IH Hb Hshape Hvalid Hrec.
Qed.

(** The score does not depend on the seed of the best column. *)
Lemma ab_max_snd_column f b cols value column column' alpha beta :
  (ab_max f b cols value column alpha beta).2
  = (ab_max f b cols value column' alpha beta).2.
Proof.
  revert value column column' alpha. induction cols as [|col rest IH];
    intros value column column' alpha; cbn [ab_max]; [done|].
  destruct (ext_ltb value _); destruct (ext_leb beta _); try done; apply IH.
Qed.

Lemma ab_min_snd_column f b cols value column column' alpha beta :
  (ab_min f b cols value column alpha beta).2
  = (ab_min f b cols value column' alpha beta).2.
Proof.
  revert value column column' beta. induction cols as [|col rest IH];
    intros value column column' beta; cbn [ab_min]; [done|].
  destruct (ext_ltb _ value); destruct (ext_leb _ alpha); try done; apply IH.
Qed.

Lemma mm_max_snd_column f b cols value column column' :
  (mm_max f b cols value column).2 = (mm_max f b cols value column').2.
Proof.
  revert value column column'. induction cols as [|col rest IH];
    intros value column column'; cbn [mm_max]; [done|].
  destruct (ext_ltb value _); apply IH.
Qed.

Lemma mm_min_snd_column f b cols value column column' :
  (mm_min f b cols value column).2 = (mm_min f b cols value column').2.
Proof.
  revert value column column'. induction cols as [|col rest IH];
    intros value column column'; cbn [mm_min]; [done|].
  destruct (ext_ltb _ value); apply IH.
Qed.

Lemma ab_snd_seed n depth alpha beta m b seed seed' :
  (ab n depth alpha beta m b seed).2 = (ab n depth alpha beta m b seed').2.
Proof.
  destruct n; cbn [ab]; [done|].
  destruct ((depth =? 0) || is_terminal_node b); [done|].
  destruct m; cbn [snd]; [apply ab_max_snd_column|apply ab_min_snd_column].
Qed.

Lemma mm_snd_seed n depth m b seed seed' :
  (mm n depth m b seed).2 = (mm n depth m b seed').2.
Proof.
  destruct n; cbn [mm]; [done|].
  destruct ((depth =? 0) || is_terminal_node b); [done|].
  destruct m; cbn [snd]; [apply mm_max_snd_column|apply mm_min_snd_column].
Qed.

(** *** The search computes [ab], and the reference search [mm] *)

Lemma stop_eq (st : engine) (b : board) :
  (if is_terminal_node b then
     if winning_move b AI_PIECE then mret (None, Fin 100000000000000)
     else if winning_move b PLAYER_PIECE then mret (None, Fin (-10000000000000))
     else mret (None, Fin 0)
   else mret (M := M) (None, Fin (leaf_score b))) st
  = Some ((None : option Z, stop_value b), st).
Proof.
  unfold stop_value.
  destruct (is_terminal_node b); [|done].
  destruct (winning_move b AI_PIECE); [done|].
  destruct (winning_move b PLAYER_PIECE); done.
Qed.

Lemma minimax_with_pure (fuel : nat) :
  forall depth alpha beta m st b,
    board_of st = Some b -> shape_ok b -> (empties b < fuel)%nat ->
    exists st' seed,
      minimax_with leaf_score fuel depth alpha beta m st
        = Some (ab (S (empties b)) depth alpha beta m b seed, st') /\
      board_of st' = Some b /\ frame st st'.
Proof.
  induction fuel as [|fuel IH]; intros depth alpha beta m st b Hb Hshape Hfuel; [lia|].
  cbn [minimax_with ab]. rewrite bind_eq, (the_board_eq _ _ Hb).
  destruct ((depth =? 0) || is_terminal_node b) eqn:Hstop.
  { exists st, 0. rewrite stop_eq. split; [done|]. split; [done|apply frame_refl]. }
  destruct (non_terminal_valid b) as (Hne & _); [by apply orb_false_iff in Hstop as [_ ?]|].
  destruct (random_choice_ok (get_valid_locations b) st Hne)
    as (column & st1 & Hchoice & Hheap1 & Hself1).
  assert (board_of st1 = Some b) as Hb1 by (unfold board_of; by rewrite Hheap1, Hself1).
  assert (forall piece m' col alpha beta, In col (get_valid_locations b) ->
    fits_cell piece = true -> piece <> 0 ->
    rec_computes (minimax_with leaf_score fuel (depth - 1) alpha beta m')
      (child b col piece)
      ((ab (empties b) (depth - 1) alpha beta m' (child b col piece) 0).2)) as Hrec.
  { intros piece m' col a bt Hcol Hfit Hpiece st2 Hb2.
    destruct (child_valid b col piece Hshape Hcol Hfit Hpiece)
      as (_ & _ & _ & Hshape' & Hempties).
    destruct (IH (depth - 1) a bt m' st2 _ Hb2 Hshape' ltac:(lia))
      as (st3 & seed & Hrun & Hb3 & Hfr3).
    rewrite Hempties in Hrun.
    eexists _, st3. split; [exact Hrun|]. split; [apply ab_snd_seed|done]. }
  destruct m; rewrite bind_eq, Hchoice, bind_eq.
  - edestruct (max_loop_pure
      (fun alpha beta => minimax_with leaf_score fuel (depth - 1) alpha beta false)
      (fun b' alpha beta => (ab (empties b) (depth - 1) alpha beta false b' 0).2)
      b (get_valid_locations b) Hshape) as (st' & -> & Hb' & Hlen & Hsame);
      [done|intros; by apply Hrec|exact Hb1|].
    exists st', column. split; [reflexivity|]. split; [done|].
    split; [by rewrite <- Hheap1|]. intros a Ha Hne'.
    rewrite <- Hheap1. apply Hsame; [by rewrite Hheap1|by rewrite Hself1].
  - edestruct (min_loop_pure
      (fun alpha beta => minimax_with leaf_score fuel (depth - 1) alpha beta true)
      (fun b' alpha beta => (ab (empties b) (depth - 1) alpha beta true b' 0).2)
      b (get_valid_locations b) Hshape) as (st' & -> & Hb' & Hlen & Hsame);
      [done|intros; by apply Hrec|exact Hb1|].
    exists st', column. split; [reflexivity|]. split; [done|].
    split; [by rewrite <- Hheap1|]. intros a Ha Hne'.
    rewrite <- Hheap1. apply Hsame; [by rewrite Hheap1|by rewrite Hself1].
Qed.

Lemma full_minimax_with_pure (fuel : nat) :
  forall depth m st b,
    board_of st = Some b -> shape_ok b -> (empties b < fuel)%nat ->
    exists st' seed,
      full_minimax_with leaf_score fuel depth m st
        = Some (mm (S (empties b)) depth m b seed, st') /\
      board_of st' = Some b /\ frame st st'.
Proof.
  induction fuel as [|fuel IH]; intros depth m st b Hb Hshape Hfuel; [lia|].
  cbn [full_minimax_with mm]. rewrite bind_eq, (the_board_eq _ _ Hb).
  destruct ((depth =? 0) || is_terminal_node b) eqn:Hstop.
  { exists st, 0. rewrite stop_eq. split; [done|]. split; [done|apply frame_refl]. }
  destruct (non_terminal_valid b) as (Hne & _); [by apply orb_false_iff in Hstop as [_ ?]|].
  destruct (random_choice_ok (get_valid_locations b) st Hne)
    as (column & st1 & Hchoice & Hheap1 & Hself1).
  assert (board_of st1 = Some b) as Hb1 by (unfold board_of; by rewrite Hheap1, Hself1).
  assert (forall piece m' col, In col (get_valid_locations b) ->
    fits_cell piece = true -> piece <> 0 ->
    rec_computes (full_minimax_with leaf_score fuel (depth - 1) m')
      (child b col piece)
      ((mm (empties b) (depth - 1) m' (child b col piece) 0).2)) as Hrec.
  { intros piece m' col Hcol Hfit Hpiece st2 Hb2.
    destruct (child_valid b col piece Hshape Hcol Hfit Hpiece)
      as (_ & _ & _ & Hshape' & Hempties).
    destruct (IH (depth - 1) m' st2 _ Hb2 Hshape' ltac:(lia))
      as (st3 & seed & Hrun & Hb3 & Hfr3).
    rewrite Hempties in Hrun.
    eexists _, st3. split; [exact Hrun|]. split; [apply mm_snd_seed|done]. }
  destruct m; rewrite bind_eq, Hchoice, bind_eq.
  - edestruct (full_max_loop_pure
      (full_minimax_with leaf_score fuel (depth - 1) false)
      (fun b' => (mm (empties b) (depth - 1) false b' 0).2)
      b (get_valid_locations b) Hshape) as (st' & -> & Hb' & Hlen & Hsame);
      [done|intros; by apply Hrec|exact Hb1|].
    exists st', column. split; [reflexivity|]. split; [done|].
    split; [by rewrite <- Hheap1|]. intros a Ha Hne'.
    rewrite <- Hheap1. apply Hsame; [by rewrite Hheap1|by rewrite Hself1].
  - edestruct (full_min_loop_pure
      (full_minimax_with leaf_score fuel (depth - 1) true)
      (fun b' => (mm (empties b) (depth - 1) true b' 0).2)
      b (get_valid_locations b) Hshape) as (st' & -> & Hb' & Hlen & Hsame);
      [done|intros; by apply Hrec|exact Hb1|].
    exists st', column. split; [reflexivity|]. split; [done|].
    split; [by rewrite <- Hheap1|]. intros a Ha Hne'.
    rewrite <- Hheap1. apply Hsame; [by rewrite Hheap1|by rewrite Hself1].
Qed.

(** *** Scores of the search are integers *)

Lemma stop_value_fin (b : board) : exists z, stop_value b = Fin z.
Proof.
  unfold stop_value. destruct (is_terminal_node b); [|eauto].
  destruct (winning_move b AI_PIECE); [eauto|].
  destruct (winning_move b PLAYER_PIECE); eauto.
Qed.

End Pure.

(** ** The order on scores *)

Definition num (x : ext) : Z :=
  match x with Fin z => z | _ => 0 end.

(** Finitely many scores embed in the integers, order and all: send [-inf]
    below and [+inf] above every integer among them. *)
Definition emb (lo hi : Z) (x : ext) : Z :=
  match x with NInf => lo | Fin z => z | PInf => hi end.

Definition inside (lo hi : Z) (x : ext) : Prop :=
  lo < 0 < hi /\ match x with Fin z => lo < z < hi | _ => True end.

Lemma emb_ltb lo hi x y :
  inside lo hi x -> inside lo hi y ->
  ext_ltb x y = true <-> emb lo hi x < emb lo hi y.
Proof. unfold inside. destruct x, y; simpl; rewrite ?Z.ltb_lt; intros [? ?] [? ?]; split; try lia; try done. Qed.

Lemma emb_leb lo hi x y :
  inside lo hi x -> inside lo hi y ->
  ext_leb x y = true <-> emb lo hi x <= emb lo hi y.
Proof. unfold inside. destruct x, y; simpl; rewrite ?Z.leb_le; intros [? ?] [? ?]; split; try lia; try done. Qed.

Lemma emb_nltb lo hi x y :
  inside lo hi x -> inside lo hi y ->
  ext_ltb x y = false <-> ~ emb lo hi x < emb lo hi y.
Proof. intros Hx Hy. rewrite <- (emb_ltb lo hi x y Hx Hy). by destruct (ext_ltb x y). Qed.

Lemma emb_nleb lo hi x y :
  inside lo hi x -> inside lo hi y ->
  ext_leb x y = false <-> ~ emb lo hi x <= emb lo hi y.
Proof. intros Hx Hy. rewrite <- (emb_leb lo hi x y Hx Hy). by destruct (ext_leb x y). Qed.

Lemma emb_eq lo hi (x y : ext) :
  inside lo hi x -> inside lo hi y ->
  x = y <-> emb lo hi x = emb lo hi y.
Proof.
  unfold inside. intros [? ?] [? ?]. split; [by intros ->|].
  destruct x, y; simpl; intros ?; try lia; try reflexivity. by f_equal.
Qed.

Lemma inside_bounds (l : list ext) :
  exists lo hi, lo < 0 < hi /\ Forall (inside lo hi) l.
Proof.
  induction l as [|x l (lo & hi & Hlh & IH)].
  - exists (-1), 1. split; [lia|constructor].
  - exists (Z.min lo (num x - 1)), (Z.max hi (num x + 1)). split; [lia|]. constructor.
    + unfold inside. destruct x; simpl; lia.
    + eapply Forall_impl; [exact IH|]. intros y [? Hy]. unfold inside.
      split; [lia|]. destruct y; try done. lia.
Qed.

(** Decide the tests, embed the listed scores in the integers, and leave
    the rest to linear arithmetic. *)
Ltac ext_order l :=
  unfold ext_max, ext_min in *;
  repeat match goal with
  | |- context [if ?c then _ else _] => destruct c eqn:?
  | H : context [if ?c then _ else _] |- _ => destruct c eqn:?
  end;
  let lo := fresh "lo" in
  let hi := fresh "hi" in
  let Hin := fresh "Hin" in
  destruct (inside_bounds l) as (lo & hi & _ & Hin);
  repeat (apply Forall_cons in Hin as [? Hin]); clear Hin;
  rewrite ?(emb_ltb lo hi), ?(emb_leb lo hi), ?(emb_nltb lo hi), ?(emb_nleb lo hi),
    ?(emb_eq lo hi) in * by assumption;
  lia.


(** The pruned score [v] against the full score [w], for the window
    [(alpha, beta)]: exact inside the window, a bound outside. *)
Definition bounds (alpha beta v w : ext) : Prop :=
  (ext_leb v alpha = true -> ext_leb w v = true) /\
  (ext_leb beta v = true -> ext_leb v w = true) /\
  (ext_ltb alpha v = true -> ext_ltb v beta = true -> v = w).

(** The running best of the maximizing loop against the full one. *)
Definition acc_max (alpha0 value w : ext) : Prop :=
  (ext_leb value alpha0 = true -> ext_leb w value = true) /\
  (ext_ltb alpha0 value = true -> value = w).

Definition acc_min (beta0 value w : ext) : Prop :=
  (ext_leb beta0 value = true -> ext_leb value w = true) /\
  (ext_ltb value beta0 = true -> value = w).

Lemma bounds_refl (alpha beta v : ext) : bounds alpha beta v v.
Proof. unfold bounds. ext_order [alpha; beta; v]. Qed.

Lemma max_step (alpha0 alpha beta value w s t : ext) :
  alpha = ext_max alpha0 value -> ext_ltb alpha beta = true ->
  acc_max alpha0 value w -> bounds alpha beta s t ->
  let value' := if ext_ltb value s then s else value in
  let w' := if ext_ltb w t then t else w in
  let alpha' := ext_max alpha value' in
  if ext_leb beta alpha'
  then ext_leb beta value' = true /\ ext_leb value' w' = true
  else alpha' = ext_max alpha0 value' /\ ext_ltb alpha' beta = true /\
       acc_max alpha0 value' w'.
Proof.
  intros -> Hlt Hacc Hb. unfold acc_max, bounds in *. cbv zeta.
  ext_order [alpha0; beta; value; w; s; t].
Qed.

Lemma min_step (beta0 alpha beta value w s t : ext) :
  beta = ext_min beta0 value -> ext_ltb alpha beta = true ->
  acc_min beta0 value w -> bounds alpha beta s t ->
  let value' := if ext_ltb s value then s else value in
  let w' := if ext_ltb t w then t else w in
  let beta' := ext_min beta value' in
  if ext_leb beta' alpha
  then ext_leb value' alpha = true /\ ext_leb w' value' = true
  else beta' = ext_min beta0 value' /\ ext_ltb alpha beta' = true /\
       acc_min beta0 value' w'.
Proof.
  intros -> Hlt Hacc Hb. unfold acc_min, bounds in *. cbv zeta.
  ext_order [beta0; alpha; value; w; s; t].
Qed.

Section AlphaBeta.

Variables (f : board -> ext -> ext -> ext) (g : board -> ext) (b : board).

Hypothesis Hfg : forall b' alpha beta,
  ext_ltb alpha beta = true -> bounds alpha beta (f b' alpha beta) (g b').

Lemma mm_max_ge cols value column :
  ext_leb value (mm_max g b cols value column).2 = true.
Proof.
  revert value column. induction cols as [|col rest IH]; intros value column;
    cbn [mm_max].
  - cbn. ext_order [value].
  - destruct (ext_ltb value (g (child b col AI_PIECE))) eqn:E.
    + specialize (IH (g (child b col AI_PIECE)) col).
      ext_order [value; g (child b col AI_PIECE);
                 (mm_max g b rest (g (child b col AI_PIECE)) col).2].
    + apply IH.
Qed.

Lemma mm_min_le cols value column :
  ext_leb (mm_min g b cols value column).2 value = true.
Proof.
  revert value column. induction cols as [|col rest IH]; intros value column;
    cbn [mm_min].
  - cbn. ext_order [value].
  - destruct (ext_ltb (g (child b col PLAYER_PIECE)) value) eqn:E.
    + specialize (IH (g (child b col PLAYER_PIECE)) col).
      ext_order [value; g (child b col PLAYER_PIECE);
                 (mm_min g b rest (g (child b col PLAYER_PIECE)) col).2].
    + apply IH.
Qed.

Lemma ab_max_bounds cols :
  forall value w column column' alpha0 alpha beta,
    alpha = ext_max alpha0 value -> ext_ltb alpha beta = true ->
    acc_max alpha0 value w ->
    bounds alpha0 beta (ab_max f b cols value column alpha beta).2
      (mm_max g b cols w column').2.
Proof.
  induction cols as [|col rest IH];
    intros value w column column' alpha0 alpha beta Ha Hlt Hacc.
  - cbn. unfold bounds, acc_max in *. subst alpha.
    ext_order [alpha0; beta; value; w].
  - cbn [ab_max mm_max].
    pose proof (max_step alpha0 alpha beta value w _ _ Ha Hlt Hacc
      (Hfg (child b col AI_PIECE) alpha beta Hlt)) as Hstep.
    cbv zeta in Hstep.
    set (s := f (child b col AI_PIECE) alpha beta) in *.
    set (t := g (child b col AI_PIECE)) in *.
    destruct (ext_ltb value s) eqn:E1; destruct (ext_ltb w t) eqn:E2;
      match type of Hstep with
      | if ?c then _ else _ => destruct c eqn:E3
      end;
      try (destruct Hstep as (Ha' & Hlt' & Hacc'); by apply IH).
    all: destruct Hstep as (Hb1 & Hb2); cbn [snd];
      match goal with
      | |- bounds _ _ _ (mm_max _ _ ?l ?w' ?c).2 =>
          pose proof (mm_max_ge l w' c) as Hge;
          generalize dependent (mm_max g b l w' c).2; intros R Hge
      end;
      unfold bounds, acc_max in *; subst alpha;
      ext_order [alpha0; beta; value; w; s; t; R].
Qed.

Lemma ab_min_bounds cols :
  forall value w column column' beta0 alpha beta,
    beta = ext_min beta0 value -> ext_ltb alpha beta = true ->
    acc_min beta0 value w ->
    bounds alpha beta0 (ab_min f b cols value column alpha beta).2
      (mm_min g b cols w column').2.
Proof.
  induction cols as [|col rest IH];
    intros value w column column' beta0 alpha beta Hbt Hlt Hacc.
  - cbn. unfold bounds, acc_min in *. subst beta.
    ext_order [beta0; alpha; value; w].
  - cbn [ab_min mm_min].
    pose proof (min_step beta0 alpha beta value w _ _ Hbt Hlt Hacc
      (Hfg (child b col PLAYER_PIECE) alpha beta Hlt)) as Hstep.
    cbv zeta in Hstep.
    set (s := f (child b col PLAYER_PIECE) alpha beta) in *.
    set (t := g (child b col PLAYER_PIECE)) in *.
    destruct (ext_ltb s value) eqn:E1; destruct (ext_ltb t w) eqn:E2;
      match type of Hstep with
      | if ?c then _ else _ => destruct c eqn:E3
      end;
      try (destruct Hstep as (Ha' & Hlt' & Hacc'); by apply IH).
    all: destruct Hstep as (Hb1 & Hb2); cbn [snd];
      match goal with
      | |- bounds _ _ _ (mm_min _ _ ?l ?w' ?c).2 =>
          pose proof (mm_min_le l w' c) as Hge;
          generalize dependent (mm_min g b l w' c).2; intros R Hge
      end;
      unfold bounds, acc_min in *; subst beta;
      ext_order [beta0; alpha; value; w; s; t; R].
Qed.

(** At the root the window is open: the running best of the pruning loop
    is the running best of the full loop, column included. *)
Hypothesis Hfin : forall b' alpha beta, exists z, f b' alpha beta = Fin z.

Lemma ab_max_root cols :
  forall value column, ext_ltb value PInf = true ->
    ab_max f b cols value column value PInf = mm_max g b cols value column.
Proof.
  induction cols as [|col rest IH]; intros value column Hv; cbn [ab_max mm_max]; [done|].
  pose proof (Hfg (child b col AI_PIECE) value PInf Hv) as Hb.
  destruct (Hfin (child b col AI_PIECE) value PInf) as [z Hz].
  set (s := f (child b col AI_PIECE) value PInf) in *.
  set (t := g (child b col AI_PIECE)) in *.
  assert (ext_ltb s PInf = true) as Hs by (by rewrite Hz).
  clearbody s t. clear Hz z.
  destruct (ext_ltb value s) eqn:E1.
  - assert (s = t) as <- by (unfold bounds in Hb; ext_order [value; s; t; PInf]).
    rewrite E1.
    replace (ext_max value s) with s by ext_order [value; s].
    replace (ext_leb PInf s) with false by (symmetry; ext_order [s; PInf]).
    by apply IH.
  - replace (ext_ltb value t) with false
      by (symmetry; unfold bounds in Hb; ext_order [value; s; t; PInf]).
    replace (ext_max value value) with value by ext_order [value].
    replace (ext_leb PInf value) with false by (symmetry; ext_order [value; PInf]).
    by apply IH.
Qed.

Lemma ab_min_root cols :
  forall value column, ext_ltb NInf value = true ->
    ab_min f b cols value column NInf value = mm_min g b cols value column.
Proof.
  induction cols as [|col rest IH]; intros value column Hv; cbn [ab_min mm_min]; [done|].
  pose proof (Hfg (child b col PLAYER_PIECE) NInf value Hv) as Hb.
  destruct (Hfin (child b col PLAYER_PIECE) NInf value) as [z Hz].
  set (s := f (child b col PLAYER_PIECE) NInf value) in *.
  set (t := g (child b col PLAYER_PIECE)) in *.
  assert (ext_ltb NInf s = true) as Hs by (by rewrite Hz).
  clearbody s t. clear Hz z.
  destruct (ext_ltb s value) eqn:E1.
  - assert (s = t) as <- by (unfold bounds in Hb; ext_order [value; s; t; NInf]).
    rewrite E1.
    replace (ext_min value s) with s by ext_order [value; s].
    replace (ext_leb s NInf) with false by (symmetry; ext_order [s; NInf]).
    by apply IH.
  - replace (ext_ltb t value) with false
      by (symmetry; unfold bounds in Hb; ext_order [value; s; t; NInf]).
    replace (ext_min value value) with value by ext_order [value].
    replace (ext_leb value NInf) with false by (symmetry; ext_order [value; NInf]).
    by apply IH.
Qed.

End AlphaBeta.

(** *** The best column *)

Section Columns.

Variables (f : board -> ext -> ext -> ext) (b : board).

Hypothesis Hfin : forall b' alpha beta, exists z, f b' alpha beta = Fin z.

Lemma ab_max_fin_acc cols :
  forall value column alpha beta, (exists z, value = Fin z) ->
    exists z, (ab_max f b cols value column alpha beta).2 = Fin z.
Proof.
  induction cols as [|col rest IH]; intros value column alpha beta [z ->];
    cbn [ab_max]; [by exists z|].
  destruct (Hfin (child b col AI_PIECE) alpha beta) as [z' ->].
  destruct (ext_ltb (Fin z) (Fin z')); destruct (ext_leb beta _); eauto.
Qed.

Lemma ab_min_fin_acc cols :
  forall value column alpha beta, (exists z, value = Fin z) ->
    exists z, (ab_min f b cols value column alpha beta).2 = Fin z.
Proof.
  induction cols as [|col rest IH]; intros value column alpha beta [z ->];
    cbn [ab_min]; [by exists z|].
  destruct (Hfin (child b col PLAYER_PIECE) alpha beta) as [z' ->].
  destruct (ext_ltb (Fin z') (Fin z)); destruct (ext_leb _ alpha); eauto.
Qed.

Lemma ab_max_col cols :
  forall value column alpha beta,
    In (ab_max f b cols value column alpha beta).1 (column :: cols).
Proof.
  induction cols as [|col rest IH]; intros value column alpha beta;
    cbn [ab_max]; [by left|].
  destruct (ext_ltb value _); destruct (ext_leb beta _); cbn [fst];
    try (right; by left); try (by left).
  - destruct (IH (f (child b col AI_PIECE) alpha beta) col
      (ext_max alpha (f (child b col AI_PIECE) alpha beta)) beta) as [<-|?];
      [right; by left|right; by right].
  - destruct (IH value column (ext_max alpha value) beta) as [<-|?];
      [by left|right; by right].
Qed.

Lemma ab_min_col cols :
  forall value column alpha beta,
    In (ab_min f b cols value column alpha beta).1 (column :: cols).
Proof.
  induction cols as [|col rest IH]; intros value column alpha beta;
    cbn [ab_min]; [by left|].
  destruct (ext_ltb _ value); destruct (ext_leb _ alpha); cbn [fst];
    try (right; by left); try (by left).
  - destruct (IH (f (child b col PLAYER_PIECE) alpha beta) col alpha
      (ext_min beta (f (child b col PLAYER_PIECE) alpha beta))) as [<-|?];
      [right; by left|right; by right].
  - destruct (IH value column alpha (ext_min beta value)) as [<-|?];
      [by left|right; by right].
Qed.

(** The first column is always evaluated: its score is an integer, it beats
    the initial [-inf] (or [+inf]), and its column replaces the seed. *)
Lemma ab_max_first cols seed alpha beta :
  cols <> [] ->
  exists col rest value alpha',
    cols = col :: rest /\
    ab_max f b cols NInf seed alpha beta =
      (if ext_leb beta alpha' then (col, Fin value)
       else ab_max f b rest (Fin value) col alpha' beta).
Proof.
  destruct cols as [|col rest]; [done|]. intros _. cbn [ab_max].
  destruct (Hfin (child b col AI_PIECE) alpha beta) as [z ->]. cbn [ext_ltb].
  by exists col, rest, z, (ext_max alpha (Fin z)).
Qed.

Lemma ab_min_first cols seed alpha beta :
  cols <> [] ->
  exists col rest value beta',
    cols = col :: rest /\
    ab_min f b cols PInf seed alpha beta =
      (if ext_leb beta' alpha then (col, Fin value)
       else ab_min f b rest (Fin value) col alpha beta').
Proof.
  destruct cols as [|col rest]; [done|]. intros _. cbn [ab_min].
  destruct (Hfin (child b col PLAYER_PIECE) alpha beta) as [z ->]. cbn [ext_ltb].
  by exists col, rest, z, (ext_min beta (Fin z)).
Qed.

Lemma ab_max_result cols seed alpha beta :
  cols <> [] ->
  (forall seed', ab_max f b cols NInf seed alpha beta
     = ab_max f b cols NInf seed' alpha beta) /\
  In (ab_max f b cols NInf seed alpha beta).1 cols /\
  exists z, (ab_max f b cols NInf seed alpha beta).2 = Fin z.
Proof.
  intros Hne. split; [|split].
  - intros seed'. destruct cols as [|col rest]; [done|]. cbn [ab_max].
    destruct (Hfin (child b col AI_PIECE) alpha beta) as [z Hz].
    rewrite Hz. cbn [ext_ltb]. done.
  - destruct (ab_max_first cols seed alpha beta Hne) as (col & rest & v & a' & -> & ->).
    destruct (ext_leb beta a'); [by left|apply ab_max_col].
  - destruct (ab_max_first cols seed alpha beta Hne) as (col & rest & v & a' & -> & ->).
    destruct (ext_leb beta a'); [by exists v|apply ab_max_fin_acc; by exists v].
Qed.

Lemma ab_min_result cols seed alpha beta :
  cols <> [] ->
  (forall seed', ab_min f b cols PInf seed alpha beta
     = ab_min f b cols PInf seed' alpha beta) /\
  In (ab_min f b cols PInf seed alpha beta).1 cols /\
  exists z, (ab_min f b cols PInf seed alpha beta).2 = Fin z.
Proof.
  intros Hne. split; [|split].
  - intros seed'. destruct cols as [|col rest]; [done|]. cbn [ab_min].
    destruct (Hfin (child b col PLAYER_PIECE) alpha beta) as [z Hz].
    rewrite Hz. cbn [ext_ltb]. done.
  - destruct (ab_min_first cols seed alpha beta Hne) as (col & rest & v & b' & -> & ->).
    destruct (ext_leb b' alpha); [by left|apply ab_min_col].
  - destruct (ab_min_first cols seed alpha beta Hne) as (col & rest & v & b' & -> & ->).
    destruct (ext_leb b' alpha); [by exists v|apply ab_min_fin_acc; by exists v].
Qed.

End Columns.

(** *** Pruning does not change the result *)

Section Equivalence.

Variable leaf_score : board -> Z.

Lemma ab_fin (n : nat) :
  forall depth alpha beta m b seed,
    exists z, (ab leaf_score n depth alpha beta m b seed).2 = Fin z.
Proof.
  induction n as [|n IH]; intros depth alpha beta m b seed; cbn [ab].
  - apply stop_value_fin.
  - destruct ((depth =? 0) || is_terminal_node b) eqn:Hstop; [apply stop_value_fin|].
    apply orb_false_iff in Hstop as [_ Hterm].
    destruct (non_terminal_valid b Hterm) as [Hne _].
    destruct m; cbn [snd].
    + eapply ab_max_result; [|done]. intros. apply IH.
    + eapply ab_min_result; [|done]. intros. apply IH.
Qed.

Lemma ab_bounds (n : nat) :
  forall depth alpha beta m b seed seed',
    ext_ltb alpha beta = true ->
    bounds alpha beta (ab leaf_score n depth alpha beta m b seed).2
      (mm leaf_score n depth m b seed').2.
Proof.
  induction n as [|n IH]; intros depth alpha beta m b seed seed' Hlt; cbn [ab mm].
  - apply bounds_refl.
  - destruct ((depth =? 0) || is_terminal_node b); [apply bounds_refl|].
    destruct m; cbn [snd].
    + apply ab_max_bounds with (alpha0 := alpha).
      * intros. by apply IH.
      * by destruct alpha.
      * done.
      * unfold acc_max. ext_order [alpha; NInf].
    + apply ab_min_bounds with (beta0 := beta).
      * intros. by apply IH.
      * by destruct beta.
      * done.
      * unfold acc_min. ext_order [beta; PInf].
Qed.

(** With the window [(-inf, +inf)] the pruning search and the full search
    agree on the column and on the score. *)
Lemma ab_root (n : nat) (depth : Z) (m : bool) (b : board) (seed : Z) :
  ab leaf_score n depth NInf PInf m b seed = mm leaf_score n depth m b seed.
Proof.
  destruct n as [|n]; cbn [ab mm]; [done|].
  destruct ((depth =? 0) || is_terminal_node b); [done|].
  destruct m.
  - rewrite ab_max_root with (g := fun b' => (mm leaf_score n (depth - 1) false b' 0).2);
      [done| |intros; apply ab_fin|done].
    intros. by apply ab_bounds.
  - rewrite ab_min_root with (g := fun b' => (mm leaf_score n (depth - 1) true b' 0).2);
      [done| |intros; apply ab_fin|done].
    intros. by apply ab_bounds.
Qed.

(** The result does not depend on the seed of the best column. *)
Lemma ab_seed (n : nat) depth alpha beta m b seed seed' :
  ab leaf_score n depth alpha beta m b seed
  = ab leaf_score n depth alpha beta m b seed'.
Proof.
  destruct n as [|n]; cbn [ab]; [done|].
  destruct ((depth =? 0) || is_terminal_node b) eqn:Hstop; [done|].
  apply orb_false_iff in Hstop as [_ Hterm].
  destruct (non_terminal_valid b Hterm) as [Hne _].
  destruct m.
  - rewrite (proj1 (ab_max_result _ b (fun b' a bt => ab_fin n _ a bt false b' 0)
      (get_valid_locations b) seed alpha beta Hne) seed'). done.
  - rewrite (proj1 (ab_min_result _ b (fun b' a bt => ab_fin n _ a bt true b' 0)
      (get_valid_locations b) seed alpha beta Hne) seed'). done.
Qed.

(** The column is absent exactly where the search stops, and a valid
    column otherwise. *)
Lemma ab_column (n : nat) depth alpha beta m b seed :
  ((ab leaf_score (S n) depth alpha beta m b seed).1 = None <->
     depth = 0 \/ is_terminal_node b = true) /\
  (forall col, (ab leaf_score (S n) depth alpha beta m b seed).1 = Some col ->
     In col (get_valid_locations b)).
Proof.
  cbn [ab].
  destruct ((depth =? 0) || is_terminal_node b) eqn:Hstop.
  - split; [|done]. cbn [fst]. split; [intros _|done].
    apply orb_true_iff in Hstop as [?|?]; [left; lia|by right].
  - apply orb_false_iff in Hstop as [Hd Hterm].
    destruct (non_terminal_valid b Hterm) as [Hne _].
    destruct m; cbn [fst].
    + split; [split; [done|]; intros [?|?]; [lia|congruence]|].
      intros col [= <-].
      eapply ab_max_result; [|done]. intros. apply ab_fin.
    + split; [split; [done|]; intros [?|?]; [lia|congruence]|].
      intros col [= <-].
      eapply ab_min_result; [|done]. intros. apply ab_fin.
Qed.

End Equivalence.

(** ** The search on the engine *)

Lemma mm_seed (leaf_score : board -> Z) (n : nat) depth m b seed seed' :
  mm leaf_score n depth m b seed = mm leaf_score n depth m b seed'.
Proof. rewrite <- !ab_root. apply ab_seed. Qed.

(** With enough fuel the search returns, its result is a function of the
    grid, and the grid is afterwards what it was. *)
Lemma minimax_with_result (leaf_score : board -> Z) (fuel : nat) depth alpha beta m st b :
  board_of st = Some b -> shape_ok b -> (empties b < fuel)%nat ->
  exists st',
    minimax_with leaf_score fuel depth alpha beta m st
      = Some (ab leaf_score (S (empties b)) depth alpha beta m b 0, st') /\
    board_of st' = Some b.
Proof.
  intros Hb Hshape Hfuel.
  destruct (minimax_with_pure leaf_score fuel depth alpha beta m st b Hb Hshape Hfuel)
    as (st' & seed & Hrun & Hb' & _).
  exists st'. split; [|done]. rewrite Hrun. f_equal. f_equal. apply ab_seed.
Qed.

Lemma full_minimax_with_result (leaf_score : board -> Z) (fuel : nat) depth m st b :
  board_of st = Some b -> shape_ok b -> (empties b < fuel)%nat ->
  exists st',
    full_minimax_with leaf_score fuel depth m st
      = Some (mm leaf_score (S (empties b)) depth m b 0, st') /\
    board_of st' = Some b.
Proof.
  intros Hb Hshape Hfuel.
  destruct (full_minimax_with_pure leaf_score fuel depth m st b Hb Hshape Hfuel)
    as (st' & seed & Hrun & Hb' & _).
  exists st'. split; [|done]. rewrite Hrun. f_equal. f_equal. apply mm_seed.
Qed.

(** The engine with another tape of random draws. *)
Definition with_rng (st : engine) (g : nat -> nat) : engine :=
  {| heap := heap st; self_board := self_board st; rng := g |}.

(** C1.  On every grid, for every depth and either side to move, the
    pruning search started with the window (-inf, +inf) and the unpruned
    full minimax return the same column and the same score.  Both return
    whenever the fuel exceeds the number of empty cells. *)
Theorem alpha_beta_equivalence (b : board) (depth : Z) (maximizingPlayer : bool)
    (st1 st2 : engine) (fuel1 fuel2 : nat) :
  shape_ok b -> board_of st1 = Some b -> board_of st2 = Some b ->
  (empties b < fuel1)%nat -> (empties b < fuel2)%nat ->
  exists column score st1' st2',
    minimax fuel1 depth NInf PInf maximizingPlayer st1 = Some ((column, score), st1') /\
    full_minimax fuel2 depth maximizingPlayer st2 = Some ((column, score), st2').
Proof.
  intros Hshape Hb1 Hb2 Hf1 Hf2. unfold minimax, full_minimax.
  destruct (minimax_with_result (fun b => score_position b AI_PIECE)
    fuel1 depth NInf PInf maximizingPlayer st1 b Hb1 Hshape Hf1) as (st1' & Hrun1 & _).
  destruct (full_minimax_with_result (fun b => score_position b AI_PIECE)
    fuel2 depth maximizingPlayer st2 b Hb2 Hshape Hf2) as (st2' & Hrun2 & _).
  rewrite ab_root in Hrun1.
  destruct (mm _ (S (empties b)) depth maximizingPlayer b 0) as [column score].
  by exists column, score, st1', st2'.
Qed.

Lemma alpha_beta_equivalence_witness :
  exists column score st1' st2',
    minimax 43 2 NInf PInf true (new_engine (fun _ => 0%nat))
      = Some ((column, score), st1') /\
    full_minimax 50 2 true (new_engine (fun _ => 5%nat))
      = Some ((column, score), st2').
Proof.
  apply (alpha_beta_equivalence zeros_board 2 true
    (new_engine (fun _ => 0%nat)) (new_engine (fun _ => 5%nat)) 43 50);
    [split; [reflexivity|repeat constructor]|reflexivity|reflexivity|vm_compute; lia|vm_compute; lia].
Defined.

(** C2.  When [get_best_move] returns, the grid behind [self.board] is,
    cell for cell, the grid from before the call; and it does return, for
    every depth, whenever the fuel exceeds the number of empty cells. *)
Theorem get_best_move_restores_grid (st : engine) (b : board) (depth : Z) (fuel : nat) :
  board_of st = Some b -> shape_ok b -> (empties b < fuel)%nat ->
  exists column st',
    get_best_move fuel depth st = Some (column, st') /\ board_of st' = Some b.
Proof.
  intros Hb Hshape Hfuel. unfold get_best_move, minimax.
  destruct (minimax_with_result (fun b => score_position b AI_PIECE)
    fuel depth NInf PInf true st b Hb Hshape Hfuel) as (st' & Hrun & Hb').
  rewrite bind_eq, Hrun. eexists _, st'. split; [reflexivity|done].
Qed.

Lemma get_best_move_restores_grid_witness :
  exists column st',
    get_best_move 43 3 (new_engine (fun _ => 1%nat)) = Some (column, st') /\
    board_of st' = Some zeros_board.
Proof.
  apply (get_best_move_restores_grid (new_engine (fun _ => 1%nat)) zeros_board 3 43);
    [reflexivity|split; [reflexivity|repeat constructor]|vm_compute; lia].
Defined.

(** The search restores the grid by rebinding [self.board] to the copy it
    took: the grid is as before, in another array object, and the object
    [self.board] referred to before the call keeps the token of the first
    speculative move. *)
Example get_best_move_rebinds :
  exists column st',
    get_best_move 43 1 (new_engine (fun _ => 0%nat)) = Some (column, st') /\
    board_of st' = Some zeros_board /\
    self_board st' <> 0%nat /\
    heap st' !! 0%nat = Some (set_cell zeros_board 5 0 AI_PIECE).
Proof.
  eexists _, _. split; [vm_compute; reflexivity|].
  split; [reflexivity|]. split; [simpl; lia|reflexivity].
Qed.

(** ** Terminal positions *)

(** A grid on which both tokens have a four-in-a-row (reachable with
    [force_place_token]). *)
Definition both_win_board : board :=
  [ [0; 0; 0; 0; 0; 0; 0];
    [0; 0; 0; 0; 0; 0; 0];
    [0; 0; 0; 0; 0; 0; 0];
    [0; 0; 0; 0; 0; 0; 0];
    [2; 2; 2; 2; 0; 0; 0];
    [1; 1; 1; 1; 0; 0; 0] ].

(** C3.  On a terminal grid [minimax] returns at once, for every depth,
    window and side to move, and whatever the depth-0 evaluation is
    ([minimax] is [minimax_with] at [score_position] for [AI_PIECE], so
    the heuristic plays no part): the
    column is absent, the engine is untouched, and the score is
    100000000000000 if the AI's token has a four-in-a-row, -10000000000000
    if it has none and the player's token has one, and 0 if neither has
    one, in which case no column is valid. *)
Theorem minimax_terminal (leaf_score : board -> Z) (st : engine) (b : board)
    (fuel : nat) (depth : Z) (alpha beta : ext) (maximizingPlayer : bool) :
  board_of st = Some b -> is_terminal_node b = true -> fuel <> 0%nat ->
  exists s,
    minimax_with leaf_score fuel depth alpha beta maximizingPlayer st
      = Some ((None, Fin s), st) /\
    (winning_move b AI_PIECE = true -> s = 100000000000000) /\
    (winning_move b AI_PIECE = false -> winning_move b PLAYER_PIECE = true ->
       s = -10000000000000) /\
    (winning_move b AI_PIECE = false -> winning_move b PLAYER_PIECE = false ->
       s = 0 /\ get_valid_locations b = []).
Proof.
  intros Hb Hterm Hfuel. destruct fuel as [|fuel]; [done|].
  cbn [minimax_with]. rewrite bind_eq, (the_board_eq _ _ Hb), Hterm, orb_true_r.
  destruct (winning_move b AI_PIECE) eqn:Hai.
  { eexists. split; [reflexivity|]. repeat split; done. }
  destruct (winning_move b PLAYER_PIECE) eqn:Hpl.
  { eexists. split; [reflexivity|]. repeat split; done. }
  eexists. split; [reflexivity|]. repeat split; try done.
  unfold is_terminal_node in Hterm. rewrite Hai, Hpl in Hterm. simpl in Hterm.
  apply Nat.eqb_eq in Hterm. by destruct (get_valid_locations b).
Qed.

Lemma minimax_terminal_witness :
  exists s,
    minimax 1 4 NInf PInf true
      {| heap := [both_win_board]; self_board := 0; rng := fun _ => 0%nat |}
      = Some ((None, Fin s),
          {| heap := [both_win_board]; self_board := 0; rng := fun _ => 0%nat |}) /\
    (winning_move both_win_board AI_PIECE = true -> s = 100000000000000) /\
    (winning_move both_win_board AI_PIECE = false ->
       winning_move both_win_board PLAYER_PIECE = true -> s = -10000000000000) /\
    (winning_move both_win_board AI_PIECE = false ->
       winning_move both_win_board PLAYER_PIECE = false ->
       s = 0 /\ get_valid_locations both_win_board = []).
Proof.
  apply (minimax_terminal (fun b => score_position b AI_PIECE)
    {| heap := [both_win_board]; self_board := 0; rng := fun _ => 0%nat |}
    both_win_board 1 4 NInf PInf true); [reflexivity|reflexivity|lia].
Defined.

(** Read without the order of the tests, the three cases of C3 clash where
    both tokens have a four-in-a-row: the player's token has one, and the
    score is the AI's sentinel. *)
Lemma minimax_terminal_both_win :
  ~ (forall (st : engine) (b : board) (fuel : nat) (depth : Z) (alpha beta : ext)
       (maximizingPlayer : bool),
       board_of st = Some b -> shape_ok b -> is_terminal_node b = true ->
       0 <= depth -> fuel <> 0%nat ->
       exists s,
         minimax fuel depth alpha beta maximizingPlayer st = Some ((None, s), st) /\
         (winning_move b AI_PIECE = true -> s = Fin 100000000000000) /\
         (winning_move b PLAYER_PIECE = true -> s = Fin (-10000000000000)) /\
         (winning_move b AI_PIECE = false -> winning_move b PLAYER_PIECE = false ->
            get_valid_locations b = [] -> s = Fin 0)).
Proof.
  intros Hall.
  destruct (Hall {| heap := [both_win_board]; self_board := 0; rng := fun _ => 0%nat |}
    both_win_board 1%nat 0 NInf PInf true) as (s & Hrun & Hai & Hpl & _);
    [reflexivity|by apply shape_okb_spec|reflexivity|lia|lia|].
  vm_compute in Hrun. injection Hrun as <-.
  specialize (Hpl eq_refl). discriminate Hpl.
Qed.

(** ** The random seed and the chosen column *)

(** C9.  Two runs of [minimax] on the same engine that differ only in the
    random draws return the same column and the same score. *)
Theorem minimax_ignores_random_draws (st : engine) (b : board) (g1 g2 : nat -> nat)
    (fuel : nat) (depth : Z) (alpha beta : ext) (maximizingPlayer : bool) :
  board_of st = Some b -> shape_ok b -> (empties b < fuel)%nat ->
  exists column score st1 st2,
    minimax fuel depth alpha beta maximizingPlayer (with_rng st g1)
      = Some ((column, score), st1) /\
    minimax fuel depth alpha beta maximizingPlayer (with_rng st g2)
      = Some ((column, score), st2).
Proof.
  intros Hb Hshape Hfuel. unfold minimax.
  destruct (minimax_with_result (fun b => score_position b AI_PIECE)
    fuel depth alpha beta maximizingPlayer (with_rng st g1) b Hb Hshape Hfuel)
    as (st1 & Hrun1 & _).
  destruct (minimax_with_result (fun b => score_position b AI_PIECE)
    fuel depth alpha beta maximizingPlayer (with_rng st g2) b Hb Hshape Hfuel)
    as (st2 & Hrun2 & _).
  destruct (ab _ (S (empties b)) depth alpha beta maximizingPlayer b 0)
    as [column score].
  by exists column, score, st1, st2.
Qed.

Lemma minimax_ignores_random_draws_witness :
  exists column score st1 st2,
    minimax 43 2 NInf PInf true (with_rng (new_engine (fun _ => 0%nat)) (fun k => k))
      = Some ((column, score), st1) /\
    minimax 43 2 NInf PInf true (with_rng (new_engine (fun _ => 0%nat)) (fun k => (k * k + 6)%nat))
      = Some ((column, score), st2).
Proof.
  apply (minimax_ignores_random_draws (new_engine (fun _ => 0%nat)) zeros_board
    (fun k => k) (fun k => (k * k + 6)%nat) 43 2 NInf PInf true);
    [reflexivity|split; [reflexivity|repeat constructor]|vm_compute; lia].
Defined.

(** C10.  [minimax] returns no column exactly when the depth is 0 or the
    grid is terminal.  Otherwise, for every window, the column it returns is
    one of [get_valid_locations] of the grid it was called on: a column of
    the grid whose top cell is empty.  So is the column [get_best_move]
    returns. *)
Theorem minimax_column_valid (st : engine) (b : board) (fuel : nat) (depth : Z)
    (alpha beta : ext) (maximizingPlayer : bool) :
  board_of st = Some b -> shape_ok b -> (empties b < fuel)%nat ->
  (exists column score st',
     minimax fuel depth alpha beta maximizingPlayer st = Some ((column, score), st') /\
     (column = None <-> depth = 0 \/ is_terminal_node b = true) /\
     (forall col, column = Some col ->
        In col (get_valid_locations b) /\
        is_valid_location b col = Some true /\ 0 <= col < Z.of_nat COLUMN_COUNT)) /\
  (exists column st',
     get_best_move fuel depth st = Some (column, st') /\
     (column = None <-> depth = 0 \/ is_terminal_node b = true) /\
     (forall col, column = Some col ->
        In col (get_valid_locations b) /\
        is_valid_location b col = Some true /\ 0 <= col < Z.of_nat COLUMN_COUNT)).
Proof.
  intros Hb Hshape Hfuel.
  assert (forall alpha beta m, exists column score st',
    minimax fuel depth alpha beta m st = Some ((column, score), st') /\
    (column = None <-> depth = 0 \/ is_terminal_node b = true) /\
    (forall col, column = Some col ->
       In col (get_valid_locations b) /\
       is_valid_location b col = Some true /\ 0 <= col < Z.of_nat COLUMN_COUNT)) as Hmm.
  { intros a bt m. unfold minimax.
    destruct (minimax_with_result (fun b => score_position b AI_PIECE)
      fuel depth a bt m st b Hb Hshape Hfuel) as (st' & Hrun & _).
    destruct (ab_column (fun b => score_position b AI_PIECE)
      (empties b) depth a bt m b 0) as [Hnone Hsome].
    destruct (ab _ (S (empties b)) depth a bt m b 0) as [column score].
    exists column, score, st'. split; [done|]. split; [done|].
    intros col ->. specialize (Hsome col eq_refl). split; [done|].
    by apply valid_location_valid. }
  split; [apply Hmm|].
  destruct (Hmm NInf PInf true) as (column & score & st' & Hrun & Hnone & Hsome).
  exists column, st'. unfold get_best_move. rewrite bind_eq, Hrun. done.
Qed.

Lemma minimax_column_valid_witness :
  exists column st',
    get_best_move 43 2 (new_engine (fun _ => 0%nat)) = Some (column, st') /\
    (column = None <-> 2 = 0 \/ is_terminal_node zeros_board = true) /\
    (forall col, column = Some col ->
       In col (get_valid_locations zeros_board) /\
       is_valid_location zeros_board col = Some true /\
       0 <= col < Z.of_nat COLUMN_COUNT).
Proof.
  apply (minimax_column_valid (new_engine (fun _ => 0%nat)) zeros_board 43 2
    NInf PInf true); [reflexivity|split; [reflexivity|repeat constructor]|vm_compute; lia].
Defined.

(** * Further properties of the engine *)

(** ** Valid columns, in order *)

(** X1.  [get_valid_locations] lists, in strictly increasing order, exactly
    the columns 0..6 whose top cell is empty. *)
Theorem get_valid_locations_sorted (b : board) :
  StronglySorted Z.lt (get_valid_locations b) /\
  forall col, In col (get_valid_locations b) <->
    0 <= col < Z.of_nat COLUMN_COUNT /\ cell b 0 (Z.to_nat col) = 0.
Proof.
  split.
  - rewrite get_valid_locations_filter. unfold range, COLUMN_COUNT. simpl.
    repeat match goal with
    | |- context [if ?c then _ else _] => destruct c
    end; simpl; repeat constructor; lia.
  - intros col. rewrite in_get_valid_locations. split.
    + intros (c & Hc & -> & Hz). rewrite Nat2Z.id. split; [lia|done].
    + intros [Hcol Hz]. exists (Z.to_nat col). repeat split; [lia|lia|done].
Qed.

(** ** The lowest empty row *)

Lemma find_last_None (p : nat -> bool) (n : nat) :
  List.find p (rev (range n)) = None <-> forall r, (r < n)%nat -> p r = false.
Proof.
  split.
  - intros Hnone r Hr. destruct (p r) eqn:Hp; [|done].
    destruct (find_last_is_Some p n r Hr Hp) as [x Hx]. congruence.
  - intros Hall. destruct (List.find p (rev (range n))) as [r|] eqn:Hfind; [|done].
    apply find_last_Some in Hfind as (Hr & Hp & _). rewrite Hall in Hp; done.
Qed.

(** X2.  [get_next_open_row] raises on a column outside [-7, 7).  On a
    column of the grid it answers [None] exactly when no cell of the column
    is empty; otherwise it answers a row of the grid whose cell is empty
    and below which every cell of the column is occupied. *)
Theorem get_next_open_row_spec (b : board) (col : Z) :
  (np_index COLUMN_COUNT col = None -> get_next_open_row b col = None) /\
  forall c, np_index COLUMN_COUNT col = Some c ->
    (get_next_open_row b col = Some None <->
       forall r, (r < ROW_COUNT)%nat -> cell b r c <> EMPTY) /\
    (get_next_open_row b col <> Some None ->
       exists r, get_next_open_row b col = Some (Some (Z.of_nat r)) /\
         (r < ROW_COUNT)%nat /\ cell b r c = EMPTY /\
         forall r', (r < r' < ROW_COUNT)%nat -> cell b r' c <> EMPTY).
Proof.
  unfold get_next_open_row, EMPTY. split; [by intros ->|].
  intros c ->. cbn -[range rev List.find].
  destruct (List.find (fun r => cell b r c =? 0) (rev (range ROW_COUNT)))
    as [r|] eqn:Hfind.
  - pose proof Hfind as (Hr & Hz & Hbelow)%find_last_Some. split.
    + split; [done|]. intros Hall. specialize (Hall r Hr). lia.
    + intros _. exists r. repeat split; [done|lia|].
      intros r' Hr'. apply Hbelow in Hr'. lia.
  - split; [|done]. split; [|done]. intros _ r Hr.
    pose proof (proj1 (find_last_None _ _) Hfind r Hr) as Hz. cbn in Hz. lia.
Qed.

(** ** How many tokens fit *)

Lemma play_empties (drops : list (Z * Z)) (st st' : engine) (b : board) :
  board_of st = Some b -> shape_ok b -> Forall (fun d => d.2 <> 0) drops ->
  play drops st = Some (tt, st') ->
  exists b', board_of st' = Some b' /\ shape_ok b' /\
    (empties b' + length drops = empties b)%nat.
Proof.
  revert st b. induction drops as [|[col piece] drops IH]; intros st b Hb Hs Hnz.
  - intros [= <-]. exists b. split; [done|]. split; [done|]. simpl; lia.
  - simpl. rewrite bind_eq.
    destruct (rule_drop col piece st) as [[[] st1]|] eqn:Hdrop; [|done].
    destruct (rule_drop_inv _ _ _ _ _ Hb Hdrop) as (c & r & Hc & Hr & Hz & Hbelow & ->).
    apply Forall_cons in Hnz as [Hpiece Hnz]. simpl in Hpiece.
    intros Hplay.
    destruct (IH _ (set_cell b r c piece)
      ltac:(by eapply board_of_put_board) ltac:(by apply shape_ok_set_cell) Hnz Hplay)
      as (b' & Hb' & Hs' & Hcount).
    exists b'. split; [done|]. split; [done|].
    pose proof (empties_set_cell b r c piece Hs Hr
      ltac:(by eapply np_index_lt) Hz Hpiece). lia.
Qed.

(** X3.  After a sequence of rule-driven drops of non-empty tokens into the
    grid of a new engine, the number of empty cells is 42 minus the number
    of drops: every drop fills one empty cell, and no sequence of more than
    42 drops goes through. *)
Theorem play_fills_one_cell_per_drop (g : nat -> nat) (drops : list (Z * Z))
    (st : engine) :
  Forall (fun d => d.2 <> EMPTY) drops ->
  play drops (new_engine g) = Some (tt, st) ->
  exists b, board_of st = Some b /\
    (empties b + length drops = 42)%nat /\ (length drops <= 42)%nat.
Proof.
  intros Hnz Hplay.
  destruct (play_empties drops (new_engine g) st zeros_board eq_refl
    shape_ok_zeros Hnz Hplay) as (b & Hb & _ & Hcount).
  exists b. split; [done|]. change (empties zeros_board) with 42%nat in Hcount. lia.
Qed.

Lemma play_fills_one_cell_per_drop_witness :
  exists st b,
    play [(3, PLAYER_PIECE); (3, AI_PIECE); (-1, PLAYER_PIECE)]
      (new_engine (fun _ => 0%nat)) = Some (tt, st) /\
    board_of st = Some b /\ (empties b + 3 = 42)%nat.
Proof.
  eexists.
  destruct (play_fills_one_cell_per_drop (fun _ => 0%nat)
    [(3, PLAYER_PIECE); (3, AI_PIECE); (-1, PLAYER_PIECE)] _
    ltac:(repeat constructor; discriminate) eq_refl) as (b & Hb & Hcount & _).
  exists b. split; [reflexivity|]. split; [exact Hb|exact Hcount].
Defined.

(** ** A game without a winner *)

Lemma row_empties_zero (l : list Z) :
  row_empties l = 0%nat <-> Forall (fun v => v <> 0) l.
Proof.
  induction l as [|v l IH]; simpl.
  - split; [constructor|done].
  - rewrite Forall_cons, <- IH. destruct (Z.eqb_spec v 0); simpl; [|tauto].
    split; [lia|]. intros [? _]. done.
Qed.

Lemma empties_zero_rows (b : board) :
  empties b = 0%nat <-> Forall (fun row => Forall (fun v => v <> 0) row) b.
Proof.
  induction b as [|row b IH]; simpl.
  - split; [constructor|done].
  - rewrite Forall_cons, <- IH, <- row_empties_zero. lia.
Qed.

(** A grid has no empty cell when every cell inside the shape is occupied. *)
Lemma empties_zero (b : board) :
  shape_ok b ->
  empties b = 0%nat <->
  forall r c, (r < ROW_COUNT)%nat -> (c < COLUMN_COUNT)%nat -> cell b r c <> EMPTY.
Proof.
  intros Hshape. rewrite empties_zero_rows. split.
  - intros Hall r c Hr Hc.
    destruct (shape_ok_lookup b r c Hshape Hr Hc) as (row & Hrow & Hcell).
    rewrite Forall_lookup in Hall. specialize (Hall r row Hrow).
    rewrite Forall_lookup in Hall. exact (Hall c _ Hcell).
  - intros Hall. apply Forall_lookup. intros r row Hrow.
    apply Forall_lookup. intros c v Hv.
    destruct Hshape as [Hlen Hrows].
    assert (r < ROW_COUNT)%nat as Hr by (rewrite <- Hlen; by eapply lookup_lt_Some).
    assert (c < COLUMN_COUNT)%nat as Hc.
    { rewrite Forall_lookup in Hrows. rewrite <- (Hrows r row Hrow).
      by eapply lookup_lt_Some. }
    specialize (Hall r c Hr Hc). unfold cell in Hall. by rewrite Hrow, Hv in Hall.
Qed.

(** Without floating tokens, a column whose top cell is occupied is full. *)
Lemma gravity_column_full (b : board) (c : nat) :
  gravity b -> (c < COLUMN_COUNT)%nat -> cell b 0 c <> EMPTY ->
  forall r, (r < ROW_COUNT)%nat -> cell b r c <> EMPTY.
Proof.
  intros Hg Hc Htop r. induction r as [|r IH]; intros Hr; [exact Htop|].
  replace (S r) with (r + 1)%nat by lia.
  apply Hg; [unfold ROW_COUNT in *; lia|exact Hc|apply IH; lia].
Qed.

Lemma no_valid_location_full (b : board) :
  shape_ok b -> gravity b ->
  get_valid_locations b = [] <-> empties b = 0%nat.
Proof.
  intros Hshape Hg. rewrite (empties_zero b Hshape). split.
  - intros Hnone r c Hr Hc. apply gravity_column_full; [exact Hg|exact Hc| |exact Hr].
    intros Hz. assert (In (Z.of_nat c) (get_valid_locations b)) as Hin
      by (apply in_get_valid_locations; by exists c).
    by rewrite Hnone in Hin.
  - intros Hall. destruct (get_valid_locations b) as [|col rest] eqn:Hcols; [done|].
    assert (In col (get_valid_locations b)) as Hin by (rewrite Hcols; by left).
    apply in_get_valid_locations in Hin as (c & Hc & _ & Hz).
    exfalso. apply (Hall 0%nat c); [unfold ROW_COUNT; lia|exact Hc|exact Hz].
Qed.

(** X4.  A game played by the rules from a new engine has no valid column
    left exactly after 42 drops.  So a position of such a game is terminal
    exactly when a side has a four-in-a-row or 42 tokens were dropped: a
    game without a winner lasts 42 drops. *)
Theorem play_ends_after_42 (g : nat -> nat) (drops : list (Z * Z)) (st : engine) :
  Forall (fun d => d.2 <> EMPTY) drops ->
  play drops (new_engine g) = Some (tt, st) ->
  exists b, board_of st = Some b /\
    (get_valid_locations b = [] <-> length drops = 42%nat) /\
    (is_terminal_node b = true <->
       winning_move b PLAYER_PIECE = true \/ winning_move b AI_PIECE = true \/
       length drops = 42%nat).
Proof.
  intros Hnz Hplay.
  destruct (play_empties drops (new_engine g) st zeros_board eq_refl
    shape_ok_zeros Hnz Hplay) as (b & Hb & Hshape & Hcount).
  destruct (play_gravity drops (new_engine g) st zeros_board eq_refl
    shape_ok_zeros gravity_zeros Hplay) as (b' & Hb' & _ & Hg).
  assert (b' = b) as -> by congruence.
  change (empties zeros_board) with 42%nat in Hcount.
  assert (get_valid_locations b = [] <-> length drops = 42%nat) as Hfull.
  { rewrite (no_valid_location_full b Hshape Hg). lia. }
  exists b. split; [exact Hb|]. split; [exact Hfull|].
  unfold is_terminal_node. rewrite !orb_true_iff, Nat.eqb_eq, <- Hfull.
  rewrite length_zero_iff_nil. tauto.
Qed.

(** Forty-two drops, column by column, that leave no four-in-a-row. *)
Definition drawn_game : list (Z * Z) :=
  [
    (0, 2); (0, 1); (0, 2); (0, 1); (0, 2); (0, 1);
    (1, 2); (1, 1); (1, 2); (1, 1); (1, 2); (1, 1);
    (2, 1); (2, 2); (2, 1); (2, 2); (2, 1); (2, 2);
    (3, 1); (3, 2); (3, 1); (3, 2); (3, 1); (3, 2);
    (4, 2); (4, 1); (4, 2); (4, 1); (4, 2); (4, 1);
    (5, 2); (5, 1); (5, 2); (5, 1); (5, 2); (5, 1);
    (6, 1); (6, 2); (6, 1); (6, 2); (6, 1); (6, 2) ].

Lemma play_ends_after_42_witness :
  exists st b,
    play drawn_game (new_engine (fun _ => 0%nat)) = Some (tt, st) /\
    board_of st = Some b /\
    (get_valid_locations b = [] <-> length drawn_game = 42%nat) /\
    (is_terminal_node b = true <->
       winning_move b PLAYER_PIECE = true \/ winning_move b AI_PIECE = true \/
       length drawn_game = 42%nat).
Proof.
  eexists.
  destruct (play_ends_after_42 (fun _ => 0%nat) drawn_game _
    ltac:(repeat constructor; discriminate) ltac:(vm_compute; reflexivity))
    as (b & Hb & Hfull & Hterm).
  exists b. split; [vm_compute; reflexivity|]. split; [exact Hb|].
  split; [exact Hfull|exact Hterm].
Defined.

(** ** A four-in-a-row stays *)

Lemma cell_set_cell_kept (b : board) (r c r' c' : nat) (v piece : Z) :
  cell b r c = 0 -> piece <> 0 -> cell b r' c' = piece ->
  cell (set_cell b r c v) r' c' = piece.
Proof.
  intros Hz Hpiece Hcell. rewrite cell_set_cell_ne; [done|].
  destruct (decide (r = r')) as [<-|]; [|by left].
  destruct (decide (c = c')) as [<-|]; [congruence|by right].
Qed.

Lemma winning_move_set_cell (b : board) (r c : nat) (v piece : Z) :
  cell b r c = 0 -> piece <> 0 ->
  winning_move b piece = true -> winning_move (set_cell b r c v) piece = true.
Proof.
  intros Hz Hpiece. rewrite !winning_move_scans.
  intros [H|[H|[H|H]]]; destruct H as (r0 & c0 & Hrc & H0 & H1 & H2 & H3);
    [left|right;left|right;right;left|right;right;right];
    exists r0, c0; (split; [exact Hrc|]);
    repeat split; by apply cell_set_cell_kept.
Qed.

(** X5.  A four-in-a-row of a token survives every later rule-driven drop:
    drops only fill empty cells. *)
Theorem play_keeps_win (drops : list (Z * Z)) (st st' : engine) (b : board)
    (piece : Z) :
  board_of st = Some b -> piece <> EMPTY -> winning_move b piece = true ->
  play drops st = Some (tt, st') ->
  exists b', board_of st' = Some b' /\ winning_move b' piece = true.
Proof.
  revert st b. induction drops as [|[col piece'] drops IH]; intros st b Hb Hpiece Hwin.
  - intros [= <-]. eauto.
  - simpl. rewrite bind_eq.
    destruct (rule_drop col piece' st) as [[[] st1]|] eqn:Hdrop; [|done].
    destruct (rule_drop_inv _ _ _ _ _ Hb Hdrop) as (c & r & Hc & Hr & Hz & Hbelow & ->).
    apply IH with (b := set_cell b r c piece'); [by eapply board_of_put_board|done|].
    by apply winning_move_set_cell.
Qed.

Lemma play_keeps_win_witness :
  exists st' b',
    play [(6, PLAYER_PIECE)]
      {| heap := [both_win_board]; self_board := 0; rng := fun _ => 0%nat |}
      = Some (tt, st') /\
    board_of st' = Some b' /\ winning_move b' AI_PIECE = true.
Proof.
  eexists.
  destruct (play_keeps_win [(6, PLAYER_PIECE)]
    {| heap := [both_win_board]; self_board := 0; rng := fun _ => 0%nat |}
    _ both_win_board AI_PIECE eq_refl ltac:(discriminate) eq_refl eq_refl)
    as (b' & Hb' & Hwin).
  exists b'. split; [reflexivity|]. split; [exact Hb'|exact Hwin].
Defined.

(** ** Placing and removing *)

Lemma set_cell_set_cell (b : board) (r c : nat) (v w : Z) :
  set_cell (set_cell b r c v) r c w = set_cell b r c w.
Proof.
  unfold set_cell. destruct (b !! r) as [row|] eqn:Hrow; [|by rewrite Hrow].
  rewrite list_lookup_insert_eq by (eapply lookup_lt_Some; eauto).
  by rewrite !list_insert_insert_eq.
Qed.

Lemma set_cell_same (b : board) (r c : nat) :
  shape_ok b -> (r < ROW_COUNT)%nat -> (c < COLUMN_COUNT)%nat ->
  set_cell b r c (cell b r c) = b.
Proof.
  intros Hb Hr Hc. destruct (shape_ok_lookup b r c Hb Hr Hc) as (row & Hrow & Hv).
  unfold set_cell. rewrite Hrow. rewrite (list_insert_id row c) by done.
  by apply list_insert_id.
Qed.

Lemma put_board_put_board (st : engine) (b1 b2 : board) :
  put_board (put_board st b1) b2 = put_board st b2.
Proof. unfold put_board. simpl. by rewrite list_insert_insert_eq. Qed.

Lemma put_board_same (st : engine) (b : board) :
  board_of st = Some b -> put_board st b = st.
Proof.
  intros Hb. destruct st as [h p g]. unfold put_board, board_of in *. simpl in *.
  by rewrite list_insert_id.
Qed.

(** X6.  Inside the grid, [remove_token] after [force_place_token] on the
    same cell leaves the cell empty and every other cell as it was: on a
    cell that was empty the round trip gives back the engine it started
    from, on an occupied cell the token that was there is gone. *)
Theorem force_place_then_remove (st : engine) (b : board) (row col piece : Z) :
  board_of st = Some b -> shape_ok b -> in_grid row col -> fits_cell piece = true ->
  exists st1 st2 b2,
    force_place_token row col piece st = Some (true, st1) /\
    remove_token row col st1 = Some (true, st2) /\
    board_of st2 = Some b2 /\ written b b2 row col EMPTY /\
    (cell b (Z.to_nat row) (Z.to_nat col) = EMPTY -> st2 = st).
Proof.
  intros Hb Hshape Hin Hfit.
  pose proof Hin as [Hr Hc].
  pose proof (proj2 (in_grid_test row col) Hin) as Htest.
  unfold force_place_token, remove_token. rewrite Htest.
  set (r := Z.to_nat row). set (c := Z.to_nat col).
  exists (put_board st (set_cell b r c piece)), (put_board st (set_cell b r c EMPTY)),
    (set_cell b r c EMPTY).
  assert (board_of (put_board st (set_cell b r c piece)) = Some (set_cell b r c piece))
    as Hb1 by (by eapply board_of_put_board).
  split.
  { rewrite bind_eq.
    by erewrite board_setitem_ok; [|done|by apply np_index_range|by apply np_index_range|done]. }
  split.
  { rewrite bind_eq.
    erewrite board_setitem_ok; [|done|by apply np_index_range|by apply np_index_range|done].
    by rewrite put_board_put_board, set_cell_set_cell. }
  split; [by eapply board_of_put_board|].
  split; [by apply written_set_cell|].
  intros Hz. unfold r, c. rewrite <- Hz.
  rewrite set_cell_same; [by apply put_board_same|done|lia|lia].
Qed.

Lemma force_place_then_remove_witness :
  exists st1 st2 b2,
    force_place_token 2 4 AI_PIECE (new_engine (fun _ => 0%nat)) = Some (true, st1) /\
    remove_token 2 4 st1 = Some (true, st2) /\
    board_of st2 = Some b2 /\ written zeros_board b2 2 4 EMPTY /\
    (cell zeros_board (Z.to_nat 2) (Z.to_nat 4) = EMPTY ->
     st2 = new_engine (fun _ => 0%nat)).
Proof.
  apply (force_place_then_remove (new_engine (fun _ => 0%nat)) zeros_board 2 4 AI_PIECE);
    [reflexivity|split; [reflexivity|repeat constructor]| |reflexivity].
  unfold in_grid, ROW_COUNT, COLUMN_COUNT; lia.
Defined.

(** ** A fresh start *)

(** X7.  [wipe_board] never fails, whatever the grid held (floating tokens
    included): the grid is empty afterwards, all seven columns are valid,
    and every sequence of rule-driven drops from there keeps gravity. *)
Theorem wipe_board_fresh (st : engine) :
  exists st1,
    wipe_board st = Some (tt, st1) /\
    board_of st1 = Some zeros_board /\
    get_valid_locations zeros_board = [0; 1; 2; 3; 4; 5; 6] /\
    forall drops st2, play drops st1 = Some (tt, st2) ->
      exists b, board_of st2 = Some b /\ gravity b.
Proof.
  eexists. split; [reflexivity|].
  assert (board_of {| heap := heap st ++ [zeros_board];
                      self_board := length (heap st); rng := rng st |}
          = Some zeros_board) as Hb.
  { unfold board_of. simpl. rewrite lookup_app_r by lia. by rewrite Nat.sub_diag. }
  split; [exact Hb|]. split; [reflexivity|].
  intros drops st2 Hplay.
  destruct (play_gravity drops _ st2 zeros_board Hb shape_ok_zeros gravity_zeros Hplay)
    as (b & Hb2 & _ & Hg). eauto.
Qed.

(** ** The size of the heuristic *)

Lemma evaluate_window_range (window : list Z) (piece : Z) :
  -4 <= evaluate_window window piece <= 100.
Proof.
  unfold evaluate_window.
  repeat match goal with
  | |- context [if ?c then _ else _] => destruct c
  end; lia.
Qed.

Lemma count_le_length (l : list Z) (x : Z) : count l x <= Z.of_nat (length l).
Proof. induction l as [|y l IH]; simpl; [lia|]. destruct (y =? x); lia. Qed.

Lemma foldl_range {A : Type} (h : Z -> A -> Z) (lo hi : Z) (l : list A) :
  (forall s x, s + lo <= h s x <= s + hi) ->
  forall s0, s0 + lo * Z.of_nat (length l) <= foldl h s0 l
             <= s0 + hi * Z.of_nat (length l).
Proof.
  intros Hstep. induction l as [|x l IH]; intros s0; simpl; [lia|].
  specialize (IH (h s0 x)). specialize (Hstep s0 x). lia.
Qed.

Lemma foldl_windows_range {A : Type} (w : A -> list Z) (piece : Z) (l : list A) (s0 : Z) :
  s0 - 4 * Z.of_nat (length l)
  <= foldl (fun score x => score + evaluate_window (w x) piece) s0 l
  <= s0 + 100 * Z.of_nat (length l).
Proof.
  pose proof (foldl_range (fun score x => score + evaluate_window (w x) piece)
    (-4) 100 l) as H.
  cbv beta in H. specialize (H ltac:(intros s x;
    pose proof (evaluate_window_range (w x) piece); lia) s0). lia.
Qed.

Lemma score_position_range (b : board) (piece : Z) :
  shape_ok b -> -180 <= score_position b piece <= 4518.
Proof.
  intros [Hlen _]. unfold score_position.
  pose proof (count_nonneg (col_array b (COLUMN_COUNT / 2)) piece) as Hc0.
  pose proof (count_le_length (col_array b (COLUMN_COUNT / 2)) piece) as Hc1.
  unfold col_array at 2 in Hc1. rewrite length_fmap, Hlen in Hc1.
  unfold ROW_COUNT in Hc1.
  generalize dependent (count (col_array b (COLUMN_COUNT / 2)) piece). intros n Hn0 Hn1.
  cbv zeta.
  match goal with
  | |- _ <= foldl ?hv (foldl ?hh ?s0 ?lh) ?lv <= _ =>
      pose proof (foldl_range hh (-16) 400 lh) as Hh;
      pose proof (foldl_range hv (-12) 300 lv) as Hv;
      cbv beta in Hh, Hv;
      specialize (Hh ltac:(intros s r;
        pose proof (foldl_windows_range
          (fun c => slice (row_array b r) c (c + WINDOW_LENGTH)) piece
          (range (COLUMN_COUNT - 3)) s) as H; simpl length in H; lia) s0);
      specialize (Hv ltac:(intros s c;
        pose proof (foldl_windows_range
          (fun r => slice (col_array b c) r (r + WINDOW_LENGTH)) piece
          (range (ROW_COUNT - 3)) s) as H; simpl length in H; lia)
        (foldl hh s0 lh))
  end.
  simpl length in Hh, Hv. lia.
Qed.

(** X8.  The heuristic is small.  [evaluate_window] lies between -4 and
    100 on every window, of any length; on a 6 x 7 grid [score_position]
    lies between -180 and 4518, far inside the two sentinels of the
    search. *)
Theorem heuristic_bounds :
  (forall window piece, -4 <= evaluate_window window piece <= 100) /\
  (forall b piece, shape_ok b ->
     -180 <= score_position b piece <= 4518 /\
     -10000000000000 < score_position b piece < 100000000000000).
Proof.
  split; [apply evaluate_window_range|].
  intros b piece Hb. pose proof (score_position_range b piece Hb). lia.
Qed.

(** ** Scores of the search *)

Lemma shape_ok_child (b : board) (col piece : Z) :
  shape_ok b -> shape_ok (child b col piece).
Proof.
  intros Hb. unfold child.
  destruct (get_next_open_row b col) as [[row|]|]; try done.
  unfold setitem.
  destruct (np_index ROW_COUNT row); [|done].
  destruct (np_index COLUMN_COUNT col); [|done]. simpl.
  destruct (fits_cell piece); [|done]. by apply shape_ok_set_cell.
Qed.

Lemma ab_max_closed (P : ext -> Prop) f b cols :
  (forall col alpha beta, P (f (child b col AI_PIECE) alpha beta)) ->
  forall value column alpha beta, P value ->
    P (ab_max f b cols value column alpha beta).2.
Proof.
  intros Hf. induction cols as [|col rest IH]; intros value column alpha beta Hv;
    cbn [ab_max]; [done|].
  destruct (ext_ltb value _); destruct (ext_leb beta _); cbn [snd];
    try done; try apply Hf; apply IH; try done; apply Hf.
Qed.

Lemma ab_min_closed (P : ext -> Prop) f b cols :
  (forall col alpha beta, P (f (child b col PLAYER_PIECE) alpha beta)) ->
  forall value column alpha beta, P value ->
    P (ab_min f b cols value column alpha beta).2.
Proof.
  intros Hf. induction cols as [|col rest IH]; intros value column alpha beta Hv;
    cbn [ab_min]; [done|].
  destruct (ext_ltb _ value); destruct (ext_leb _ alpha); cbn [snd];
    try done; try apply Hf; apply IH; try done; apply Hf.
Qed.

Section Range.

Variable leaf_score : board -> Z.
Variables lo hi : Z.
Hypothesis Hzero : lo <= 0 <= hi.
Hypothesis Hleaf : forall b, shape_ok b -> lo <= leaf_score b <= hi.

(** A score the search can return: a sentinel or a value of the heuristic. *)
Definition score_ok (x : ext) : Prop :=
  exists s, x = Fin s /\
    (s = 100000000000000 \/ s = -10000000000000 \/ lo <= s <= hi).

Lemma stop_value_ok (b : board) : shape_ok b -> score_ok (stop_value leaf_score b).
Proof.
  intros Hb. unfold stop_value, score_ok.
  destruct (is_terminal_node b).
  - destruct (winning_move b AI_PIECE); [eauto|].
    destruct (winning_move b PLAYER_PIECE); eauto 6.
  - eauto 6.
Qed.

Lemma ab_ok (n : nat) :
  forall depth alpha beta m b seed, shape_ok b ->
    score_ok (ab leaf_score n depth alpha beta m b seed).2.
Proof.
  induction n as [|n IH]; intros depth alpha beta m b seed Hb; cbn [ab].
  - by apply stop_value_ok.
  - destruct ((depth =? 0) || is_terminal_node b) eqn:Hstop; [by apply stop_value_ok|].
    apply orb_false_iff in Hstop as [_ Hterm].
    destruct (non_terminal_valid b Hterm) as [Hne _].
    destruct (get_valid_locations b) as [|col rest]; [done|].
    destruct m; cbn [snd ab_max ab_min].
    + destruct (IH (depth - 1) alpha beta false (child b col AI_PIECE) 0
        (shape_ok_child _ _ _ Hb)) as (s & Hs & Hrange).
      rewrite Hs. cbn [ext_ltb].
      destruct (ext_leb beta _); [by exists s|].
      apply ab_max_closed; [|by exists s].
      intros. apply IH. by apply shape_ok_child.
    + destruct (IH (depth - 1) alpha beta true (child b col PLAYER_PIECE) 0
        (shape_ok_child _ _ _ Hb)) as (s & Hs & Hrange).
      rewrite Hs. cbn [ext_ltb].
      destruct (ext_leb _ alpha); [by exists s|].
      apply ab_min_closed; [|by exists s].
      intros. apply IH. by apply shape_ok_child.
Qed.

End Range.

(** X9.  Every score [minimax] returns is an integer: one of the two
    sentinels, or a value within the range of the heuristic, which is far
    below the sentinels. *)
Theorem minimax_score_range (st : engine) (b : board) (fuel : nat) (depth : Z)
    (alpha beta : ext) (maximizingPlayer : bool) :
  board_of st = Some b -> shape_ok b -> (empties b < fuel)%nat ->
  exists column s st',
    minimax fuel depth alpha beta maximizingPlayer st = Some ((column, Fin s), st') /\
    (s = 100000000000000 \/ s = -10000000000000 \/ -180 <= s <= 4518).
Proof.
  intros Hb Hshape Hfuel. unfold minimax.
  destruct (minimax_with_result (fun b => score_position b AI_PIECE)
    fuel depth alpha beta maximizingPlayer st b Hb Hshape Hfuel) as (st' & Hrun & _).
  destruct (ab_ok (fun b => score_position b AI_PIECE) (-180) 4518 ltac:(lia)
    (fun b Hb => score_position_range b AI_PIECE Hb)
    (S (empties b)) depth alpha beta maximizingPlayer b 0 Hshape) as (s & Hs & Hrange).
  destruct (ab _ (S (empties b)) depth alpha beta maximizingPlayer b 0)
    as [column score]. simpl in Hs. subst score.
  by exists column, s, st'.
Qed.

Lemma minimax_score_range_witness :
  exists column s st',
    minimax 43 2 NInf PInf true (new_engine (fun _ => 0%nat))
      = Some ((column, Fin s), st') /\
    (s = 100000000000000 \/ s = -10000000000000 \/ -180 <= s <= 4518).
Proof.
  apply (minimax_score_range (new_engine (fun _ => 0%nat)) zeros_board 43 2
    NInf PInf true); [reflexivity|split; [reflexivity|repeat constructor]|vm_compute; lia].
Defined.

(** ** Depths that never reach zero *)

Lemma ab_max_ext f f' b cols :
  (forall b' alpha beta, f b' alpha beta = f' b' alpha beta) ->
  forall value column alpha beta,
    ab_max f b cols value column alpha beta = ab_max f' b cols value column alpha beta.
Proof.
  intros Hf. induction cols as [|col rest IH]; intros value column alpha beta;
    cbn [ab_max]; [done|].
  rewrite Hf. destruct (ext_ltb value _); destruct (ext_leb beta _); try done; apply IH.
Qed.

Lemma ab_min_ext f f' b cols :
  (forall b' alpha beta, f b' alpha beta = f' b' alpha beta) ->
  forall value column alpha beta,
    ab_min f b cols value column alpha beta = ab_min f' b cols value column alpha beta.
Proof.
  intros Hf. induction cols as [|col rest IH]; intros value column alpha beta;
    cbn [ab_min]; [done|].
  rewrite Hf. destruct (ext_ltb _ value); destruct (ext_leb _ alpha); try done; apply IH.
Qed.

Lemma ab_depth_free (leaf_score : board -> Z) (n : nat) :
  forall d d' alpha beta m b seed,
    d < 0 \/ Z.of_nat n <= d -> d' < 0 \/ Z.of_nat n <= d' ->
    ab leaf_score n d alpha beta m b seed = ab leaf_score n d' alpha beta m b seed.
Proof.
  induction n as [|n IH]; intros d d' alpha beta m b seed Hd Hd'; cbn [ab]; [done|].
  replace (d =? 0) with false by (symmetry; apply Z.eqb_neq; lia).
  replace (d' =? 0) with false by (symmetry; apply Z.eqb_neq; lia).
  destruct (false || is_terminal_node b); [done|].
  destruct m.
  - rewrite (ab_max_ext _
      (fun b' alpha beta => (ab leaf_score n (d' - 1) alpha beta false b' 0).2)); [done|].
    intros. f_equal. apply IH; lia.
  - rewrite (ab_min_ext _
      (fun b' alpha beta => (ab leaf_score n (d' - 1) alpha beta true b' 0).2)); [done|].
    intros. f_equal. apply IH; lia.
Qed.

(** X10.  A depth that cannot reach zero before the grid is full makes no
    difference: every negative depth, and every depth above the number of
    empty cells, gives the result of the search to the end of the game. *)
Theorem minimax_depth_beyond_game (st : engine) (b : board) (fuel : nat)
    (d d' : Z) (alpha beta : ext) (maximizingPlayer : bool) :
  board_of st = Some b -> shape_ok b -> (empties b < fuel)%nat ->
  d < 0 \/ Z.of_nat (empties b) < d -> d' < 0 \/ Z.of_nat (empties b) < d' ->
  exists column score st1 st2,
    minimax fuel d alpha beta maximizingPlayer st = Some ((column, score), st1) /\
    minimax fuel d' alpha beta maximizingPlayer st = Some ((column, score), st2).
Proof.
  intros Hb Hshape Hfuel Hd Hd'. unfold minimax.
  destruct (minimax_with_result (fun b => score_position b AI_PIECE)
    fuel d alpha beta maximizingPlayer st b Hb Hshape Hfuel) as (st1 & Hrun1 & _).
  destruct (minimax_with_result (fun b => score_position b AI_PIECE)
    fuel d' alpha beta maximizingPlayer st b Hb Hshape Hfuel) as (st2 & Hrun2 & _).
  rewrite (ab_depth_free _ (S (empties b)) d d') in Hrun1 by lia.
  destruct (ab _ (S (empties b)) d' alpha beta maximizingPlayer b 0)
    as [column score].
  by exists column, score, st1, st2.
Qed.

(** ** A win in one move *)

Lemma ext_leb_refl (x : ext) : ext_leb x x = true.
Proof. destruct x; simpl; try done. lia. Qed.

Lemma mm_max_ge_child g b cols :
  forall value column col, In col cols ->
    ext_leb (g (child b col AI_PIECE)) (mm_max g b cols value column).2 = true.
Proof.
  induction cols as [|c rest IH]; intros value column col Hin; [done|].
  cbn [mm_max]. destruct Hin as [->|Hin].
  - destruct (ext_ltb value (g (child b col AI_PIECE))) eqn:E.
    + apply mm_max_ge.
    + pose proof (mm_max_ge g b rest value column) as Hge.
      ext_order [value; g (child b col AI_PIECE); (mm_max g b rest value column).2].
  - destruct (ext_ltb value (g (child b c AI_PIECE))); by apply IH.
Qed.

Lemma mm_max_argmax g b cols :
  forall value column,
    ((mm_max g b cols value column).2 = value /\
     (mm_max g b cols value column).1 = column) \/
    (In (mm_max g b cols value column).1 cols /\
     g (child b (mm_max g b cols value column).1 AI_PIECE)
       = (mm_max g b cols value column).2).
Proof.
  induction cols as [|c rest IH]; intros value column; cbn [mm_max]; [by left|].
  destruct (ext_ltb value (g (child b c AI_PIECE))).
  - destruct (IH (g (child b c AI_PIECE)) c) as [[Hv Hc]|[Hin Hg]].
    + right. rewrite Hc, Hv. split; [by left|done].
    + right. split; [by right|done].
  - destruct (IH value column) as [[Hv Hc]|[Hin Hg]].
    + by left.
    + right. split; [by right|done].
Qed.

Definition AI_WIN : Z := 100000000000000.

Lemma stop_value_win (leaf_score : board -> Z) (b : board) :
  winning_move b AI_PIECE = true -> stop_value leaf_score b = Fin AI_WIN.
Proof.
  intros Hwin. unfold stop_value, is_terminal_node. rewrite Hwin, orb_true_r. done.
Qed.

Lemma mm_win (leaf_score : board -> Z) (n : nat) depth m b seed :
  winning_move b AI_PIECE = true ->
  (mm leaf_score n depth m b seed).2 = Fin AI_WIN.
Proof.
  intros Hwin. destruct n; cbn [mm]; [by apply stop_value_win|].
  assert (is_terminal_node b = true) as ->
    by (unfold is_terminal_node; by rewrite Hwin, orb_true_r).
  rewrite orb_true_r. by apply stop_value_win.
Qed.

Lemma mm_depth0 (leaf_score : board -> Z) (n : nat) m b seed :
  (mm leaf_score n 0 m b seed).2 = stop_value leaf_score b.
Proof. by destruct n. Qed.

(** X11.  On a grid that is not terminal, when some valid column gives the
    AI a four-in-a-row at once, the maximizing search of any depth other
    than 0 with the window (-inf, +inf) returns the AI's sentinel score and
    a valid column; at depth 1 that column wins at once. *)
Theorem minimax_takes_win (st : engine) (b : board) (fuel : nat) (depth c : Z) :
  board_of st = Some b -> shape_ok b -> (empties b < fuel)%nat ->
  is_terminal_node b = false -> depth <> 0 ->
  In c (get_valid_locations b) ->
  winning_move (child b c AI_PIECE) AI_PIECE = true ->
  exists col st',
    minimax fuel depth NInf PInf true st
      = Some ((Some col, Fin 100000000000000), st') /\
    In col (get_valid_locations b) /\
    (depth = 1 -> winning_move (child b col AI_PIECE) AI_PIECE = true).
Proof.
  intros Hb Hshape Hfuel Hterm Hdepth Hc Hwin. unfold minimax.
  set (leaf := fun b => score_position b AI_PIECE).
  destruct (minimax_with_result leaf fuel depth NInf PInf true st b Hb Hshape Hfuel)
    as (st' & Hrun & _).
  pose proof (ab_ok leaf (-180) 4518 ltac:(lia)
    (fun b Hb => score_position_range b AI_PIECE Hb)
    (S (empties b)) depth NInf PInf true b 0 Hshape) as (s & Hs & Hrange).
  rewrite ab_root in Hrun, Hs. cbn [mm] in Hrun, Hs.
  replace (depth =? 0) with false in Hrun, Hs by (symmetry; apply Z.eqb_neq; lia).
  rewrite Hterm in Hrun, Hs. cbn [orb snd] in Hrun, Hs.
  set (g := fun b' => (mm leaf (empties b) (depth - 1) false b' 0).2) in *.
  pose proof (mm_max_ge_child g b (get_valid_locations b) NInf 0 c Hc) as Hge.
  unfold g at 1 in Hge. rewrite (mm_win leaf _ _ _ _ _ Hwin) in Hge.
  rewrite Hs in Hge. cbn [ext_leb] in Hge. unfold AI_WIN in Hge.
  assert (s = 100000000000000) as -> by lia.
  destruct (mm_max_argmax g b (get_valid_locations b) NInf 0) as [[Hv _]|[Hin Hg]];
    [congruence|].
  exists (mm_max g b (get_valid_locations b) NInf 0).1, st'.
  split; [by rewrite Hrun, Hs|]. split; [done|].
  intros Hd1. rewrite Hs in Hg.
  remember (child b (mm_max g b (get_valid_locations b) NInf 0).1 AI_PIECE)
    as b' eqn:Hb'.
  assert (g b' = stop_value leaf b') as Hgb
    by (unfold g; rewrite Hd1; apply mm_depth0).
  rewrite Hgb in Hg. unfold stop_value in Hg.
  assert (shape_ok b') as Hshape' by (subst b'; by apply shape_ok_child).
  pose proof (score_position_range b' AI_PIECE Hshape') as Hr.
  destruct (is_terminal_node b').
  - destruct (winning_move b' AI_PIECE); [done|].
    destruct (winning_move b' PLAYER_PIECE); discriminate.
  - unfold leaf in Hg. injection Hg as Hg. lia.
Qed.

(** ** Grids late in a game *)

(** A grid without a four-in-a-row, with three cells still empty, and the
    same grid with one. *)
Definition late_game_board : board :=
  [ [0; 1; 2; 2; 1; 1; 0];
    [0; 2; 1; 1; 2; 2; 1];
    [1; 1; 2; 2; 1; 1; 2];
    [2; 2; 1; 1; 2; 2; 1];
    [1; 1; 2; 2; 1; 1; 2];
    [2; 2; 1; 1; 2; 2; 1] ].

Definition last_cell_board : board :=
  [ [1; 1; 2; 2; 1; 1; 0];
    [2; 2; 1; 1; 2; 2; 1];
    [1; 1; 2; 2; 1; 1; 2];
    [2; 2; 1; 1; 2; 2; 1];
    [1; 1; 2; 2; 1; 1; 2];
    [2; 2; 1; 1; 2; 2; 1] ].

(** Three tokens of each side on the bottom row, column 3 open. *)
Definition threat_board : board :=
  [ [0; 0; 0; 0; 0; 0; 0];
    [0; 0; 0; 0; 0; 0; 0];
    [0; 0; 0; 0; 0; 0; 0];
    [0; 0; 0; 0; 0; 0; 0];
    [0; 0; 0; 0; 0; 0; 0];
    [2; 2; 2; 0; 1; 1; 1] ].

Definition engine_on (b : board) : engine :=
  {| heap := [b]; self_board := 0; rng := fun _ => 0%nat |}.

Lemma minimax_takes_win_witness :
  exists col st',
    minimax 43 1 NInf PInf true (engine_on threat_board)
      = Some ((Some col, Fin 100000000000000), st') /\
    In col (get_valid_locations threat_board) /\
    (1 = 1 -> winning_move (child threat_board col AI_PIECE) AI_PIECE = true).
Proof.
  apply (minimax_takes_win (engine_on threat_board) threat_board 43 1 3);
    [reflexivity|split; [reflexivity|repeat constructor]|vm_compute; lia|
     reflexivity|lia|vm_compute; tauto|reflexivity].
Defined.

Lemma minimax_depth_beyond_game_witness :
  exists column score st1 st2,
    minimax 4 (-1) NInf PInf true (engine_on late_game_board)
      = Some ((column, score), st1) /\
    minimax 4 7 NInf PInf true (engine_on late_game_board)
      = Some ((column, score), st2).
Proof.
  apply (minimax_depth_beyond_game (engine_on late_game_board) late_game_board 4
    (-1) 7 NInf PInf true);
    [reflexivity|split; [reflexivity|repeat constructor]|vm_compute; lia|
     left; lia|right; vm_compute; reflexivity].
Defined.

(** ** Moves that lose at once *)

(** The grid after a drop into a valid column, cell by cell. *)
Lemma child_of_valid (b : board) (col piece : Z) :
  is_valid_location b col = Some true -> fits_cell piece = true ->
  exists c r, np_index COLUMN_COUNT col = Some c /\ (r < ROW_COUNT)%nat /\
    get_next_open_row b col = Some (Some (Z.of_nat r)) /\
    setitem b (Z.of_nat r) col piece = Some (child b col piece) /\
    child b col piece = set_cell b r c piece /\
    cell b r c = 0 /\
    forall r', (r < r' < ROW_COUNT)%nat -> cell b r' c <> 0.
Proof.
  intros Hvalid Hfit.
  apply get_next_open_row_valid in Hvalid as (c & r & Hc & Hrow & Hr & Hz & Hbelow).
  exists c, r. unfold child. rewrite Hrow.
  rewrite (setitem_ok b _ col piece r c); [|by apply np_index_of_nat|done|done].
  simpl. repeat split; done.
Qed.

Lemma winning_move_set_cell_other (b : board) (r c : nat) (v piece : Z) :
  shape_ok b -> (r < ROW_COUNT)%nat -> (c < COLUMN_COUNT)%nat -> v <> piece ->
  winning_move (set_cell b r c v) piece = true -> winning_move b piece = true.
Proof.
  intros Hshape Hr Hc Hv. rewrite !winning_move_scans.
  assert (forall r' c', cell (set_cell b r c v) r' c' = piece -> cell b r' c' = piece)
    as Hold.
  { intros r' c' Hcell.
    destruct (decide (r = r' /\ c = c')) as [[<- <-]|Hne].
    - rewrite cell_set_cell_eq in Hcell by done. congruence.
    - rewrite cell_set_cell_ne in Hcell by (destruct (decide (r = r')); [right|left]; naive_solver).
      done. }
  intros [H|[H|[H|H]]]; destruct H as (r0 & c0 & Hrc & H0 & H1 & H2 & H3);
    [left|right;left|right;right;left|right;right;right];
    exists r0, c0; (split; [exact Hrc|]); repeat split; by apply Hold.
Qed.

(** A token dropped for one side never completes a four-in-a-row of
    another token. *)
Lemma child_no_new_win (b : board) (col piece other : Z) :
  shape_ok b -> is_valid_location b col = Some true -> fits_cell piece = true ->
  piece <> other ->
  winning_move (child b col piece) other = true -> winning_move b other = true.
Proof.
  intros Hshape Hvalid Hfit Hne.
  destruct (child_of_valid b col piece Hvalid Hfit)
    as (c & r & Hc & Hr & _ & _ & -> & _).
  apply winning_move_set_cell_other; try done. by eapply np_index_lt.
Qed.

Lemma mm_min_le_child g b cols :
  forall value column col, In col cols ->
    ext_leb (mm_min g b cols value column).2 (g (child b col PLAYER_PIECE)) = true.
Proof.
  induction cols as [|c rest IH]; intros value column col Hin; [done|].
  cbn [mm_min]. destruct Hin as [->|Hin].
  - destruct (ext_ltb (g (child b col PLAYER_PIECE)) value) eqn:E.
    + apply mm_min_le.
    + pose proof (mm_min_le g b rest value column) as Hle.
      ext_order [value; g (child b col PLAYER_PIECE); (mm_min g b rest value column).2].
  - destruct (ext_ltb (g (child b c PLAYER_PIECE)) value); by apply IH.
Qed.

Lemma mm_min_argmin g b cols :
  forall value column,
    ((mm_min g b cols value column).2 = value /\
     (mm_min g b cols value column).1 = column) \/
    (In (mm_min g b cols value column).1 cols /\
     g (child b (mm_min g b cols value column).1 PLAYER_PIECE)
       = (mm_min g b cols value column).2).
Proof.
  induction cols as [|c rest IH]; intros value column; cbn [mm_min]; [by left|].
  destruct (ext_ltb (g (child b c PLAYER_PIECE)) value).
  - destruct (IH (g (child b c PLAYER_PIECE)) c) as [[Hv Hc]|[Hin Hg]].
    + right. rewrite Hc, Hv. split; [by left|done].
    + right. split; [by right|done].
  - destruct (IH value column) as [[Hv Hc]|[Hin Hg]].
    + by left.
    + right. split; [by right|done].
Qed.

Lemma mm_terminal (leaf_score : board -> Z) (n : nat) depth m b seed :
  is_terminal_node b = true ->
  (mm leaf_score n depth m b seed).2 = stop_value leaf_score b.
Proof. intros Ht. destruct n; cbn [mm]; [done|]. by rewrite Ht, orb_true_r. Qed.

Lemma mm_min_node (leaf_score : board -> Z) (n : nat) depth b seed :
  depth <> 0 -> is_terminal_node b = false ->
  (mm leaf_score (S n) depth false b seed).2
  = (mm_min (fun b' => (mm leaf_score n (depth - 1) true b' 0).2)
       b (get_valid_locations b) PInf seed).2.
Proof.
  intros Hd Ht. cbn [mm].
  replace (depth =? 0) with false by (symmetry; apply Z.eqb_neq; lia).
  by rewrite Ht.
Qed.

Definition PLAYER_WIN : Z := -10000000000000.

(** The scores of the engine's own search. *)
Definition engine_score (x : ext) : Prop :=
  exists s, x = Fin s /\
    (s = 100000000000000 \/ s = -10000000000000 \/ -180 <= s <= 4518).

Lemma mm_engine_score (n : nat) depth m b seed :
  shape_ok b ->
  engine_score (mm (fun b => score_position b AI_PIECE) n depth m b seed).2.
Proof.
  intros Hb. rewrite <- ab_root.
  apply (ab_ok _ (-180) 4518 ltac:(lia) (fun b Hb => score_position_range b AI_PIECE Hb)).
  done.
Qed.

Abbreviation engine_leaf := (fun b : board => score_position b AI_PIECE).

(** A position with the player to move, in which some reply completes a
    four-in-a-row of the player and the AI has none: its value is the
    player's sentinel, at every depth but 0. *)
Lemma min_node_lost (n : nat) (depth : Z) (b1 : board) (reply : Z) :
  shape_ok b1 -> depth <> 0 -> winning_move b1 AI_PIECE = false ->
  In reply (get_valid_locations b1) ->
  winning_move (child b1 reply PLAYER_PIECE) PLAYER_PIECE = true ->
  (mm engine_leaf (S n) depth false b1 0).2 = Fin PLAYER_WIN.
Proof.
  intros Hshape1 Hdepth Hai Hreply Hwin.
  destruct (valid_location_valid b1 reply Hreply) as [Hvalid1 _].
  destruct (is_terminal_node b1) eqn:Ht1.
  - rewrite mm_terminal by exact Ht1. unfold stop_value. rewrite Ht1, Hai.
    unfold is_terminal_node in Ht1. rewrite Hai in Ht1.
    destruct (winning_move b1 PLAYER_PIECE); [reflexivity|]. cbn [orb] in Ht1.
    apply Nat.eqb_eq in Ht1. destruct (get_valid_locations b1); [destruct Hreply|].
    discriminate Ht1.
  - pose proof (mm_engine_score (S n) depth false b1 0 Hshape1) as (s & Hs & Hrange).
    rewrite Hs. rewrite mm_min_node in Hs by assumption.
    pose proof (mm_min_le_child
      (fun b' => (mm engine_leaf n (depth - 1) true b' 0).2)
      b1 (get_valid_locations b1) PInf 0 reply Hreply) as Hle.
    cbv beta in Hle.
    rewrite mm_terminal in Hle
      by (unfold is_terminal_node; rewrite Hwin; reflexivity).
    unfold stop_value, is_terminal_node in Hle. rewrite Hwin in Hle. cbn [orb] in Hle.
    destruct (winning_move (child b1 reply PLAYER_PIECE) AI_PIECE) eqn:Hai2.
    { apply child_no_new_win in Hai2; [congruence|exact Hshape1|exact Hvalid1|
        reflexivity|discriminate]. }
    rewrite Hs in Hle. cbn [ext_leb] in Hle. unfold PLAYER_WIN.
    f_equal. lia.
Qed.

(** A position with the player to move in which the AI has a
    four-in-a-row, or no reply completes one of the player: searched one
    ply deep, it is worth at least the least value of the heuristic. *)
Lemma min_node_safe (n : nat) (b1 : board) :
  shape_ok b1 -> winning_move b1 PLAYER_PIECE = false ->
  (winning_move b1 AI_PIECE = false ->
   forall reply, In reply (get_valid_locations b1) ->
     winning_move (child b1 reply PLAYER_PIECE) PLAYER_PIECE = false) ->
  exists s, (mm engine_leaf (S n) 1 false b1 0).2 = Fin s /\ -180 <= s.
Proof.
  intros Hshape1 Hpl1 Hsafe.
  destruct (winning_move b1 AI_PIECE) eqn:Hai.
  { exists 100000000000000. split; [|lia].
    rewrite mm_terminal
      by (unfold is_terminal_node; rewrite Hai, orb_true_r; reflexivity).
    unfold stop_value, is_terminal_node. rewrite Hai, Hpl1. reflexivity. }
  specialize (Hsafe eq_refl).
  destruct (is_terminal_node b1) eqn:Ht1.
  { exists 0. split; [|lia]. rewrite mm_terminal by exact Ht1.
    unfold stop_value. rewrite Ht1, Hai, Hpl1. reflexivity. }
  pose proof (mm_engine_score (S n) 1 false b1 0 Hshape1) as (s & Hs & Hrange).
  exists s. split; [exact Hs|].
  rewrite mm_min_node in Hs by (assumption || discriminate).
  destruct (mm_min_argmin (fun b' => (mm engine_leaf n (1 - 1) true b' 0).2)
    b1 (get_valid_locations b1) PInf 0) as [[Hv _]|[Hin Hg]]; [congruence|].
  rewrite Hs in Hg.
  remember (mm_min (fun b' => (mm engine_leaf n (1 - 1) true b' 0).2)
    b1 (get_valid_locations b1) PInf 0).1 as reply eqn:Hreply.
  clear Hreply Hs. change (1 - 1) with 0 in Hg. rewrite mm_depth0 in Hg.
  destruct (valid_location_valid b1 reply Hin) as [Hvalid1 _].
  pose proof (Hsafe reply Hin) as Hpl2.
  assert (winning_move (child b1 reply PLAYER_PIECE) AI_PIECE = false) as Hai2.
  { destruct (winning_move (child b1 reply PLAYER_PIECE) AI_PIECE) eqn:E; [|reflexivity].
    apply child_no_new_win in E; [congruence|exact Hshape1|exact Hvalid1|
      reflexivity|discriminate]. }
  pose proof (score_position_range (child b1 reply PLAYER_PIECE) AI_PIECE
    (shape_ok_child _ _ _ Hshape1)) as Hr.
  unfold stop_value in Hg. rewrite Hai2, Hpl2 in Hg.
  destruct (is_terminal_node (child b1 reply PLAYER_PIECE)); injection Hg as <-; lia.
Qed.

(** The AI's token in column [col] lets the player win at once: it does
    not win itself, and some reply of the player completes a
    four-in-a-row. *)
Definition lets_player_win (b : board) (col : Z) : Prop :=
  winning_move (child b col AI_PIECE) AI_PIECE = false /\
  exists reply, In reply (get_valid_locations (child b col AI_PIECE)) /\
    winning_move (child (child b col AI_PIECE) reply PLAYER_PIECE) PLAYER_PIECE = true.

Lemma mm_max_node (leaf_score : board -> Z) (n : nat) depth b seed :
  depth <> 0 -> is_terminal_node b = false ->
  mm leaf_score (S n) depth true b seed
  = (Some (mm_max (fun b' => (mm leaf_score n (depth - 1) false b' 0).2)
             b (get_valid_locations b) NInf seed).1,
     (mm_max (fun b' => (mm leaf_score n (depth - 1) false b' 0).2)
        b (get_valid_locations b) NInf seed).2).
Proof.
  intros Hd Ht. cbn [mm].
  replace (depth =? 0) with false by (symmetry; apply Z.eqb_neq; lia).
  by rewrite Ht.
Qed.

(** X12.  The search does not walk into a loss in one.  On a grid that is
    not terminal, for every depth other than 0 and 1, when the maximizing
    search with the window (-inf, +inf) returns a score other than the
    player's sentinel, the column it returns does not let the player
    complete a four-in-a-row with the next token.  At depth 2 this is the
    case as soon as some valid column is free of that defect. *)
Theorem minimax_avoids_loss_in_one (st : engine) (b : board) (fuel : nat) (depth : Z) :
  board_of st = Some b -> shape_ok b -> (empties b < fuel)%nat ->
  is_terminal_node b = false -> depth <> 0 -> depth <> 1 ->
  exists col s st',
    minimax fuel depth NInf PInf true st = Some ((Some col, Fin s), st') /\
    In col (get_valid_locations b) /\
    (s <> -10000000000000 -> ~ lets_player_win b col) /\
    (depth = 2 ->
     (exists c, In c (get_valid_locations b) /\ ~ lets_player_win b c) ->
     ~ lets_player_win b col).
Proof.
  intros Hb Hshape Hfuel Hterm Hd0 Hd1. unfold minimax.
  destruct (minimax_with_result engine_leaf fuel depth NInf PInf true st b
    Hb Hshape Hfuel) as (st' & Hrun & _).
  pose proof (mm_engine_score (S (empties b)) depth true b 0 Hshape) as (s & Hs & _).
  rewrite ab_root in Hrun.
  rewrite mm_max_node in Hrun, Hs by assumption. cbn [snd] in Hs.
  destruct (non_terminal_valid b Hterm) as (Hne & Hpl & _).
  destruct (empties b) as [|n] eqn:En.
  { destruct (get_valid_locations b) as [|c l] eqn:Hl; [done|].
    destruct (child_valid b c AI_PIECE Hshape ltac:(rewrite Hl; by left)
      eq_refl ltac:(discriminate)) as (_ & _ & _ & _ & Hemp). lia. }
  destruct (mm_max_argmax (fun b' => (mm engine_leaf (S n) (depth - 1) false b' 0).2)
    b (get_valid_locations b) NInf 0) as [[Hv _]|[Hin Hg]]; [congruence|].
  rewrite Hs in Hg.
  remember (mm_max (fun b' => (mm engine_leaf (S n) (depth - 1) false b' 0).2)
    b (get_valid_locations b) NInf 0) as r eqn:Hr.
  exists r.1, s, st'. split; [by rewrite Hrun, Hs|]. split; [exact Hin|].
  assert (s <> -10000000000000 -> ~ lets_player_win b r.1) as Hpart1.
  { intros Hnot (Hai & reply & Hreply & Hwin).
    rewrite (min_node_lost n (depth - 1) _ reply) in Hg;
      [|by apply shape_ok_child|lia|exact Hai|exact Hreply|exact Hwin].
    unfold PLAYER_WIN in Hg. congruence. }
  split; [exact Hpart1|].
  intros -> (c & Hc & Hsafe). apply Hpart1.
  destruct (valid_location_valid b c Hc) as [Hvalid _].
  destruct (min_node_safe n (child b c AI_PIECE)) as (sc & Hsc & Hlow).
  - by apply shape_ok_child.
  - destruct (winning_move (child b c AI_PIECE) PLAYER_PIECE) eqn:E; [|reflexivity].
    apply child_no_new_win in E; [congruence|exact Hshape|exact Hvalid|
      reflexivity|discriminate].
  - intros Hai reply Hreply.
    destruct (winning_move (child (child b c AI_PIECE) reply PLAYER_PIECE) PLAYER_PIECE)
      eqn:E; [|reflexivity].
    exfalso. apply Hsafe. split; [exact Hai|]. by exists reply.
  - pose proof (mm_max_ge_child
      (fun b' => (mm engine_leaf (S n) (2 - 1) false b' 0).2)
      b (get_valid_locations b) NInf 0 c Hc) as Hge.
    cbv beta in Hge. change (2 - 1) with 1 in Hge. rewrite Hsc in Hge.
    change (2 - 1) with 1 in Hr. rewrite <- Hr, Hs in Hge.
    cbn [ext_leb] in Hge. lia.
Qed.

(** The player threatens to complete the bottom row in column 3. *)
Definition block_board : board :=
  [ [0; 0; 0; 0; 0; 0; 0];
    [0; 0; 0; 0; 0; 0; 0];
    [0; 0; 0; 0; 0; 0; 0];
    [0; 0; 0; 0; 0; 0; 0];
    [0; 0; 0; 0; 0; 2; 0];
    [2; 0; 0; 0; 1; 1; 1] ].

Lemma minimax_avoids_loss_in_one_witness :
  exists col s st',
    minimax 43 2 NInf PInf true (engine_on block_board)
      = Some ((Some col, Fin s), st') /\
    In col (get_valid_locations block_board) /\
    (s <> -10000000000000 -> ~ lets_player_win block_board col) /\
    (2 = 2 ->
     (exists c, In c (get_valid_locations block_board) /\
                ~ lets_player_win block_board c) ->
     ~ lets_player_win block_board col).
Proof.
  apply (minimax_avoids_loss_in_one
    (engine_on block_board)
    block_board 43 2);
    [reflexivity|split; [reflexivity|repeat constructor]|vm_compute; lia|
     reflexivity|lia|lia].
Defined.

(** On that grid the search of depth 2 blocks: it returns column 3. *)
Example minimax_blocks :
  exists s st',
    minimax 43 2 NInf PInf true (engine_on block_board)
      = Some ((Some 3, Fin s), st').
Proof. eexists _, _. vm_compute. reflexivity. Qed.

(** ** What the search leaves in the array it started on *)

(** [o'] holds every token of [o], in the same cell. *)
Definition extends (o o' : board) : Prop :=
  forall r c, cell o r c <> EMPTY -> cell o' r c = cell o r c.

Lemma extends_refl (o : board) : extends o o.
Proof. by intros r c _. Qed.

Lemma extends_trans (o1 o2 o3 : board) :
  extends o1 o2 -> extends o2 o3 -> extends o1 o3.
Proof.
  intros H12 H23 r c Hne. rewrite H23; [by apply H12|]. by rewrite H12.
Qed.

Lemma extends_child (b : board) (col piece : Z) :
  In col (get_valid_locations b) -> fits_cell piece = true ->
  extends b (child b col piece).
Proof.
  intros Hcol Hfit r c Hne.
  destruct (valid_location_valid b col Hcol) as [Hvalid _].
  destruct (child_of_valid b col piece Hvalid Hfit)
    as (c0 & r0 & _ & _ & _ & _ & -> & Hz & _).
  apply cell_set_cell_ne.
  destruct (decide (r0 = r)) as [->|]; [|by left].
  destruct (decide (c0 = c)) as [->|]; [done|by right].
Qed.

(** The token of a speculative move is on every grid that extends the
    child position, and was not on the position itself. *)
Lemma extends_child_differs (b o : board) (col piece : Z) :
  shape_ok b -> In col (get_valid_locations b) -> fits_cell piece = true ->
  piece <> EMPTY -> extends (child b col piece) o -> o <> b.
Proof.
  intros Hshape Hcol Hfit Hpiece Hext ->.
  destruct (valid_location_valid b col Hcol) as [Hvalid _].
  destruct (child_of_valid b col piece Hvalid Hfit)
    as (c0 & r0 & Hc0 & Hr0 & _ & _ & Hchild & Hz & _).
  pose proof (Hext r0 c0) as H. rewrite Hchild in H.
  rewrite cell_set_cell_eq in H; [|done|done|by eapply np_index_lt].
  specialize (H Hpiece). unfold EMPTY in Hpiece. congruence.
Qed.

(** The effect of a search on the store: besides [frame], [self.board]
    either still refers to the object it referred to or to one allocated
    since, and the object it referred to holds the tokens it held. *)
Definition touches (st st' : engine) : Prop :=
  frame st st' /\
  (self_board st' = self_board st \/ (length (heap st) <= self_board st')%nat) /\
  forall o, board_of st = Some o ->
    exists o', heap st' !! self_board st = Some o' /\ extends o o'.

Definition rec_touches (rec : M (option Z * ext)) (b' : board) : Prop :=
  forall st, board_of st = Some b' ->
    exists r st', rec st = Some (r, st') /\ board_of st' = Some b' /\ touches st st'.

(** One speculative move, with what it leaves in the object the token was
    written to. *)
Lemma speculate_store {T : Type} (piece : Z) (rec : M (option Z * ext)) (col : Z)
    (K : option Z * ext -> M T) (st : engine) (b : board) :
  board_of st = Some b -> shape_ok b -> In col (get_valid_locations b) ->
  fits_cell piece = true -> piece <> 0 ->
  rec_touches rec (child b col piece) ->
  exists r st4,
    (row ← next_open_row col; b_copy ← board_copy;
     _ ← board_setitem row col piece; r ← rec; _ ← rebind b_copy; K r) st
      = K r st4 /\
    board_of st4 = Some b /\ frame st st4 /\
    self_board st4 = length (heap st) /\
    exists o, heap st4 !! self_board st = Some o /\ extends (child b col piece) o.
Proof.
  intros Hb Hshape Hcol Hfit Hpiece Hrec.
  destruct (child_valid b col piece Hshape Hcol Hfit Hpiece)
    as (row & Hrow & Hset & _ & _).
  assert (self_board st < length (heap st))%nat as Hp
    by (eapply lookup_lt_Some; exact Hb).
  set (st1 := {| heap := heap st ++ [b]; self_board := self_board st; rng := rng st |}).
  assert (board_of st1 = Some b) as Hb1.
  { unfold board_of, st1. simpl. rewrite lookup_app_l by done. exact Hb. }
  set (st2 := put_board st1 (child b col piece)).
  assert (board_of st2 = Some (child b col piece)) as Hb2
    by (by eapply board_of_put_board).
  destruct (Hrec st2 Hb2) as (r & st3 & Hr & Hb3 & [Hlen3 Hsame3] & _ & Hold).
  destruct (Hold _ Hb2) as (o & Ho & Hext).
  exists r, {| heap := heap st3; self_board := length (heap st); rng := rng st3 |}.
  assert (length (heap st2) = S (length (heap st))) as Hlen2.
  { unfold st2, put_board, st1. simpl. rewrite length_insert, length_app. simpl. lia. }
  assert (heap st3 !! length (heap st) = Some b) as Hcopy.
  { rewrite Hsame3; [|lia|unfold st2, put_board, st1; simpl; lia].
    unfold st2, put_board, st1. simpl.
    rewrite list_lookup_insert_ne by lia.
    rewrite lookup_app_r by lia. by rewrite Nat.sub_diag. }
  split.
  - rewrite bind_eq, (next_open_row_eq _ _ _ _ Hb Hrow).
    rewrite bind_eq. unfold board_copy at 1. rewrite Hb. fold st1.
    rewrite bind_eq. unfold board_setitem at 1. rewrite Hb1, Hset. fold st2.
    rewrite bind_eq, Hr. rewrite bind_eq. reflexivity.
  - split; [exact Hcopy|]. split; [|split; [reflexivity|]].
    + split; [simpl; lia|]. simpl. intros a Ha Hne.
      rewrite Hsame3; [|lia|unfold st2, put_board, st1; simpl; lia].
      unfold st2, put_board, st1. simpl.
      rewrite list_lookup_insert_ne by lia. by rewrite lookup_app_l.
    + exists o. split; [exact Ho|exact Hext].
Qed.

(** The store after a loop over [cols]: untouched when there is no column
    to try; otherwise [self.board] refers to a copy made by the loop, and
    the object it referred to holds the first column's speculative token. *)
Definition after_loop (piece : Z) (b : board) (cols : list Z)
    (st st' : engine) : Prop :=
  board_of st' = Some b /\
  match cols with
  | [] => heap st' = heap st /\ self_board st' = self_board st
  | col :: _ =>
      frame st st' /\ (length (heap st) <= self_board st')%nat /\
      exists o, heap st' !! self_board st = Some o /\
        extends (child b col piece) o
  end.

Lemma after_loop_first (piece : Z) (b : board) (col : Z) (rest : list Z)
    (st st4 : engine) (o : board) :
  board_of st4 = Some b -> frame st st4 -> self_board st4 = length (heap st) ->
  heap st4 !! self_board st = Some o -> extends (child b col piece) o ->
  after_loop piece b (col :: rest) st st4.
Proof.
  intros Hb4 Hfr Hself Ho Hext. split; [exact Hb4|]. split; [exact Hfr|].
  split; [lia|]. by exists o.
Qed.

Lemma after_loop_next (piece : Z) (b : board) (col : Z) (rest : list Z)
    (st st4 st' : engine) (o : board) :
  board_of st = Some b ->
  board_of st4 = Some b -> frame st st4 -> self_board st4 = length (heap st) ->
  heap st4 !! self_board st = Some o -> extends (child b col piece) o ->
  after_loop piece b rest st4 st' ->
  after_loop piece b (col :: rest) st st'.
Proof.
  intros Hb Hb4 Hfr Hself Ho Hext [Hb' Hrest]. split; [exact Hb'|].
  assert (self_board st < length (heap st))%nat as Hp
    by (eapply lookup_lt_Some; exact Hb).
  destruct rest as [|col' rest].
  - destruct Hrest as [Hheap Hself']. split.
    + destruct Hfr as [Hlen Hsame]. split; [by rewrite Hheap|].
      intros a Ha Hne. rewrite Hheap. by apply Hsame.
    + split; [lia|]. exists o. by rewrite Hheap.
  - destruct Hrest as (Hfr' & Hfresh & _). split.
    + eapply frame_fresh; [exact Hfr|lia|exact Hfr'].
    + destruct Hfr as [Hlen _]. split; [lia|]. exists o. split; [|exact Hext].
      destruct Hfr' as [_ Hsame']. rewrite Hsame'; [exact Ho|lia|lia].
Qed.

Lemma after_loop_touches (piece : Z) (b : board) (cols : list Z)
    (st st' : engine) :
  board_of st = Some b ->
  (forall col, In col cols -> In col (get_valid_locations b)) ->
  fits_cell piece = true ->
  after_loop piece b cols st st' -> touches st st'.
Proof.
  intros Hb Hvalid Hfit [_ Hloop]. destruct cols as [|col rest].
  - destruct Hloop as [Hheap Hself]. split; [|split].
    + split; [by rewrite Hheap|]. intros a _ _. by rewrite Hheap.
    + by left.
    + intros o Ho. exists o. rewrite Hheap. split; [exact Ho|apply extends_refl].
  - destruct Hloop as (Hfr & Hfresh & o & Ho & Hext). split; [exact Hfr|].
    split; [by right|]. intros o0 Ho0. exists o. split; [exact Ho|].
    assert (o0 = b) as -> by congruence.
    eapply extends_trans; [|exact Hext].
    apply extends_child; [apply Hvalid; by left|exact Hfit].
Qed.

Ltac store_step piece rec col IH Hb Hshape Hvalid Hrec :=
  let Heq := fresh "Heq" in
  let r := fresh "r" in
  let st4 := fresh "st4" in
  let Hb4 := fresh "Hb4" in
  let Hfr := fresh "Hfr" in
  let Hself := fresh "Hself" in
  let o := fresh "o" in
  let Ho := fresh "Ho" in
  let Hext := fresh "Hext" in
  edestruct (speculate_store (T := Z * ext) piece rec col)
    as (r & st4 & Heq & Hb4 & Hfr & Hself & o & Ho & Hext);
    [exact Hb|exact Hshape|apply Hvalid; by left|reflexivity|done|
     apply Hrec; by left|];
  rewrite Heq; clear Heq;
  repeat match goal with
  | |- context [if ?c then _ else _] => destruct c
  end;
  try (eexists _, st4; split; [reflexivity|];
       exact (after_loop_first _ _ _ _ _ st4 o Hb4 Hfr Hself Ho Hext));
  (edestruct IH as (?r' & ?st' & -> & ?Hloop);
    [intros; apply Hvalid; by right|intros; apply Hrec; by right|exact Hb4|];
   eexists _, _; split; [reflexivity|];
   exact (after_loop_next _ _ _ _ _ st4 _ o Hb Hb4 Hfr Hself Ho Hext Hloop)).

Section Store.

Variable leaf_score : board -> Z.

Lemma max_loop_store (rec : ext -> ext -> M (option Z * ext))
    (b : board) (cols : list Z) :
  shape_ok b ->
  (forall col, In col cols -> In col (get_valid_locations b)) ->
  (forall col alpha beta, In col cols ->
     rec_touches (rec alpha beta) (child b col AI_PIECE)) ->
  forall value column alpha beta st, board_of st = Some b ->
    exists r st', max_loop rec cols value column alpha beta st = Some (r, st') /\
      after_loop AI_PIECE b cols st st'.
Proof.
  intros Hshape. induction cols as [|col rest IH];
    intros Hvalid Hrec value column alpha beta st Hb.
  - eexists _, st. split; [reflexivity|]. split; [exact Hb|]. split; reflexivity.
  - cbn [max_loop].
    store_step AI_PIECE (rec alpha beta) col IH Hb Hshape Hvalid Hrec.
Qed.

Lemma min_loop_store (rec : ext -> ext -> M (option Z * ext))
    (b : board) (cols : list Z) :
  shape_ok b ->
  (forall col, In col cols -> In col (get_valid_locations b)) ->
  (forall col alpha beta, In col cols ->
     rec_touches (rec alpha beta) (child b col PLAYER_PIECE)) ->
  forall value column alpha beta st, board_of st = Some b ->
    exists r st', min_loop rec cols value column alpha beta st = Some (r, st') /\
      after_loop PLAYER_PIECE b cols st st'.
Proof.
  intros Hshape. induction cols as [|col rest IH];
    intros Hvalid Hrec value column alpha beta st Hb.
  - eexists _, st. split; [reflexivity|]. split; [exact Hb|]. split; reflexivity.
  - cbn [min_loop].
    store_step PLAYER_PIECE (rec alpha beta) col IH Hb Hshape Hvalid Hrec.
Qed.

(** The token the side to move places. *)
Definition mover (maximizingPlayer : bool) : Z :=
  if maximizingPlayer then AI_PIECE else PLAYER_PIECE.

Lemma minimax_with_store (fuel : nat) :
  forall depth alpha beta m st b,
    board_of st = Some b -> shape_ok b -> (empties b < fuel)%nat ->
    exists r st',
      minimax_with leaf_score fuel depth alpha beta m st = Some (r, st') /\
      if (depth =? 0) || is_terminal_node b then st' = st
      else after_loop (mover m) b (get_valid_locations b) st st'.
Proof.
  induction fuel as [|fuel IH]; intros depth alpha beta m st b Hb Hshape Hfuel; [lia|].
  cbn [minimax_with]. rewrite bind_eq, (the_board_eq _ _ Hb).
  destruct ((depth =? 0) || is_terminal_node b) eqn:Hstop.
  { eexists _, st. rewrite stop_eq. split; reflexivity. }
  destruct (non_terminal_valid b) as (Hne & _); [by apply orb_false_iff in Hstop as [_ ?]|].
  destruct (random_choice_ok (get_valid_locations b) st Hne)
    as (column & st1 & Hchoice & Hheap1 & Hself1).
  assert (board_of st1 = Some b) as Hb1 by (unfold board_of; by rewrite Hheap1, Hself1).
  assert (forall piece m' col alpha beta, In col (get_valid_locations b) ->
    fits_cell piece = true -> piece <> 0 ->
    rec_touches (minimax_with leaf_score fuel (depth - 1) alpha beta m')
      (child b col piece)) as Hrec.
  { intros piece m' col a bt Hcol Hfit Hpiece st2 Hb2.
    destruct (child_valid b col piece Hshape Hcol Hfit Hpiece)
      as (_ & _ & _ & Hshape' & Hempties).
    destruct (IH (depth - 1) a bt m' st2 _ Hb2 Hshape' ltac:(lia))
      as (r & st3 & Hrun & Hafter).
    exists r, st3. split; [exact Hrun|].
    destruct ((depth - 1 =? 0) || is_terminal_node (child b col piece)).
    - subst st3. split; [exact Hb2|]. split; [apply frame_refl|].
      split; [by left|]. intros o Ho. exists o. split; [exact Ho|apply extends_refl].
    - split; [apply Hafter|].
      eapply (after_loop_touches (mover m'));
        [exact Hb2| |by destruct m'|exact Hafter]; done. }
  assert (forall piece st', after_loop piece b (get_valid_locations b) st1 st' ->
    after_loop piece b (get_valid_locations b) st st') as Hback.
  { intros piece st' [Hb' Hloop]. split; [exact Hb'|].
    destruct (get_valid_locations b); [done|].
    destruct Hloop as ([Hlen Hsame] & Hfresh & o & Ho & Hext).
    rewrite Hheap1 in Hlen, Hsame, Hfresh. rewrite Hself1 in Hsame, Ho.
    split; [split; [exact Hlen|exact Hsame]|]. split; [exact Hfresh|]. by exists o. }
  destruct m; rewrite bind_eq, Hchoice, bind_eq.
  - edestruct (max_loop_store
      (fun alpha beta => minimax_with leaf_score fuel (depth - 1) alpha beta false)
      b (get_valid_locations b) Hshape) as (r & st' & -> & Hloop);
      [done|intros; by apply Hrec|exact Hb1|].
    eexists _, st'. split; [reflexivity|]. by apply Hback.
  - edestruct (min_loop_store
      (fun alpha beta => minimax_with leaf_score fuel (depth - 1) alpha beta true)
      b (get_valid_locations b) Hshape) as (r & st' & -> & Hloop);
      [done|intros; by apply Hrec|exact Hb1|].
    eexists _, st'. split; [reflexivity|]. by apply Hback.
Qed.

End Store.

(** X13.  The undo of the search rebinds, it does not restore in place.  A
    search that stops at once (depth 0 or a terminal grid) leaves the
    store untouched.  Any other search ends with [self.board] referring to
    an array allocated during the search that holds the grid from before,
    while the array [self.board] referred to on entry, the one passed as
    the argument [board], is left changed: it holds every token it held
    and, on top, the token of the side to move in the first valid column.
    Every other array that existed keeps its contents. *)
Theorem minimax_rebinds_board (st : engine) (b : board) (fuel : nat) (depth : Z)
    (alpha beta : ext) (maximizingPlayer : bool) :
  board_of st = Some b -> shape_ok b -> (empties b < fuel)%nat ->
  exists r st',
    minimax fuel depth alpha beta maximizingPlayer st = Some (r, st') /\
    board_of st' = Some b /\
    (depth = 0 \/ is_terminal_node b = true -> st' = st) /\
    (depth <> 0 -> is_terminal_node b = false ->
       (length (heap st) <= self_board st')%nat /\
       (forall a, (a < length (heap st))%nat -> a <> self_board st ->
          heap st' !! a = heap st !! a) /\
       exists o col,
         head (get_valid_locations b) = Some col /\
         heap st' !! self_board st = Some o /\
         extends (child b col (mover maximizingPlayer)) o /\ o <> b).
Proof.
  intros Hb Hshape Hfuel. unfold minimax.
  destruct (minimax_with_store (fun b => score_position b AI_PIECE) fuel depth
    alpha beta maximizingPlayer st b Hb Hshape Hfuel) as (r & st' & Hrun & Hafter).
  exists r, st'. split; [exact Hrun|].
  destruct ((depth =? 0) || is_terminal_node b) eqn:Hstop.
  - subst st'. split; [exact Hb|]. split; [done|]. intros Hd Ht.
    apply orb_true_iff in Hstop as [Hz|Ht']; [|congruence].
    apply Z.eqb_eq in Hz. contradiction.
  - apply orb_false_iff in Hstop as [Hd Ht]. apply Z.eqb_neq in Hd.
    destruct Hafter as [Hb' Hloop]. split; [exact Hb'|]. split.
    { intros [?|?]; [contradiction|congruence]. }
    intros _ _.
    destruct (get_valid_locations b) as [|col rest] eqn:Hcols.
    { destruct (non_terminal_valid b Ht) as [Hne _]. contradiction. }
    destruct Hloop as ([_ Hsame] & Hfresh & o & Ho & Hext).
    split; [exact Hfresh|]. split; [exact Hsame|].
    exists o, col. split; [reflexivity|]. split; [exact Ho|]. split; [exact Hext|].
    apply (extends_child_differs b o col (mover maximizingPlayer));
      [exact Hshape|rewrite Hcols; by left|by destruct maximizingPlayer|
       by destruct maximizingPlayer|exact Hext].
Qed.

Lemma minimax_rebinds_board_witness :
  exists r st',
    minimax 43 1 NInf PInf true (engine_on threat_board) = Some (r, st') /\
    board_of st' = Some threat_board /\
    (1 = 0 \/ is_terminal_node threat_board = true -> st' = engine_on threat_board) /\
    (1 <> 0 -> is_terminal_node threat_board = false ->
       (length (heap (engine_on threat_board)) <= self_board st')%nat /\
       (forall a, (a < length (heap (engine_on threat_board)))%nat ->
          a <> self_board (engine_on threat_board) ->
          heap st' !! a = heap (engine_on threat_board) !! a) /\
       exists o col,
         head (get_valid_locations threat_board) = Some col /\
         heap st' !! self_board (engine_on threat_board) = Some o /\
         extends (child threat_board col (mover true)) o /\ o <> threat_board).
Proof.
  apply (minimax_rebinds_board (engine_on threat_board) threat_board 43 1
    NInf PInf true);
    [reflexivity|split; [reflexivity|repeat constructor]|vm_compute; lia].
Defined.

(** * main.py: the sessions and the move endpoint *)

(** What a handler gives back: a response, or a raised [HTTPException]. *)
Inductive http (A : Type) : Type :=
  | Returned (a : A)
  | HTTPException (status_code : Z) (detail : string).
Arguments Returned {A} a.
Arguments HTTPException {A} status_code detail.

(** [schemas.Persona]; the fields of prompt text are not read by the
    handlers below and are left out. *)
Record Persona : Type := {
  persona_id : string;
  persona_name : string
}.

(** [PERSONAS] *)
Definition PERSONAS : gmap string Persona :=
  {[ "grandmaster"%string :=
       {| persona_id := "grandmaster"; persona_name := "The Retired Grandmaster" |};
     "grieving_father"%string :=
       {| persona_id := "grieving_father"; persona_name := "The Distant Father" |} ]}.

(** [schemas.GameStateResponse] *)
Record GameStateResponse : Type := {
  session_id : string;
  board_state : board;
  game_over : bool;
  winner : option Z;
  current_persona : string
}.

(** An entry of [sessions]: the engine (its array objects and the address
    behind [engine.board]), the persona, and the chat fields. *)
Record session : Type := {
  engine_heap : list board;
  engine_board : nat;
  persona : Persona;
  history : list string;
  sympathy_score : Z;
  hard_mode : bool
}.

(** The process: the [sessions] dictionary, the identifiers [uuid4] will
    produce, and the state of the module [random]. *)
Record server : Type := {
  sessions : gmap string session;
  uuids : nat -> string;
  random_state : nat -> nat
}.

Definition engine_of (s : session) (g : nat -> nat) : engine :=
  {| heap := engine_heap s; self_board := engine_board s; rng := g |}.

(** The session whose engine went from its old state to [st]. *)
Definition with_engine (s : session) (st : engine) : session :=
  {| engine_heap := heap st; engine_board := self_board st;
     persona := persona s; history := history s;
     sympathy_score := sympathy_score s; hard_mode := hard_mode s |}.

Definition store_session (srv : server) (sid : string) (s : session)
    (st : engine) : server :=
  {| sessions := <[sid := with_engine s st]> (sessions srv);
     uuids := uuids srv; random_state := rng st |}.

(** [_build_response] *)
Definition _build_response (sid : string) (s : session) (st : engine)
    (game_over : bool) (winner : option Z) : option GameStateResponse :=
  b ← board_of st;
  Some {| session_id := sid; board_state := b; game_over := game_over;
          winner := winner; current_persona := persona_name (persona s) |}.

(** The statements of [make_move] that act on the engine.  The answer
    [None] is the rejected move (status 400); otherwise the flags
    [game_over] and [winner] of the response. *)
Definition make_move_engine (fuel : nat) (column : Z) : M (option (bool * option Z)) :=
  b ← the_board;
  (* 1. USER MOVE *)
  match is_valid_location b column with
  | None => raise
  | Some false => mret None
  | Some true =>
      row ← next_open_row column;
      _ ← drop_piece row column PLAYER_PIECE;
      b ← the_board;
      if winning_move b PLAYER_PIECE then mret (Some (true, Some 1))
      else
        (* 2. AI MOVE (Standard Minimax) *)
        r ← minimax fuel 5 NInf PInf true;
        match r.1 with
        | Some col =>
            row ← next_open_row col;
            _ ← drop_piece row col AI_PIECE;
            b ← the_board;
            if winning_move b AI_PIECE then mret (Some (true, Some 2))
            else mret (Some (false, None))
        | None => mret (Some (false, None))
        end
  end.

(** [make_move] *)
Definition make_move (fuel : nat) (sid : string) (column : Z) (srv : server)
    : option (http GameStateResponse * server) :=
  match sessions srv !! sid with
  | None => Some (HTTPException 404 "Session not found", srv)
  | Some s =>
      match make_move_engine fuel column (engine_of s (random_state srv)) with
      | None => None
      | Some (None, st) =>
          Some (HTTPException 400 "Invalid Move", store_session srv sid s st)
      | Some (Some (game_over, winner), st) =>
          r ← _build_response sid s st game_over winner;
          Some (Returned r, store_session srv sid s st)
      end
  end.

(** [start_game] *)
Definition start_game (persona_id : string) (hard_mode : bool) (srv : server)
    : http GameStateResponse * server :=
  let session_id := uuids srv 0%nat in
  let srv := {| sessions := sessions srv; uuids := fun k => uuids srv (S k);
                random_state := random_state srv |} in
  let engine := new_engine (random_state srv) in
  match PERSONAS !! persona_id with
  | None => (HTTPException 404 "Persona not found", srv)
  | Some p =>
      let s := {| engine_heap := heap engine; engine_board := self_board engine;
                  persona := p; history := []; sympathy_score := 0;
                  hard_mode := hard_mode |} in
      (Returned {| session_id := session_id; board_state := zeros_board;
                   game_over := false; winner := None;
                   current_persona := persona_name p |},
       {| sessions := <[session_id := s]> (sessions srv); uuids := uuids srv;
          random_state := random_state srv |})
  end.

(** ** A move on the engine *)

(** The drop of a token into a valid column, followed by [K]. *)
Lemma drop_step {T : Type} (K : M T) (st : engine) (b : board) (col piece : Z) :
  board_of st = Some b -> is_valid_location b col = Some true ->
  fits_cell piece = true ->
  (row ← next_open_row col; _ ← drop_piece row col piece; K) st
  = K (put_board st (child b col piece)).
Proof.
  intros Hb Hvalid Hfit.
  destruct (child_of_valid b col piece Hvalid Hfit)
    as (c & r & Hc & Hr & Hrow & Hset & _).
  rewrite bind_eq, (next_open_row_eq _ _ _ _ Hb Hrow), bind_eq.
  unfold drop_piece, board_setitem. by rewrite Hb, Hset.
Qed.

(** The flags of the response and the grid after a move in a valid column,
    read off the grid before it. *)
Definition move_outcome (b : board) (column : Z) : (bool * option Z) * board :=
  let b1 := child b column PLAYER_PIECE in
  if winning_move b1 PLAYER_PIECE then ((true, Some 1), b1)
  else
    match (ab (fun b => score_position b AI_PIECE) (S (empties b1)) 5
             NInf PInf true b1 0).1 with
    | None => ((false, None), b1)
    | Some col =>
        let b2 := child b1 col AI_PIECE in
        if winning_move b2 AI_PIECE then ((true, Some 2), b2)
        else ((false, None), b2)
    end.

Lemma make_move_engine_valid (fuel : nat) (column : Z) (st : engine) (b : board) :
  board_of st = Some b -> shape_ok b -> (empties b <= fuel)%nat ->
  is_valid_location b column = Some true ->
  exists st',
    make_move_engine fuel column st = Some (Some (move_outcome b column).1, st') /\
    board_of st' = Some (move_outcome b column).2.
Proof.
  intros Hb Hshape Hfuel Hvalid. unfold make_move_engine, move_outcome.
  rewrite bind_eq, (the_board_eq _ _ Hb), Hvalid.
  rewrite (drop_step _ st b column PLAYER_PIECE Hb Hvalid eq_refl).
  set (b1 := child b column PLAYER_PIECE).
  assert (board_of (put_board st b1) = Some b1) as Hb1 by (by eapply board_of_put_board).
  rewrite bind_eq, (the_board_eq _ _ Hb1).
  destruct (child_of_valid b column PLAYER_PIECE Hvalid eq_refl)
    as (c & r & Hc & Hr & _ & _ & Hcell & Hz & _).
  assert (shape_ok b1) as Hshape1 by (unfold b1; rewrite Hcell; by apply shape_ok_set_cell).
  assert (S (empties b1) = empties b) as Hemp.
  { unfold b1. rewrite Hcell. apply empties_set_cell; try done.
    by eapply np_index_lt. }
  destruct (winning_move b1 PLAYER_PIECE).
  { eexists. split; [reflexivity|done]. }
  destruct (minimax_with_result (fun b => score_position b AI_PIECE) fuel 5
    NInf PInf true (put_board st b1) b1 Hb1 Hshape1 ltac:(lia)) as (st2 & Hrun & Hb2).
  rewrite bind_eq. unfold minimax. rewrite Hrun. cbn [fst].
  destruct (ab_column (fun b => score_position b AI_PIECE) (empties b1) 5
    NInf PInf true b1 0) as [_ Hsome].
  destruct (ab _ (S (empties b1)) 5 NInf PInf true b1 0).1 as [col|].
  - destruct (valid_location_valid b1 col (Hsome col eq_refl)) as [Hvalid2 _].
    rewrite (drop_step _ st2 b1 col AI_PIECE Hb2 Hvalid2 eq_refl).
    set (b2 := child b1 col AI_PIECE).
    assert (board_of (put_board st2 b2) = Some b2) as Hb3
      by (by eapply board_of_put_board).
    rewrite bind_eq, (the_board_eq _ _ Hb3).
    destruct (winning_move b2 AI_PIECE); eexists; (split; [reflexivity|done]).
  - eexists. split; [reflexivity|done].
Qed.

Lemma make_move_engine_invalid (fuel : nat) (column : Z) (st : engine) (b : board) :
  board_of st = Some b ->
  (is_valid_location b column = Some false ->
     make_move_engine fuel column st = Some (None, st)) /\
  (is_valid_location b column = None -> make_move_engine fuel column st = None).
Proof.
  intros Hb. unfold make_move_engine.
  rewrite bind_eq, (the_board_eq _ _ Hb). by split; intros ->.
Qed.

(** What a move does to the grid. *)
Record grid_step (b b' : board) : Prop := {
  step_shape : shape_ok b';
  step_gravity : gravity b -> gravity b';
  step_kept : forall r c, cell b r c <> EMPTY -> cell b' r c = cell b r c;
  step_empties : S (empties b') = empties b
}.

Lemma grid_step_child (b : board) (col piece : Z) :
  shape_ok b -> is_valid_location b col = Some true ->
  fits_cell piece = true -> piece <> 0 ->
  grid_step b (child b col piece).
Proof.
  intros Hshape Hvalid Hfit Hpiece.
  destruct (child_of_valid b col piece Hvalid Hfit)
    as (c & r & Hc & Hr & _ & _ & -> & Hz & Hbelow).
  split.
  - by apply shape_ok_set_cell.
  - intros Hg. by apply gravity_set_cell.
  - intros r' c' Hne. apply cell_set_cell_ne. unfold EMPTY in Hne.
    destruct (decide (r = r')) as [<-|]; [|by left].
    destruct (decide (c = c')) as [<-|]; [congruence|by right].
  - apply empties_set_cell; try done. by eapply np_index_lt.
Qed.

Lemma move_outcome_facts (b : board) (column : Z) :
  shape_ok b -> is_valid_location b column = Some true ->
  let b1 := child b column PLAYER_PIECE in
  let o := move_outcome b column in
  grid_step b b1 /\
  (o.2 = b1 \/ exists col, In col (get_valid_locations b1) /\
                 o.2 = child b1 col AI_PIECE /\ grid_step b1 o.2) /\
  (winning_move b1 PLAYER_PIECE = true -> o = ((true, Some 1), b1)) /\
  (winning_move b1 PLAYER_PIECE = false -> is_terminal_node b1 = true ->
     o = ((false, None), b1)) /\
  (winning_move b1 PLAYER_PIECE = false -> is_terminal_node b1 = false ->
     exists col, In col (get_valid_locations b1) /\ o.2 = child b1 col AI_PIECE /\
       o.1 = (if winning_move o.2 AI_PIECE then (true, Some 2) else (false, None))).
Proof.
  intros Hshape Hvalid b1 o.
  pose proof (grid_step_child b column PLAYER_PIECE Hshape Hvalid eq_refl
    ltac:(discriminate)) as Hstep1.
  fold b1 in Hstep1. split; [done|].
  unfold o, move_outcome. fold b1.
  destruct (ab_column (fun b => score_position b AI_PIECE) (empties b1) 5
    NInf PInf true b1 0) as [Hnone Hsome].
  destruct (winning_move b1 PLAYER_PIECE) eqn:Hwin.
  { split; [by left|]. repeat split; done. }
  destruct (ab _ (S (empties b1)) 5 NInf PInf true b1 0).1 as [col|] eqn:Hcol.
  - specialize (Hsome col eq_refl).
    destruct (valid_location_valid b1 col Hsome) as [Hvalid2 _].
    pose proof (grid_step_child b1 col AI_PIECE (step_shape _ _ Hstep1) Hvalid2
      eq_refl ltac:(discriminate)) as Hstep2.
    assert (is_terminal_node b1 = false) as Hterm.
    { destruct (is_terminal_node b1) eqn:Ht; [|done].
      discriminate (proj2 Hnone (or_intror eq_refl)). }
    split.
    { right. exists col. destruct (winning_move _ AI_PIECE); done. }
    split; [done|]. split; [by rewrite Hterm|].
    intros _ _. exists col. destruct (winning_move (child b1 col AI_PIECE) AI_PIECE) eqn:Hw;
      cbn [fst snd]; rewrite ?Hw; done.
  - split; [by left|]. split; [done|]. split; [done|].
    intros _ Hterm. destruct (proj1 Hnone eq_refl) as [?|?]; [lia|congruence].
Qed.

(** ** The move endpoint *)

(** The grid of a session. *)
Definition grid_of (srv : server) (sid : string) : option board :=
  s ← sessions srv !! sid; engine_heap s !! engine_board s.

Lemma with_engine_same (s : session) (g : nat -> nat) :
  with_engine s (engine_of s g) = s.
Proof. by destruct s. Qed.

Lemma store_session_same (srv : server) (sid : string) (s : session) :
  sessions srv !! sid = Some s ->
  store_session srv sid s (engine_of s (random_state srv)) = srv.
Proof.
  intros Hs. destruct srv as [m u g]. unfold store_session. simpl in *.
  rewrite with_engine_same. by rewrite insert_id.
Qed.

Lemma grid_of_store_session (srv : server) (sid : string) (s : session) (st : engine) :
  grid_of (store_session srv sid s st) sid = board_of st.
Proof. unfold grid_of, store_session. simpl. by rewrite lookup_insert_eq. Qed.

(** A rejected move comes from the validity test and leaves the engine as
    it was. *)
Lemma make_move_engine_rejected (fuel : nat) (column : Z) (st st' : engine) :
  make_move_engine fuel column st = Some (None, st') ->
  st' = st /\ exists b, board_of st = Some b /\ is_valid_location b column = Some false.
Proof.
  unfold make_move_engine. rewrite bind_eq. unfold the_board.
  destruct (board_of st) as [b|] eqn:Hb; [|done].
  destruct (is_valid_location b column) as [[|]|] eqn:Hvalid; [|intros [= <-]; eauto|done].
  intros H. exfalso.
  repeat match type of H with
  | (_ ≫= _) _ = _ => rewrite bind_eq in H
  | match ?x with _ => _ end = _ => destruct x as [[? ?]|] eqn:?
  | match ?x with _ => _ end _ = _ => destruct x eqn:?
  | (if ?c then _ else _) _ = _ => destruct c eqn:?
  | mret _ _ = _ => rewrite ret_eq in H
  end; try discriminate.
Qed.

(** X14.  A move that is refused changes nothing: when [make_move] raises
    an [HTTPException], the server is as before; the status is 404 for an
    unknown session and 400 for a column whose top cell is occupied. *)
Theorem make_move_refusal (fuel : nat) (sid : string) (column : Z)
    (srv srv' : server) (status_code : Z) (detail : string) :
  make_move fuel sid column srv = Some (HTTPException status_code detail, srv') ->
  srv' = srv /\
  ((status_code = 404 /\ sessions srv !! sid = None) \/
   (status_code = 400 /\ exists b, grid_of srv sid = Some b /\
      is_valid_location b column = Some false)).
Proof.
  unfold make_move. destruct (sessions srv !! sid) as [s|] eqn:Hs.
  - destruct (make_move_engine fuel column (engine_of s (random_state srv)))
      as [[[[go w]|] st]|] eqn:Hrun; [| |done].
    + destruct (_build_response sid s st go w); done.
    + apply make_move_engine_rejected in Hrun as (-> & b & Hb & Hvalid).
      intros [= <- <- <-]. split; [by apply store_session_same|].
      right. split; [done|]. exists b. split; [|done].
      unfold grid_of. by rewrite Hs.
  - intros [= <- <- <-]. split; [done|]. by left.
Qed.

(** X15.  A move in one session never touches another session: whatever
    [make_move] answers, every other entry of [sessions] is as before. *)
Theorem make_move_other_sessions (fuel : nat) (sid sid' : string) (column : Z)
    (srv srv' : server) (r : http GameStateResponse) :
  make_move fuel sid column srv = Some (r, srv') -> sid' <> sid ->
  sessions srv' !! sid' = sessions srv !! sid'.
Proof.
  unfold make_move. intros Hrun Hne.
  destruct (sessions srv !! sid) as [s|] eqn:Hs; [|by injection Hrun as <- <-].
  destruct (make_move_engine fuel column (engine_of s (random_state srv)))
    as [[[[go w]|] st]|]; [| |done].
  - destruct (_build_response sid s st go w); [|done].
    injection Hrun as <- <-. simpl. by rewrite lookup_insert_ne.
  - injection Hrun as <- <-. simpl. by rewrite lookup_insert_ne.
Qed.

(** An accepted move, in full. *)
Lemma make_move_valid (fuel : nat) (sid : string) (column : Z) (srv : server)
    (s : session) (b : board) :
  sessions srv !! sid = Some s -> grid_of srv sid = Some b -> shape_ok b ->
  (empties b <= fuel)%nat -> is_valid_location b column = Some true ->
  exists srv',
    make_move fuel sid column srv
      = Some (Returned {| session_id := sid;
                          board_state := (move_outcome b column).2;
                          game_over := (move_outcome b column).1.1;
                          winner := (move_outcome b column).1.2;
                          current_persona := persona_name (persona s) |}, srv') /\
    grid_of srv' sid = Some (move_outcome b column).2.
Proof.
  intros Hs Hb Hshape Hfuel Hvalid. unfold make_move. rewrite Hs.
  unfold grid_of in Hb. rewrite Hs in Hb. simpl in Hb.
  destruct (make_move_engine_valid fuel column (engine_of s (random_state srv)) b
    Hb Hshape Hfuel Hvalid) as (st' & -> & Hb').
  destruct (move_outcome b column) as [[go w] b'] eqn:Ho. cbn [fst snd] in *.
  unfold _build_response. rewrite Hb'. simpl.
  eexists. split; [reflexivity|]. by rewrite grid_of_store_session.
Qed.

(** X16.  An accepted move: for a known session, a grid with an empty top
    cell in the column and enough fuel, [make_move] answers with a response
    whose [board_state] is the session's new grid.  The player's token sits
    on the lowest empty cell of the column, every token that was on the
    grid is still there, one or two cells were filled, and a grid without
    floating tokens has none afterwards. *)
Theorem make_move_accepted (fuel : nat) (sid : string) (column : Z) (srv : server)
    (s : session) (b : board) :
  sessions srv !! sid = Some s -> grid_of srv sid = Some b -> shape_ok b ->
  (empties b <= fuel)%nat -> is_valid_location b column = Some true ->
  exists r srv' b',
    make_move fuel sid column srv = Some (Returned r, srv') /\
    session_id r = sid /\ board_state r = b' /\ grid_of srv' sid = Some b' /\
    shape_ok b' /\ (gravity b -> gravity b') /\
    (forall r c, cell b r c <> EMPTY -> cell b' r c = cell b r c) /\
    (S (empties b') = empties b \/ S (S (empties b')) = empties b) /\
    (exists c r0, np_index COLUMN_COUNT column = Some c /\ (r0 < ROW_COUNT)%nat /\
       cell b r0 c = EMPTY /\ cell b' r0 c = PLAYER_PIECE /\
       forall r', (r0 < r' < ROW_COUNT)%nat -> cell b r' c <> EMPTY).
Proof.
  intros Hs Hb Hshape Hfuel Hvalid.
  destruct (make_move_valid fuel sid column srv s b Hs Hb Hshape Hfuel Hvalid)
    as (srv' & Hrun & Hb').
  destruct (move_outcome_facts b column Hshape Hvalid) as (Hstep1 & Hgrid & _).
  destruct (child_of_valid b column PLAYER_PIECE Hvalid eq_refl)
    as (c & r0 & Hc & Hr0 & _ & _ & Hcell & Hz & Hbelow).
  assert (cell (child b column PLAYER_PIECE) r0 c = PLAYER_PIECE) as Hplayer.
  { rewrite Hcell. apply cell_set_cell_eq; [done|done|by eapply np_index_lt]. }
  eexists _, srv', _. split; [exact Hrun|]. cbn [session_id board_state].
  split; [done|]. split; [done|]. split; [done|].
  destruct Hgrid as [->|(col & _ & -> & Hstep2)].
  - destruct Hstep1 as [H1 H2 H3 H4].
    split; [done|]. split; [done|]. split; [done|]. split; [by left|].
    exists c, r0. repeat split; done.
  - destruct Hstep1 as [H1 H2 H3 H4]. destruct Hstep2 as [K1 K2 K3 K4].
    split; [done|]. split; [by intros; apply K2, H2|].
    split.
    { intros r c' Hne. rewrite K3; [by apply H3|]. by rewrite H3. }
    split; [right; lia|].
    exists c, r0. repeat split; try done.
    rewrite K3; [done|]. rewrite Hplayer. discriminate.
Qed.

(** X17.  The flags of the response.  If the player's token completes a
    four-in-a-row, the game is over with winner 1 and the AI does not
    move.  A winner 1 (or 2) means the player's (or the AI's) token has a
    four-in-a-row on the returned grid, and [game_over] is set exactly
    when there is a winner. *)
Theorem make_move_flags (fuel : nat) (sid : string) (column : Z) (srv : server)
    (s : session) (b : board) :
  sessions srv !! sid = Some s -> grid_of srv sid = Some b -> shape_ok b ->
  (empties b <= fuel)%nat -> is_valid_location b column = Some true ->
  exists r srv',
    make_move fuel sid column srv = Some (Returned r, srv') /\
    (winning_move (child b column PLAYER_PIECE) PLAYER_PIECE = true ->
       game_over r = true /\ winner r = Some 1 /\
       board_state r = child b column PLAYER_PIECE) /\
    (winner r = Some 1 -> winning_move (board_state r) PLAYER_PIECE = true) /\
    (winner r = Some 2 -> winning_move (board_state r) AI_PIECE = true) /\
    (game_over r = true <-> winner r <> None) /\
    (winner r = None \/ winner r = Some 1 \/ winner r = Some 2).
Proof.
  intros Hs Hb Hshape Hfuel Hvalid.
  destruct (make_move_valid fuel sid column srv s b Hs Hb Hshape Hfuel Hvalid)
    as (srv' & Hrun & _).
  destruct (move_outcome_facts b column Hshape Hvalid)
    as (_ & _ & Hwin & Hterm & Hplay).
  eexists _, srv'. split; [exact Hrun|]. cbn [game_over winner board_state].
  destruct (winning_move (child b column PLAYER_PIECE) PLAYER_PIECE) eqn:Hw.
  { rewrite (Hwin eq_refl). cbn [fst snd]. rewrite Hw.
    repeat split; try done. by right; left. }
  split; [done|].
  destruct (is_terminal_node (child b column PLAYER_PIECE)) eqn:Ht.
  { rewrite (Hterm eq_refl eq_refl). cbn [fst snd].
    repeat split; try done. by left. }
  destruct (Hplay eq_refl eq_refl) as (col & _ & Ho2 & Ho1).
  rewrite Ho1.
  destruct (winning_move (move_outcome b column).2 AI_PIECE) eqn:Hai; cbn [fst snd].
  - repeat split; try done. by right; right.
  - repeat split; try done. by left.
Qed.

(** X18.  The AI answers exactly when the grid with the player's token is
    not terminal.  If that grid is terminal without a four-in-a-row of the
    player (it is full, or the AI already had a four-in-a-row), no AI token
    is placed and the response says [game_over] false and no winner. *)
Theorem make_move_end_of_game (fuel : nat) (sid : string) (column : Z)
    (srv : server) (s : session) (b : board) :
  sessions srv !! sid = Some s -> grid_of srv sid = Some b -> shape_ok b ->
  (empties b <= fuel)%nat -> is_valid_location b column = Some true ->
  winning_move (child b column PLAYER_PIECE) PLAYER_PIECE = false ->
  exists r srv',
    make_move fuel sid column srv = Some (Returned r, srv') /\
    (is_terminal_node (child b column PLAYER_PIECE) = true ->
       game_over r = false /\ winner r = None /\
       board_state r = child b column PLAYER_PIECE) /\
    (is_terminal_node (child b column PLAYER_PIECE) = false ->
       S (S (empties (board_state r))) = empties b /\
       exists col, In col (get_valid_locations (child b column PLAYER_PIECE)) /\
         board_state r = child (child b column PLAYER_PIECE) col AI_PIECE).
Proof.
  intros Hs Hb Hshape Hfuel Hvalid Hw.
  destruct (make_move_valid fuel sid column srv s b Hs Hb Hshape Hfuel Hvalid)
    as (srv' & Hrun & _).
  destruct (move_outcome_facts b column Hshape Hvalid)
    as (Hstep1 & _ & _ & Hterm & Hplay).
  eexists _, srv'. split; [exact Hrun|]. cbn [game_over winner board_state].
  split.
  - intros Ht. by rewrite (Hterm Hw Ht).
  - intros Ht. destruct (Hplay Hw Ht) as (col & Hcol & Ho2 & _).
    split; [|by exists col].
    destruct (valid_location_valid _ col Hcol) as [Hvalid2 _].
    pose proof (grid_step_child _ col AI_PIECE (step_shape _ _ Hstep1) Hvalid2
      eq_refl ltac:(discriminate)) as Hstep2.
    rewrite Ho2. rewrite (step_empties _ _ Hstep2). apply (step_empties _ _ Hstep1).
Qed.

(** ** Columns counted from the right, and columns off the grid *)

Lemma np_index_wrap (n : nat) (i : Z) :
  - Z.of_nat n <= i < 0 -> np_index n i = np_index n (i + Z.of_nat n).
Proof.
  intros Hi. unfold np_index.
  replace ((0 <=? i) && (i <? Z.of_nat n)) with false
    by (symmetry; apply andb_false_iff; lia).
  replace ((- Z.of_nat n <=? i) && (i <? 0)) with true
    by (symmetry; apply andb_true_iff; lia).
  replace ((0 <=? i + Z.of_nat n) && (i + Z.of_nat n <? Z.of_nat n)) with true
    by (symmetry; apply andb_true_iff; lia).
  done.
Qed.

Lemma np_index_outside (n : nat) (i : Z) :
  i < - Z.of_nat n \/ Z.of_nat n <= i -> np_index n i = None.
Proof.
  intros Hi. unfold np_index.
  replace ((0 <=? i) && (i <? Z.of_nat n)) with false
    by (symmetry; apply andb_false_iff; lia).
  replace ((- Z.of_nat n <=? i) && (i <? 0)) with false
    by (symmetry; apply andb_false_iff; lia).
  done.
Qed.

Lemma make_move_engine_wrap (fuel : nat) (column : Z) (st : engine) :
  -7 <= column < 0 ->
  make_move_engine fuel column st = make_move_engine fuel (column + 7) st.
Proof.
  intros Hcol.
  pose proof (np_index_wrap COLUMN_COUNT column ltac:(unfold COLUMN_COUNT; lia)) as Hwrap.
  change (Z.of_nat COLUMN_COUNT) with 7 in Hwrap.
  assert (forall b, is_valid_location b column = is_valid_location b (column + 7))
    as Hvalid by (intros; unfold is_valid_location; by rewrite Hwrap).
  assert (forall b piece, child b column piece = child b (column + 7) piece) as Hchild
    by (intros; unfold child, get_next_open_row, setitem; by rewrite Hwrap).
  unfold make_move_engine. rewrite !bind_eq. unfold the_board.
  destruct (board_of st) as [b|] eqn:Hb; [|done].
  rewrite <- Hvalid. destruct (is_valid_location b column) as [[|]|] eqn:Hv; try done.
  rewrite (drop_step _ st b column PLAYER_PIECE Hb Hv eq_refl).
  rewrite (drop_step _ st b (column + 7) PLAYER_PIECE Hb ltac:(by rewrite <- Hvalid) eq_refl).
  by rewrite Hchild.
Qed.

(** X19.  The column of a move is a numpy index.  A column from -7 to -1
    is taken for the column that many places from the right: the request
    is handled as the one for [column + 7].  Any column below -7 or above
    6 makes the handler of a known session fail with the [IndexError] of
    the validity test. *)
Theorem make_move_column_index (fuel : nat) (sid : string) (column : Z)
    (srv : server) :
  (-7 <= column < 0 ->
     make_move fuel sid column srv = make_move fuel sid (column + 7) srv) /\
  (column < -7 \/ 7 <= column -> is_Some (grid_of srv sid) ->
     make_move fuel sid column srv = None).
Proof.
  split.
  - intros Hcol. unfold make_move.
    destruct (sessions srv !! sid) as [s|]; [|done].
    by rewrite make_move_engine_wrap.
  - intros Hcol [b Hb]. unfold make_move, grid_of in *.
    destruct (sessions srv !! sid) as [s|]; [|done]. simpl in Hb.
    destruct (make_move_engine_invalid fuel column (engine_of s (random_state srv)) b Hb)
      as [_ Hraise].
    rewrite Hraise; [done|].
    unfold is_valid_location. rewrite np_index_outside; [done|].
    unfold COLUMN_COUNT. lia.
Qed.

(** ** A new game *)

Lemma first_move_outcome (column : Z) :
  -7 <= column < 7 ->
  is_valid_location zeros_board column = Some true /\
  winning_move (child zeros_board column PLAYER_PIECE) PLAYER_PIECE = false /\
  is_terminal_node (child zeros_board column PLAYER_PIECE) = false /\
  forall col, In col (get_valid_locations (child zeros_board column PLAYER_PIECE)) ->
    winning_move (child (child zeros_board column PLAYER_PIECE) col AI_PIECE) AI_PIECE
      = false.
Proof.
  intros Hcol.
  assert (column = -7 \/ column = -6 \/ column = -5 \/ column = -4 \/ column = -3 \/
          column = -2 \/ column = -1 \/ column = 0 \/ column = 1 \/ column = 2 \/
          column = 3 \/ column = 4 \/ column = 5 \/ column = 6) as Hcases by lia.
  repeat (destruct Hcases as [->|Hcases]); try subst column;
    (split; [reflexivity|]; split; [reflexivity|]; split; [reflexivity|];
     intros col Hin; vm_compute in Hin;
     repeat (destruct Hin as [<-|Hin]; [reflexivity|]); destruct Hin).
Qed.

(** X20.  [start_game] with an unknown persona raises 404 and adds no
    session.  With a known persona it stores a session under the fresh
    identifier with an empty grid, and the first move of that session, in
    any column from -7 to 6, is answered by a token of the AI: the game is
    not over and the grid holds two tokens. *)
Theorem start_game_then_move (pid : string) (hm : bool) (srv : server) :
  (PERSONAS !! pid = None ->
     exists srv', start_game pid hm srv = (HTTPException 404 "Persona not found", srv') /\
       sessions srv' = sessions srv) /\
  (forall p, PERSONAS !! pid = Some p ->
     exists r srv1,
       start_game pid hm srv = (Returned r, srv1) /\
       session_id r = uuids srv 0%nat /\ board_state r = zeros_board /\
       game_over r = false /\ current_persona r = persona_name p /\
       grid_of srv1 (session_id r) = Some zeros_board /\
       forall fuel column, (42 <= fuel)%nat -> -7 <= column < 7 ->
         exists r' srv2,
           make_move fuel (session_id r) column srv1 = Some (Returned r', srv2) /\
           game_over r' = false /\ winner r' = None /\
           empties (board_state r') = 40%nat).
Proof.
  split.
  - intros Hp. unfold start_game. rewrite Hp. eexists. split; [reflexivity|done].
  - intros p Hp. unfold start_game. rewrite Hp.
    eexists _, _. split; [reflexivity|]. cbn [session_id board_state game_over current_persona].
    split; [done|]. split; [done|]. split; [done|]. split; [done|].
    set (srv1 := {| sessions := _; uuids := _; random_state := _ |}).
    assert (sessions srv1 !! uuids srv 0%nat = Some
      {| engine_heap := [zeros_board]; engine_board := 0; persona := p;
         history := []; sympathy_score := 0; hard_mode := hm |}) as Hs
      by (unfold srv1; simpl; by rewrite lookup_insert_eq).
    assert (grid_of srv1 (uuids srv 0%nat) = Some zeros_board) as Hb
      by (unfold grid_of; by rewrite Hs).
    split; [done|].
    intros fuel column Hfuel Hcol.
    destruct (first_move_outcome column Hcol) as (Hvalid & Hw & Ht & Hai).
    destruct (make_move_valid fuel _ column srv1 _ zeros_board Hs Hb shape_ok_zeros
      ltac:(change (empties zeros_board) with 42%nat; lia) Hvalid) as (srv2 & Hrun & _).
    destruct (move_outcome_facts zeros_board column shape_ok_zeros Hvalid)
      as (Hstep1 & _ & _ & _ & Hplay).
    destruct (Hplay Hw Ht) as (col & Hcol' & Ho2 & Ho1).
    eexists _, srv2. split; [exact Hrun|]. cbn [game_over winner board_state].
    rewrite Ho1, Ho2, (Hai col Hcol'). cbn [fst snd].
    split; [done|]. split; [done|].
    destruct (valid_location_valid _ col Hcol') as [Hvalid2 _].
    pose proof (grid_step_child _ col AI_PIECE (step_shape _ _ Hstep1) Hvalid2
      eq_refl ltac:(discriminate)) as Hstep2.
    pose proof (step_empties _ _ Hstep1) as E1.
    pose proof (step_empties _ _ Hstep2) as E2.
    change (empties zeros_board) with 42%nat in E1. lia.
Qed.

(** ** A server with two sessions *)

Definition demo_server (b : board) : server :=
  {| sessions :=
       {[ "game"%string :=
            {| engine_heap := [b]; engine_board := 0;
               persona := {| persona_id := "grandmaster";
                             persona_name := "The Retired Grandmaster" |};
               history := []; sympathy_score := 0; hard_mode := false |};
          "other"%string :=
            {| engine_heap := [zeros_board]; engine_board := 0;
               persona := {| persona_id := "grieving_father";
                             persona_name := "The Distant Father" |};
               history := []; sympathy_score := 0; hard_mode := false |} ]};
     uuids := fun _ => "fresh"%string;
     random_state := fun _ => 0%nat |}.

Lemma make_move_refusal_witness :
  exists srv',
    make_move 5 "game" 3 (demo_server late_game_board)
      = Some (HTTPException 400 "Invalid Move", srv') /\
    srv' = demo_server late_game_board.
Proof.
  eexists. split; [vm_compute; reflexivity|].
  apply (make_move_refusal 5 "game" 3 (demo_server late_game_board) _ 400 "Invalid Move").
  vm_compute. reflexivity.
Defined.

Lemma make_move_other_sessions_witness :
  exists r srv',
    make_move 5 "game" 0 (demo_server late_game_board) = Some (r, srv') /\
    sessions srv' !! "other"%string
      = sessions (demo_server late_game_board) !! "other"%string.
Proof.
  eexists _, _. split; [vm_compute; reflexivity|].
  eapply (make_move_other_sessions 5 "game" "other" 0 (demo_server late_game_board));
    [vm_compute; reflexivity|discriminate].
Defined.

Lemma make_move_accepted_witness :
  exists r srv',
    make_move 5 "game" (-1) (demo_server late_game_board) = Some (Returned r, srv') /\
    session_id r = "game"%string.
Proof.
  pose proof (make_move_accepted 5 "game" (-1) (demo_server late_game_board)
    _ late_game_board eq_refl eq_refl) as H.
  specialize (H ltac:(split; [reflexivity|repeat constructor])
    ltac:(vm_compute; lia) eq_refl).
  destruct H as (r & srv' & b' & Hrun & Hid & _).
  by exists r, srv'.
Defined.

Lemma make_move_flags_witness :
  exists r srv',
    make_move 40 "game" 3 (demo_server threat_board) = Some (Returned r, srv') /\
    game_over r = true /\ winner r = Some 1.
Proof.
  pose proof (make_move_flags 40 "game" 3 (demo_server threat_board)
    _ threat_board eq_refl eq_refl) as H.
  specialize (H ltac:(split; [reflexivity|repeat constructor])
    ltac:(vm_compute; lia) eq_refl).
  destruct H as (r & srv' & Hrun & Hwin & _).
  destruct (Hwin eq_refl) as (Hover & Hwinner & _).
  by exists r, srv'.
Defined.

Lemma make_move_end_of_game_witness :
  exists r srv',
    make_move 1 "game" 6 (demo_server last_cell_board) = Some (Returned r, srv') /\
    game_over r = false /\ winner r = None /\
    is_terminal_node (board_state r) = true.
Proof.
  pose proof (make_move_end_of_game 1 "game" 6 (demo_server last_cell_board)
    _ last_cell_board eq_refl eq_refl) as H.
  specialize (H ltac:(split; [reflexivity|repeat constructor])
    ltac:(vm_compute; lia) eq_refl eq_refl).
  destruct H as (r & srv' & Hrun & Hterm & _).
  destruct (Hterm eq_refl) as (Hover & Hwinner & Hboard).
  exists r, srv'. split; [exact Hrun|]. split; [exact Hover|].
  split; [exact Hwinner|]. rewrite Hboard. reflexivity.
Defined.
